(** * Wyttle: a static-site build pipeline (src/wyttle.py)

    A shallow embedding of the text-rewriting passes, the path arithmetic
    and the dev-server handlers of [wyttle.py], with the properties of its
    specification stated and proved over the embedding.

    Conventions.
    - Text is a list of 8-bit characters (code points 0..255 of a Python
      [str]); [L "..."] turns a string literal into text.
    - Python's [re] is embedded as a backtracking matcher over the syntax
      the patterns of the source use (literals, character classes,
      repetition of a class, groups, backreferences, lookahead).
    - Calls that leave the program (file system, minifiers, uuid4) are
      fields of a [World]; a call either returns or raises.
    - Logging calls only write diagnostics and are left out. *)

From Stdlib Require Import Ascii String.
From Stdlib Require Import List Bool Arith Lia.
Import ListNotations.

Set Implicit Arguments.

(* ================================================================= *)
(** * Text and the [str] methods the source calls *)

Module Text.

Definition str := list ascii.

Definition L (s : string) : str := list_ascii_of_string s.

Definition code (c : ascii) : nat := nat_of_ascii c.

Definition chr_eqb (a b : ascii) : bool := Ascii.eqb a b.

Fixpoint str_eqb (a b : str) : bool :=
  match a, b with
  | [], [] => true
  | x :: a', y :: b' => chr_eqb x y && str_eqb a' b'
  | _, _ => false
  end.

(** [str.isspace] / [\s] on code points below 256. *)
Definition is_space (c : ascii) : bool :=
  let n := code c in
  ((9 <=? n) && (n <=? 13)) || ((28 <=? n) && (n <=? 32))
  || (n =? 133) || (n =? 160).

Definition is_upper (c : ascii) : bool :=
  let n := code c in (65 <=? n) && (n <=? 90).

Definition is_lower (c : ascii) : bool :=
  let n := code c in (97 <=? n) && (n <=? 122).

Definition is_letter (c : ascii) : bool := is_upper c || is_lower c.

Definition lower (c : ascii) : ascii :=
  if is_upper c then ascii_of_nat (code c + 32) else c.

(** [s.startswith(p)] with a comparison on characters. *)
Fixpoint prefix_by (eqc : ascii -> ascii -> bool) (p s : str) : bool :=
  match p, s with
  | [], _ => true
  | x :: p', y :: s' => eqc x y && prefix_by eqc p' s'
  | _ :: _, [] => false
  end.

Definition startswith (s p : str) : bool := prefix_by chr_eqb p s.

Definition endswith (s p : str) : bool := startswith (rev s) (rev p).

(** [p in s]. *)
Fixpoint contains (p s : str) : bool :=
  startswith s p ||
  match s with
  | [] => false
  | _ :: s' => contains p s'
  end.

Fixpoint lstrip_by (drop : ascii -> bool) (s : str) : str :=
  match s with
  | c :: s' => if drop c then lstrip_by drop s' else s
  | [] => []
  end.

Definition rstrip_by (drop : ascii -> bool) (s : str) : str :=
  rev (lstrip_by drop (rev s)).

(** [s.strip()]. *)
Definition strip (s : str) : str := rstrip_by is_space (lstrip_by is_space s).

(** [s.lstrip("/")]. *)
Definition lstrip_chr (c : ascii) (s : str) : str := lstrip_by (chr_eqb c) s.

(** [sep.join(parts)] for a one-character separator. *)
Fixpoint join_with (sep : ascii) (parts : list str) : str :=
  match parts with
  | [] => []
  | [p] => p
  | p :: rest => p ++ sep :: join_with sep rest
  end.

(** [s.split(sep)] for a one-character separator: the current field is
    accumulated in [cur] (reversed). *)
Fixpoint split_go (sep : ascii) (cur : str) (s : str) : list str :=
  match s with
  | [] => [rev cur]
  | c :: s' =>
      if chr_eqb c sep then rev cur :: split_go sep [] s'
      else split_go sep (c :: cur) s'
  end.

Definition split (sep : ascii) (s : str) : list str := split_go sep [] s.

End Text.

Import Text.

(* ================================================================= *)
(** * Exceptions and results *)

(** The exception classes the source distinguishes in its handlers:
    [FileNotFoundError] is an [OSError], every [OSError] is an
    [Exception]; [NonException] stands for the classes outside
    [Exception] (KeyboardInterrupt, SystemExit). *)
Inductive exn : Type :=
| FileNotFoundError
| OtherOSError
| OtherException
| NonException.

Definition is_OSError (e : exn) : bool :=
  match e with
  | FileNotFoundError | OtherOSError => true
  | _ => false
  end.

Definition is_Exception (e : exn) : bool :=
  match e with
  | NonException => false
  | _ => true
  end.

(** A call returns a value or raises. *)
Inductive res (A : Type) : Type :=
| Ret (a : A)
| Raise (e : exn).

Arguments Ret {A} a.
Arguments Raise {A} e.

Definition bind {A B} (x : res A) (f : A -> res B) : res B :=
  match x with
  | Ret a => f a
  | Raise e => Raise e
  end.

Declare Scope res_scope.
Delimit Scope res_scope with res.
Notation "x <- c ;; k" := (bind c (fun x => k))
  (at level 61, c at next level, right associativity) : res_scope.

(* ================================================================= *)
(** * The fragment of Python's [re] used by the source *)

Module Regex.

Definition cset := ascii -> bool.

(** Pattern syntax.  [Lit true l] is a literal under [re.IGNORECASE];
    [Rep g n p] is [p{n,}] on a character class, greedy when [g] and lazy
    otherwise ([Rep true 0 p] is [p*], [Rep true 1 p] is [p+],
    [Rep false 0 p] is [p*?]); [Grp n r] is the n-th capturing group;
    [Ref n] is [\n]; [Ahead r] is [(?=r)]. *)
Inductive re : Type :=
| Chr (p : cset)
| Lit (ci : bool) (l : str)
| Cat (a b : re)
| Alt (a b : re)
| Rep (greedy : bool) (least : nat) (p : cset)
| Grp (n : nat) (a : re)
| Ref (n : nat)
| Ahead (a : re).

Definition cat (l : list re) : re := fold_right Cat (Lit false []) l.

(** Character classes. *)
Definition any : cset := fun _ => true.                    (* [.] under DOTALL *)
Definition dot : cset := fun c => negb (code c =? 10).      (* [.] *)
Definition space : cset := is_space.                        (* [\s] *)
Definition letter : cset := is_letter.                      (* [[a-zA-Z]] *)
Definition none_of (l : str) : cset :=                      (* [[^...]] *)
  fun c => negb (existsb (chr_eqb c) l).
Definition one_of (l : str) : cset :=                       (* [[...]] *)
  fun c => existsb (chr_eqb c) l.

(** Captured groups, most recent binding first. *)
Definition caps := list (nat * str).

Fixpoint group_of (n : nat) (c : caps) : option str :=
  match c with
  | [] => None
  | (m, g) :: c' => if m =? n then Some g else group_of n c'
  end.

Definition lit_eqb (ci : bool) (a b : ascii) : bool :=
  if ci then chr_eqb (lower a) (lower b) else chr_eqb a b.

Section Matcher.

(** What a successful match hands back: the unread text and the groups. *)
Definition hit : Type := (str * caps)%type.

(** Zero or more characters of a class, then [k]; the greedy form tries
    the longer run first, the lazy form the shorter. *)
Fixpoint star (greedy : bool) (p : cset) (s : str)
         (k : str -> option hit) : option hit :=
  if greedy then
    match
      match s with
      | c :: s' => if p c then star greedy p s' k else None
      | [] => None
      end
    with
    | Some h => Some h
    | None => k s
    end
  else
    match k s with
    | Some h => Some h
    | None =>
        match s with
        | c :: s' => if p c then star greedy p s' k else None
        | [] => None
        end
    end.

(** At least [least] characters of a class, then [k]. *)
Fixpoint rep (greedy : bool) (least : nat) (p : cset) (s : str)
         (k : str -> option hit) : option hit :=
  match least with
  | 0 => star greedy p s k
  | S n =>
      match s with
      | c :: s' => if p c then rep greedy n p s' k else None
      | [] => None
      end
  end.

(** The backtracking matcher in continuation-passing style: [run r s c k]
    matches [r] at the head of [s] under the groups [c] and passes the
    unread text and the groups to [k]; alternatives are tried in the
    order of Python's engine and the first success wins. *)
Fixpoint run (r : re) (s : str) (c : caps)
         (k : str -> caps -> option hit) : option hit :=
  match r with
  | Chr p =>
      match s with
      | x :: s' => if p x then k s' c else None
      | [] => None
      end
  | Lit ci l =>
      if prefix_by (lit_eqb ci) l s then k (skipn (length l) s) c else None
  | Cat a b => run a s c (fun s' c' => run b s' c' k)
  | Alt a b =>
      match run a s c k with
      | Some h => Some h
      | None => run b s c k
      end
  | Rep g n p => rep g n p s (fun s' => k s' c)
  | Grp n a =>
      run a s c
          (fun s' c' => k s' ((n, firstn (length s - length s') s) :: c'))
  | Ref n =>
      match group_of n c with
      | Some g =>
          if startswith s g then k (skipn (length g) s) c else None
      | None => None
      end
  | Ahead a =>
      match run a s c (fun s' c' => Some (s', c')) with
      | Some (_, c') => k s c'
      | None => None
      end
  end.

End Matcher.

(** A match object: [group(0)] and the captured groups. *)
Record mobj : Type := MkMatch { m_text : str; m_caps : caps }.

(** [m.group(n)] for [n >= 1]; a group that did not take part is empty
    here (the source only reads groups that every match binds). *)
Definition group (n : nat) (m : mobj) : str :=
  match group_of n (m_caps m) with
  | Some g => g
  | None => []
  end.

(** [re.match(r, s)]: a match anchored at the head of [s]. *)
Definition match_here (r : re) (s : str) : option mobj :=
  match run r s [] (fun s' c => Some (s', c)) with
  | Some (s', c) => Some (MkMatch (firstn (length s - length s') s) c)
  | None => None
  end.

(** The scan behind [re.sub], [re.findall] and [re.finditer]: the text is
    cut, left to right, into characters outside every match and
    non-overlapping matches.  [skip] counts the characters of the current
    match still to be passed over.  No pattern of the source matches the
    empty text; after an empty match the scan copies one character. *)
Inductive piece : Type :=
| Keep (c : ascii)
| Hit (m : mobj).

Fixpoint scan_go (r : re) (skip : nat) (s : str) : list piece :=
  match s with
  | [] =>
      match skip with
      | 0 =>
          match match_here r [] with
          | Some m => [Hit m]
          | None => []
          end
      | S _ => []
      end
  | c :: s' =>
      match skip with
      | S n => scan_go r n s'
      | 0 =>
          match match_here r s with
          | Some m =>
              match length (m_text m) with
              | 0 => Hit m :: Keep c :: scan_go r 0 s'
              | S n => Hit m :: scan_go r n s'
              end
          | None => Keep c :: scan_go r 0 s'
          end
      end
  end.

Definition scan (r : re) (s : str) : list piece := scan_go r 0 s.

(** [re.finditer(r, s)]. *)
Fixpoint hits (ps : list piece) : list mobj :=
  match ps with
  | [] => []
  | Keep _ :: ps' => hits ps'
  | Hit m :: ps' => m :: hits ps'
  end.

Definition finditer (r : re) (s : str) : list mobj := hits (scan r s).

(** [re.sub(r, f, s)] with a callback that cannot raise. *)
Fixpoint render (f : mobj -> str) (ps : list piece) : str :=
  match ps with
  | [] => []
  | Keep c :: ps' => c :: render f ps'
  | Hit m :: ps' => f m ++ render f ps'
  end.

Definition sub (r : re) (f : mobj -> str) (s : str) : str :=
  render f (scan r s).

(** [re.sub(r, f, s)] with a callback that may raise: the callbacks run
    left to right and the first exception leaves [re.sub]. *)
Fixpoint render_res (f : mobj -> res str) (ps : list piece) : res str :=
  match ps with
  | [] => Ret []
  | Keep c :: ps' =>
      match render_res f ps' with
      | Ret t => Ret (c :: t)
      | Raise e => Raise e
      end
  | Hit m :: ps' =>
      match f m with
      | Ret x =>
          match render_res f ps' with
          | Ret t => Ret (x ++ t)
          | Raise e => Raise e
          end
      | Raise e => Raise e
      end
  end.

Definition sub_res (r : re) (f : mobj -> res str) (s : str) : res str :=
  render_res f (scan r s).

(** The same when the callback draws on a counter: [n] matches have been
    replaced before the first piece. *)
Fixpoint render_nth (f : nat -> mobj -> res str) (n : nat)
         (ps : list piece) : res str :=
  match ps with
  | [] => Ret []
  | Keep c :: ps' =>
      match render_nth f n ps' with
      | Ret t => Ret (c :: t)
      | Raise e => Raise e
      end
  | Hit m :: ps' =>
      match f n m with
      | Ret x =>
          match render_nth f (S n) ps' with
          | Ret t => Ret (x ++ t)
          | Raise e => Raise e
          end
      | Raise e => Raise e
      end
  end.

Definition sub_nth (r : re) (f : nat -> mobj -> res str) (n : nat)
           (s : str) : res str :=
  render_nth f n (scan r s).

(** [s.replace(old, new)]: every non-overlapping occurrence, left to right. *)
Definition replace (old new s : str) : str :=
  sub (Lit false old) (fun _ => new) s.

End Regex.

Import Regex.

(* ================================================================= *)
(** * The part of [pathlib] the source uses *)

Module PathLib.

(** A POSIX path: its anchor (none, [/] or [//]) and its segments. *)
Inductive anchor : Type := Relative | Root | Root2.

Record path : Type := MkPath { p_anchor : anchor; p_parts : list str }.

Definition anchor_eqb (a b : anchor) : bool :=
  match a, b with
  | Relative, Relative | Root, Root | Root2, Root2 => true
  | _, _ => false
  end.

Definition is_absolute (p : path) : bool :=
  negb (anchor_eqb (p_anchor p) Relative).

Definition slash : ascii := "/"%char.

Definition is_segment (p : str) : bool :=
  negb (str_eqb p [] || str_eqb p (L ".")).

(** [Path(s)]: empty and [.] segments are dropped, [..] is kept; exactly
    two leading slashes make the anchor [//]. *)
Definition parse (s : str) : path :=
  let n := length s - length (lstrip_chr slash s) in
  MkPath (match n with 0 => Relative | 2 => Root2 | _ => Root end)
         (filter is_segment (split slash s)).

(** [a / b]. *)
Definition join (a b : path) : path :=
  if is_absolute b then b
  else MkPath (p_anchor a) (p_parts a ++ p_parts b).

(** [str(p)]. *)
Definition path_str (p : path) : str :=
  match p_anchor p, p_parts p with
  | Relative, [] => L "."
  | Relative, ps => join_with slash ps
  | Root, ps => slash :: join_with slash ps
  | Root2, ps => slash :: slash :: join_with slash ps
  end.

(** [p.parent]. *)
Definition parent (p : path) : path :=
  MkPath (p_anchor p) (removelast (p_parts p)).

(** [p.parents[i]]; [None] is Python's IndexError. *)
Definition parents (p : path) (i : nat) : option path :=
  let n := length (p_parts p) in
  if i <? n then Some (MkPath (p_anchor p) (firstn (n - S i) (p_parts p)))
  else None.

Fixpoint strip_parts (pre ps : list str) : option (list str) :=
  match pre, ps with
  | [], _ => Some ps
  | x :: pre', y :: ps' => if str_eqb x y then strip_parts pre' ps' else None
  | _ :: _, [] => None
  end.

(** [p.relative_to(q)]; [None] is Python's ValueError. *)
Definition relative_to (p q : path) : option path :=
  if anchor_eqb (p_anchor p) (p_anchor q) then
    match strip_parts (p_parts q) (p_parts p) with
    | Some rest => Some (MkPath Relative rest)
    | None => None
    end
  else None.

(** [p.name]. *)
Definition name (p : path) : str := last (p_parts p) [].

Definition path_eqb (p q : path) : bool :=
  anchor_eqb (p_anchor p) (p_anchor q)
  && str_eqb (path_str p) (path_str q).

(** Lexical normalisation ([os.path.normpath]): [..] cancels the segment
    before it, stays at the front of a relative path and is dropped at the
    root.  [acc] holds the segments kept so far, last first. *)
Fixpoint normal_go (abs : bool) (acc ps : list str) : list str :=
  match ps with
  | [] => rev acc
  | p :: ps' =>
      if str_eqb p (L "..") then
        match acc with
        | q :: acc' =>
            if str_eqb q (L "..") then normal_go abs (p :: acc) ps'
            else normal_go abs acc' ps'
        | [] => if abs then normal_go abs [] ps' else normal_go abs [p] ps'
        end
      else normal_go abs (p :: acc) ps'
  end.

Definition normpath (p : path) : path :=
  MkPath (p_anchor p) (normal_go (is_absolute p) [] (p_parts p)).

(** For normalised paths: [q] is [d] or lies below it. *)
Definition is_under (q d : path) : bool :=
  anchor_eqb (p_anchor q) (p_anchor d)
  && match strip_parts (p_parts d) (p_parts q) with
     | Some (x :: _) => negb (str_eqb x (L ".."))
     | Some [] => true
     | None => false
     end.

End PathLib.

Import PathLib.

(* ================================================================= *)
(** * What lies outside the program *)

(** The file system and the libraries [csscompressor], [rjsmin] and
    [uuid]:
    - [resolve p] is [p.resolve()], [exists_ p] is [p.exists()],
      [read_text p] is [open(p, "r", encoding="utf-8").read()];
    - [walk d] is [os.walk(d)]: directories with their file names;
    - [css_compress] and [jsmin] are the two minifiers;
    - [uuid4 n] is the text of the n-th identifier drawn. *)
Record World : Type := MkWorld {
  resolve : path -> res path;
  exists_ : path -> res bool;
  read_text : path -> res str;
  walk : path -> list (path * list str);
  css_compress : str -> res str;
  jsmin : str -> res str;
  uuid4 : nat -> str
}.

(** [try: body except (FileNotFoundError, OSError): return None] and
    friends: [handles] is the except clause's class test. *)
Definition try_except {A} (body : res A) (handles : exn -> bool)
           (handler : exn -> res A) : res A :=
  match body with
  | Ret a => Ret a
  | Raise e => if handles e then handler e else Raise e
  end.

Local Open Scope res_scope.

(* ================================================================= *)
(** * The patterns of the source *)

Definition lit (s : string) : re := Lit false (L s).
Definition liti (s : string) : re := Lit true (L s).     (* IGNORECASE *)

Definition not_gt : cset := none_of (L ">").              (* [^>] *)
Definition dquote : ascii := ascii_of_nat 34.             (* the double quote *)
Definition quote : cset := one_of (dquote :: L "'").      (* the class of both quotes *)
Definition not_quote : cset := none_of (dquote :: L "'"). (* its complement *)

(** The link pattern of [inline_css], with IGNORECASE and DOTALL; Q is the
    class of the two quote characters and N its complement:
    [<link\s+(?=[^>]*href=Q N* Q)(?=[^>]*rel=Q stylesheet Q)[^>]*?href=Q(N+)Q[^>]*?>] *)
Definition re_link : re :=
  cat [ liti "<link"; Rep true 1 space;
        Ahead (cat [Rep true 0 not_gt; liti "href="; Chr quote;
                    Rep true 0 not_quote; Chr quote]);
        Ahead (cat [Rep true 0 not_gt; liti "rel="; Chr quote;
                    liti "stylesheet"; Chr quote]);
        Rep false 0 not_gt; liti "href="; Chr quote;
        Grp 1 (Rep true 1 not_quote); Chr quote;
        Rep false 0 not_gt; lit ">" ].

(** The script pattern of [inline_js], with IGNORECASE and DOTALL:
    [<script\s+[^>]*?src=Q(.*?)Q[^>]*?></script>] *)
Definition re_script : re :=
  cat [ liti "<script"; Rep true 1 space; Rep false 0 not_gt;
        liti "src="; Chr quote; Grp 1 (Rep false 0 any); Chr quote;
        Rep false 0 not_gt; liti "></script>" ].

(** [<!--.*?-->] with DOTALL. *)
Definition re_comment : re :=
  cat [lit "<!--"; Rep false 0 any; lit "-->"].

(** [\s+] *)
Definition re_spaces : re := Rep true 1 space.

(** [>\s+<] *)
Definition re_between_tags : re :=
  cat [lit ">"; Rep true 1 space; lit "<"].

(** [<%@\s*(.*?)\s*%>] *)
Definition re_include_ref : re :=
  cat [lit "<%@"; Rep true 0 space; Grp 1 (Rep false 0 dot);
       Rep true 0 space; lit "%>"].

(** [<%@\s*[^>]+%>] with DOTALL. *)
Definition re_include : re :=
  cat [lit "<%@"; Rep true 0 space; Rep true 1 not_gt; lit "%>"].

(** [<template:([^>]+)>(.*?)</template:\1>] with DOTALL. *)
Definition re_data_block : re :=
  cat [lit "<template:"; Grp 1 (Rep true 1 not_gt); lit ">";
       Grp 2 (Rep false 0 any); lit "</template:"; Ref 1; lit ">"].

(** [<template:[^>]+ />|<%%\s*/>] with DOTALL. *)
Definition re_residual : re :=
  Alt (cat [lit "<template:"; Rep true 1 not_gt; lit " />"])
      (cat [lit "<%%"; Rep true 0 space; lit "/>"]).

(** [<([a-zA-Z]+)[^>]*>%%(.*?)%%</\1>] with DOTALL. *)
Definition re_js_block : re :=
  cat [lit "<"; Grp 1 (Rep true 1 letter); Rep true 0 not_gt; lit ">%%";
       Grp 2 (Rep false 0 any); lit "%%</"; Ref 1; lit ">"].

(** Patterns and replacement templates built from document text.  The
    source pastes a data-block key into its patterns and hands a value to
    [re.sub] as a replacement template.  A key without one of the
    characters [.^$*+?{}[]\|()] is a literal pattern, a value without a
    backslash is a literal replacement; the embedding covers these and
    answers [None] on the others. *)
Definition meta_chars : str := L ".^$*+?{}[]\|()".

Definition plain_key (key : str) : bool :=
  forallb (none_of meta_chars) key.

Definition plain_value (value : str) : bool :=
  forallb (none_of (L "\")) value.

(** f"<template:{key}(?:>| />)" *)
Definition re_placeholder (key : str) : re :=
  cat [lit "<template:"; Lit false key; Alt (lit ">") (lit " />")].

(** f"</template:{key}>" *)
Definition re_closing (key : str) : re :=
  cat [lit "</template:"; Lit false key; lit ">"].

(** f"<template:{key}>.*?</template:{key}>" with DOTALL. *)
Definition re_block_of (key : str) : re :=
  cat [lit "<template:"; Lit false key; lit ">"; Rep false 0 any;
       lit "</template:"; Lit false key; lit ">"].

(* ================================================================= *)
(** * The functions of wyttle.py *)

Section Pipeline.

Variable W : World.

(** [resolve_inline_path(file_ref, current_file)] *)
Definition resolve_inline_path (file_ref : str) (current_file : path)
  : res (option path) :=
  let current_dir := parent current_file in
  try_except
    (resolved_path <- resolve W (join current_dir (parse file_ref)) ;;
     found <- exists_ W resolved_path ;;
     Ret (if found then Some resolved_path else None))
    is_OSError
    (fun _ => Ret None).

(** [load_file_content(file_path)] *)
Definition load_file_content (file_path : path) : res (option str) :=
  try_except
    (text <- read_text W file_path ;; Ret (Some text))
    (fun e => match e with FileNotFoundError => true | _ => false end)
    (fun _ => Ret None).

(** [href.startswith(("http", "//"))] *)
Definition is_external (ref : str) : bool :=
  startswith ref (L "http") || startswith ref (L "//").

(** [css_repl(match)] inside [inline_css] *)
Definition css_repl (file_path : path) (m : mobj) : res str :=
  let href := strip (group 1 m) in
  if is_external href then Ret (m_text m)
  else
    css_path <- resolve_inline_path href file_path ;;
    match css_path with
    | Some css_path =>
        css_content <- load_file_content css_path ;;
        match css_content with
        | Some ((_ :: _) as css_content) =>
            try_except
              (minified_css <- css_compress W css_content ;;
               Ret (L "<style>" ++ minified_css ++ L "</style>"))
              is_Exception
              (fun _ => Ret (L "<style>" ++ css_content ++ L "</style>"))
        | _ => Ret (m_text m)
        end
    | None => Ret (m_text m)
    end.

(** [inline_css(content, file_path)] *)
Definition inline_css (content : str) (file_path : path) : res str :=
  sub_res re_link (css_repl file_path) content.

(** [js_repl(match)] inside [inline_js] *)
Definition js_repl (file_path : path) (m : mobj) : res str :=
  let src := strip (group 1 m) in
  if is_external src then Ret (m_text m)
  else
    js_path <- resolve_inline_path src file_path ;;
    match js_path with
    | Some js_path =>
        js_content <- load_file_content js_path ;;
        match js_content with
        | Some ((_ :: _) as js_content) =>
            minified_js <- jsmin W js_content ;;
            Ret (L "<script>" ++ minified_js ++ L "</script>")
        | _ => Ret (m_text m)
        end
    | None => Ret (m_text m)
    end.

(** [inline_js(content, file_path)] *)
Definition inline_js (content : str) (file_path : path) : res str :=
  sub_res re_script (js_repl file_path) content.

(** [minify_html(content, remove_empty_space, remove_comments)] *)
Definition minify_html (content : str)
           (remove_empty_space remove_comments : bool) : str :=
  let content :=
    if remove_comments then sub re_comment (fun _ => []) content
    else content in
  if remove_empty_space then
    let content := sub re_spaces (fun _ => L " ") content in
    let content := sub re_between_tags (fun _ => L "><") content in
    strip content
  else content.

(** [resolve_template_path(template_ref, current_file)] *)
Definition resolve_template_path (template_ref : str) (current_file : path)
  : res (option path) :=
  match match_here re_include_ref template_ref with
  | None => Ret None
  | Some m =>
      let template_path := strip (group 1 m) in
      let current_dir := parent current_file in
      try_except
        (resolved_path <-
           resolve W (join current_dir (parse template_path)) ;;
         found <- exists_ W resolved_path ;;
         Ret (if found then Some resolved_path else None))
        is_OSError
        (fun _ => Ret None)
  end.

(** A [dict] keeps its keys in insertion order; assigning to a key that
    is present keeps its place. *)
Definition dict : Type := list (str * str).

Fixpoint dict_set (key value : str) (d : dict) : dict :=
  match d with
  | [] => [(key, value)]
  | (k, v) :: d' =>
      if str_eqb k key then (k, value) :: d'
      else (k, v) :: dict_set key value d'
  end.

(** [process_template(content, template_data)]: one round of the loop per
    item, each on the text the round before left. *)
Fixpoint process_template (content : str) (template_data : dict)
  : option str :=
  match template_data with
  | [] => Some content
  | (key, value) :: rest =>
      if plain_key key && plain_value value then
        let content := sub (re_placeholder key) (fun _ => value) content in
        let content := sub (re_closing key) (fun _ => []) content in
        process_template content rest
      else None
  end.

(** [replace_js_block(match)] inside [process_js_blocks]; [n] identifiers
    were drawn before. *)
Definition replace_js_block (n : nat) (m : mobj) : res str :=
  let js_code := strip (group 2 m) in
  let element_tag := group 1 m in
  let unique_id := uuid4 W n in
  minified_js <- jsmin W js_code ;;
  let script :=
    L "<script>document.querySelector(" ++ dquote
      :: L "[data-wyttle-ref=\" ++ dquote :: unique_id
      ++ L "\" ++ dquote :: L "]" ++ dquote
      :: L ").textContent = " ++ minified_js ++ L ";</script>" in
  Ret (L "<" ++ element_tag ++ L " data-wyttle-ref=" ++ dquote
         :: unique_id ++ dquote :: L ">" ++ script
         ++ L "</" ++ element_tag ++ L ">").

(** [process_js_blocks(content)] *)
Definition process_js_blocks (n : nat) (content : str) : res str :=
  sub_nth re_js_block replace_js_block n content.

(** The first loop of [process_file]: every data block found in the
    document as read is stored and its pattern removed from the running
    text. *)
Fixpoint extract_data (template_matches : list mobj) (template_data : dict)
         (content : str) : option (dict * str) :=
  match template_matches with
  | [] => Some (template_data, content)
  | m :: rest =>
      let key := group 1 m in
      let value := group 2 m in
      if plain_key key then
        extract_data rest (dict_set key (strip value) template_data)
                     (sub (re_block_of key) (fun _ => []) content)
      else None
  end.

(** The second loop of [process_file]: the includes found in the document
    as read, in order. *)
Fixpoint splice_includes (includes : list str) (template_data : dict)
         (file_path : path) (content : str) : option (res str) :=
  match includes with
  | [] => Some (Ret content)
  | include :: rest =>
      match resolve_template_path include file_path with
      | Raise e => Some (Raise e)
      | Ret None =>
          splice_includes rest template_data file_path
                          (replace include [] content)
      | Ret (Some template_path) =>
          match exists_ W template_path with
          | Raise e => Some (Raise e)
          | Ret false =>
              splice_includes rest template_data file_path
                              (replace include [] content)
          | Ret true =>
              match load_file_content template_path with
              | Raise e => Some (Raise e)
              | Ret (Some ((_ :: _) as template_content)) =>
                  match process_template template_content template_data with
                  | None => None
                  | Some processed_template =>
                      splice_includes rest template_data file_path
                        (replace include processed_template content)
                  end
              | Ret _ => splice_includes rest template_data file_path content
              end
          end
      end
  end.

(** Lines 168-199 of [process_file]: data blocks, includes, residual
    markers. *)
Definition resolve_includes (content : str) (file_path : path)
  : option (res str) :=
  let includes := map m_text (finditer re_include content) in
  let template_matches := finditer re_data_block content in
  match extract_data template_matches [] content with
  | None => None
  | Some (template_data, content) =>
      match splice_includes includes template_data file_path content with
      | Some (Ret content) =>
          Some (Ret (sub re_residual (fun _ => []) content))
      | other => other
      end
  end.

(** Lines 215-216 of [process_file]: where the result is written.
    IndexError and ValueError are ordinary exceptions. *)
Definition output_path_of (file_path output_dir : path) : res path :=
  match parents file_path 1 with
  | None => Raise OtherException
  | Some base =>
      match relative_to file_path base with
      | None => Raise OtherException
      | Some relative_path => Ret (join output_dir relative_path)
      end
  end.

(** The passes of [process_file] after the includes: the text, and the
    number of identifiers drawn so far (one for every script block). *)
Definition transform (n : nat) (content : str) (file_path : path)
           (minify : bool) : res (str * nat) :=
  content <- inline_css content file_path ;;
  content <- inline_js content file_path ;;
  let drawn := length (finditer re_js_block content) in
  content <- process_js_blocks n content ;;
  Ret (if minify then minify_html content true true else content,
       n + drawn).

(** [process_file(file_path, output_dir, minify)]: the file written, its
    text and the number of identifiers drawn so far.  [n] identifiers were
    drawn before; the write itself is taken to succeed. *)
Definition process_file (n : nat) (file_path output_dir : path)
           (minify : bool) : option (res (path * str * nat)) :=
  match read_text W file_path with
  | Raise e => Some (Raise e)
  | Ret content =>
      match resolve_includes content file_path with
      | None => None
      | Some (Raise e) => Some (Raise e)
      | Some (Ret content) =>
          Some (out <- transform n content file_path minify ;;
                output_path <- output_path_of file_path output_dir ;;
                Ret (output_path, fst out, snd out))
      end
  end.

(** The output tree: files by path; writing to a path replaces what was
    there. *)
Definition tree : Type := list (path * str).

Fixpoint tree_write (p : path) (text : str) (t : tree) : tree :=
  match t with
  | [] => [(p, text)]
  | (q, old) :: t' =>
      if path_eqb q p then (q, text) :: t'
      else (q, old) :: tree_write p text t'
  end.

(** The files [build_project] visits: the names ending in [.html] of
    every directory of the walk. *)
Definition html_files (src_path : path) : list path :=
  flat_map
    (fun rf : path * list str =>
       map (fun file => join (fst rf) (parse file))
           (filter (fun file => endswith file (L ".html")) (snd rf)))
    (walk W (join src_path (parse (L "pages")))).

(** The loop of [build_project] over the files. *)
Fixpoint build_files (n : nat) (files : list path) (dist_path : path)
         (minify : bool) (t : tree) : option (res tree) :=
  match files with
  | [] => Some (Ret t)
  | file_path :: rest =>
      match process_file n file_path dist_path minify with
      | None => None
      | Some (Raise e) => Some (Raise e)
      | Some (Ret (output_path, content, n')) =>
          build_files n' rest dist_path minify
                      (tree_write output_path content t)
      end
  end.

(** Lines 239-244, "Move pages to root": every entry of [dist/pages] is
    moved into [dist] and [dist/pages] is removed; [shutil.move] raises
    (an OSError) when the entry's name is taken in [dist]. *)
Definition first_part (p : path) : str :=
  match p_parts p with
  | x :: _ => x
  | [] => []
  end.

Definition in_pages (dist_path p : path) : option path :=
  relative_to p (join dist_path (parse (L "pages"))).

Definition taken (dist_path : path) (t : tree) (entry : str) : bool :=
  str_eqb entry (L "pages") ||
  existsb
    (fun pt : path * str =>
       match in_pages dist_path (fst pt), relative_to (fst pt) dist_path with
       | None, Some rel => str_eqb (first_part rel) entry
       | _, _ => false
       end) t.

Definition move_pages (dist_path : path) (t : tree) : res tree :=
  if existsb
       (fun pt : path * str =>
          match in_pages dist_path (fst pt) with
          | Some rel => taken dist_path t (first_part rel)
          | None => false
          end) t
  then Raise OtherOSError
  else
    Ret (map (fun pt : path * str =>
                match in_pages dist_path (fst pt) with
                | Some rel => (join dist_path rel, snd pt)
                | None => pt
                end) t).

(** [build_project(src_dir, dist_dir, config, minify)]: the output tree,
    which starts empty. *)
Definition build_project (src_dir dist_dir : str) (minify : bool)
  : option (res tree) :=
  let src_path := parse src_dir in
  let dist_path := parse dist_dir in
  match build_files 0 (html_files src_path) dist_path minify [] with
  | Some (Ret t) => Some (move_pages dist_path t)
  | other => other
  end.

End Pipeline.

(* ================================================================= *)
(** * The dev server *)

(** [urlparse(url).path] for a request target.  Characters up to the
    space (which [urlsplit] strips or deletes in a way that changed
    between Python releases) and authorities that [urlsplit] validates
    (brackets, characters above 127) are outside the embedding: [None]. *)
Module Url.

Definition colon : ascii := ":"%char.

Fixpoint before (stop : cset) (s : str) : str :=
  match s with
  | [] => []
  | c :: s' => if stop c then [] else c :: before stop s'
  end.

Fixpoint from (stop : cset) (s : str) : str :=
  match s with
  | [] => []
  | c :: s' => if stop c then s else from stop s'
  end.

Definition is_digit (c : ascii) : bool :=
  (48 <=? code c) && (code c <=? 57).

Definition scheme_char : cset :=
  fun c => is_letter c || is_digit c || one_of (L "+-.") c.

(** The scheme and the text after it. *)
Definition split_scheme (url : str) : str * str :=
  let head := before (chr_eqb colon) url in
  match head, from (chr_eqb colon) url with
  | c :: _, _ :: rest =>
      if is_letter c && forallb scheme_char head
      then (map lower head, rest) else ([], url)
  | _, _ => ([], url)
  end.

Definition uses_params : list str :=
  map L [""; "ftp"; "hdl"; "prospero"; "http"; "imap"; "https"; "shttp";
         "rtsp"; "rtspu"; "sip"; "sips"; "mms"; "sftp"; "tel"]%string.

(** [_splitparams]: the parameters start at the first [;] of the last
    segment. *)
Definition split_params (url : str) : str :=
  let last_seg := rev (before (chr_eqb slash) (rev url)) in
  let front := firstn (length url - length last_seg) url in
  front ++ before (chr_eqb ";"%char) last_seg.

Definition urlparse_path (url : str) : option str :=
  if existsb (fun c => code c <=? 32) url then None
  else
    let (scheme, url) := split_scheme url in
    let after_netloc :=
      if startswith url (L "//") then
        let netloc := before (one_of (L "/?#")) (skipn 2 url) in
        if existsb (fun c => one_of (L "[]") c || (128 <=? code c)) netloc
        then None
        else Some (from (one_of (L "/?#")) (skipn 2 url))
      else Some url in
    match after_netloc with
    | None => None
    | Some url =>
        let url := before (chr_eqb "#"%char) url in
        let url := before (chr_eqb "?"%char) url in
        Some (if existsb (str_eqb scheme) uses_params
              then split_params url else url)
    end.

End Url.

(** [DevServerHandler.translate_path(path)] *)
Definition translate_path (dist_dir : str) (path : str) : option str :=
  match Url.urlparse_path path with
  | None => None
  | Some path =>
      let path := join (parse dist_dir) (parse (lstrip_chr slash path)) in
      Some (path_str path)
  end.

(** What the dev session does that can be seen from outside. *)
Inductive action : Type :=
| Rebuild (minify : bool)        (* a call of [build_project] *)
| Send (payload : str)           (* [conn.sendall(payload)] *)
| CloseConn.                     (* leaving [with conn] *)

(** A watchdog event. *)
Record fs_event : Type := MkEvent { is_directory : bool; src_path : str }.

(** [FileWatcher.on_any_event(event)] *)
Definition on_any_event (event : fs_event) : list action :=
  if is_directory event || endswith (src_path event) (L ".config.json")
  then []
  else [Rebuild false].

(** [ws_server()], the reload channel, as a machine driven by what the
    socket calls return: [accept] returns a connection, [recv] returns
    data (empty when the peer has closed) or raises. *)
Inductive sock_event : Type :=
| Accepted
| Received (data : str)
| RecvRaised (e : exn).

(** [Listening]: blocked in [accept]; [Serving]: blocked in [recv] on the
    one accepted connection; [Ended]: an exception has left the loops and
    the thread is over. *)
Inductive ws_state : Type := Listening | Serving | Ended.

Definition ws_step (st : ws_state) (ev : sock_event)
  : ws_state * list action :=
  match st, ev with
  | Listening, Accepted => (Serving, [])
  | Serving, Received [] => (Listening, [CloseConn])
  | Serving, Received (_ :: _) => (Serving, [Send (L "reload")])
  | Serving, RecvRaised _ => (Ended, [CloseConn])
  | _, _ => (st, [])
  end.

(** The dev session after its start: the watcher thread and the reload
    thread each take their events as they come. *)
Inductive event : Type :=
| Changed (e : fs_event)
| Socket (e : sock_event).

Definition session_step (st : ws_state) (ev : event)
  : ws_state * list action :=
  match ev with
  | Changed e => (st, on_any_event e)
  | Socket e => ws_step st e
  end.

Fixpoint session (st : ws_state) (evs : list event) : ws_state * list action :=
  match evs with
  | [] => (st, [])
  | ev :: evs' =>
      let (st1, out1) := session_step st ev in
      let (st2, out2) := session st1 evs' in
      (st2, out1 ++ out2)
  end.

Definition is_send (a : action) : bool :=
  match a with
  | Send _ => true
  | _ => false
  end.

(* ================================================================= *)
(** * A small site to run the functions on *)

Module Demo.

Definition files : list (string * string) :=
  [ ("/site/src/pages/index.html",
     "<template:title>Hi</template:title><%@ ../partials/head.html %><link rel='stylesheet' href='../css/site.css'><script src='../js/app.js'></script>");
    ("/site/src/pages/a/b/c.html", "<p>deep</p>");
    ("/site/src/partials/head.html", "<title><template:title></title>");
    ("/site/src/css/site.css", "body { margin: 0 }");
    ("/site/src/js/app.js", "let x = 1;") ]%string.

Fixpoint lookup (fs : list (string * string)) (p : str) : option str :=
  match fs with
  | [] => None
  | (name, text) :: fs' =>
      if str_eqb (L name) p then Some (L text) else lookup fs' p
  end.

Definition file_at (p : path) : option str := lookup files (path_str p).

(** A world without symbolic links: [resolve] is the lexical
    normalisation, the minifiers trim their input or fail as told. *)
Definition world (css_fails js_fails : bool) : World :=
  MkWorld
    (fun p => Ret (normpath p))
    (fun p => Ret (match file_at p with Some _ => true | None => false end))
    (fun p => match file_at p with
              | Some text => Ret text
              | None => Raise FileNotFoundError
              end)
    (fun d => [ (d, [L "index.html"; L "notes.txt"]);
                (join d (parse (L "a/b")), [L "c.html"]) ])
    (fun css => if css_fails then Raise OtherException else Ret (strip css))
    (fun js => if js_fails then Raise OtherException else Ret (strip js))
    (fun n => L "id" ++ [ascii_of_nat (48 + n)]).

Definition site : World := world false false.
Definition failing : World := world true true.

(** The site on a file system that fails as CPython's does: [resolve]
    raises ValueError on a path with a NUL character, [exists] raises
    PermissionError below [/locked], and the directory [/site/src/pages]
    exists and raises IsADirectoryError when it is opened for reading. *)
Definition is_pages_dir (p : path) : bool :=
  str_eqb (path_str p) (L "/site/src/pages").

Definition hostile : World :=
  MkWorld
    (fun p => if existsb (existsb (chr_eqb zero)) (p_parts p)
              then Raise OtherException
              else Ret (normpath p))
    (fun p => if startswith (path_str p) (L "/locked/")
              then Raise OtherOSError
              else Ret (match file_at p with
                        | Some _ => true
                        | None => is_pages_dir p
                        end))
    (fun p => if is_pages_dir p then Raise OtherOSError
              else match file_at p with
                   | Some text => Ret text
                   | None => Raise FileNotFoundError
                   end)
    (walk site) (css_compress site) (jsmin site) (uuid4 site).

Definition index_html : path := parse (L "/site/src/pages/index.html").

(** The match of the link pattern on the stylesheet tag of the index
    page, and a document that is one external stylesheet tag with its
    match. *)
Definition css_link : mobj :=
  MkMatch (L "<link rel='stylesheet' href='../css/site.css'>")
          [(1, L "../css/site.css")].

Definition external_doc : str :=
  L "<link rel='stylesheet' href='https://example.com/a.css'>".

Definition external_link : mobj :=
  MkMatch external_doc [(1, L "https://example.com/a.css")].

End Demo.

(* ================================================================= *)
(** * Predicates used in the statements *)

(** A text that does not hold the character [c]. *)
Definition lacks (c : ascii) (s : str) : bool :=
  forallb (fun x => negb (chr_eqb x c)) s.

(** The resolution of a target ends in the exception [e]: [resolve]
    raises it, or [exists] raises it on the resolved path. *)
Definition resolution_fails (W : World) (target : path) (e : exn) : Prop :=
  resolve W target = Raise e
  \/ exists p, resolve W target = Ret p /\ exists_ W p = Raise e.


(** Every suffix of a text passes a test. *)
Fixpoint all_suffixes (ok : str -> bool) (s : str) : bool :=
  ok s && match s with
          | [] => true
          | _ :: s' => all_suffixes ok s'
          end.

(** The text holds none of the markers that open an include directive, a
    data block or placeholder, or a residual marker. *)
Definition markup_free (content : str) : bool :=
  negb (contains (L "<%@") content)
  && negb (contains (L "<template:") content)
  && negb (contains (L "<%%") content).

(** A run of characters of the class [p] cannot go on into [s]. *)
Definition stops (p : cset) (s : str) : bool :=
  match s with
  | [] => true
  | c :: _ => negb (p c)
  end.

(** The placeholder tag of a key, [<template:key>]. *)
Definition placeholder (key : str) : str := L "<template:" ++ key ++ L ">".

(** A key that is a literal pattern and holds no [<], [>] or space. *)
Definition simple_key (key : str) : bool :=
  plain_key key && lacks "<"%char key && lacks ">"%char key
  && lacks " "%char key.

(** A map whose tags cannot be taken for one another: every key is
    simple and every value a literal replacement. *)
Definition simple_map (d : dict) : bool :=
  forallb (fun kv : str * str => simple_key (fst kv) && plain_value (snd kv))
          d.

(** The text holds no opening and no closing template tag. *)
Definition no_template_tag (s : str) : bool :=
  negb (contains (L "<template:") s) && negb (contains (L "</template:") s).

(** The text is empty or starts with [<]. *)
Definition opens_tag (s : str) : bool :=
  match s with
  | [] => true
  | c :: _ => chr_eqb c "<"%char
  end.

(** Every whitespace character of the text is a space that no whitespace
    follows. *)
Definition lone_space (t : str) : bool :=
  match t with
  | [] => true
  | c :: t' => if is_space c then chr_eqb c " "%char && stops is_space t'
               else true
  end.

Definition single_spaced (s : str) : bool := all_suffixes lone_space s.

(** The text starts with [>], one whitespace character and [<]. *)
Definition gap_at (t : str) : bool :=
  match t with
  | c :: w :: x :: _ => chr_eqb c ">"%char && is_space w && chr_eqb x "<"%char
  | _ => false
  end.

Definition gap_free (s : str) : bool :=
  all_suffixes (fun t => negb (gap_at t)) s.

(** What the two whitespace passes of [minify_html] compute, written as
    plain recursions over the text; the proofs show that the passes agree
    with them and read the properties of the output off them.
    [collapse_runs in_run s]: every whitespace run becomes one space
    ([in_run]: the character before belongs to a run). *)
Fixpoint collapse_runs (in_run : bool) (s : str) : str :=
  match s with
  | [] => []
  | c :: s' =>
      if is_space c then
        if in_run then collapse_runs true s'
        else " "%char :: collapse_runs true s'
      else c :: collapse_runs false s'
  end.

(** [squeeze_gaps s]: a whitespace character between [>] and [<] goes. *)
Fixpoint squeeze_gaps (s : str) : str :=
  match s with
  | [] => []
  | c :: s1 =>
      match s1 with
      | w :: x :: rest =>
          if chr_eqb c ">"%char && is_space w && chr_eqb x "<"%char
          then ">"%char :: "<"%char :: squeeze_gaps rest
          else c :: squeeze_gaps s1
      | _ => c :: squeeze_gaps s1
      end
  end.

(* ================================================================= *)
(** * The start of the dev session *)

(** Lines 287-296 of [start_dev_server]: the script put before the end of
    the body of the index page. *)
Definition reload_script (no_reload : bool) : str :=
  if no_reload then []
  else L "
    <script>
    let ws = new WebSocket(`ws://${location.host}`);
    ws.onmessage = () => location.reload();
    </script>
    ".

(** The entries of a tree at a path or below it; the path exists when
    there is one. *)
Definition tree_at (p : path) (t : tree) : tree :=
  filter (fun pt : path * str =>
            match relative_to (fst pt) p with
            | Some _ => true
            | None => false
            end) t.

(** The text of the file at a path. *)
Fixpoint tree_read (p : path) (t : tree) : option str :=
  match t with
  | [] => None
  | (q, text) :: t' =>
      match relative_to q p with
      | Some (MkPath _ []) => Some text
      | _ => tree_read p t'
      end
  end.

(** Lines 297-303 of [start_dev_server] on the tree the first build has
    written: when [dist/pages/index.html] exists it is read, every
    [</body>] in it gets the script before it, and it is written back;
    opening a directory raises. *)
Definition inject_reload (dist_dir : str) (no_reload : bool) (t : tree)
  : res tree :=
  let index_path :=
    join (join (parse dist_dir) (parse (L "pages"))) (parse (L "index.html")) in
  match tree_at index_path t with
  | [] => Ret t
  | _ :: _ =>
      match tree_read index_path t with
      | Some content =>
          Ret (tree_write index_path
                 (replace (L "</body>")
                          (reload_script no_reload ++ L "</body>") content)
                 t)
      | None => Raise OtherOSError
      end
  end.


(* ================================================================= *)
(** * More predicates used in the statements *)

(** The event makes the watcher rebuild: a change of something that is no
    directory and whose path does not end in [.config.json]. *)
Definition triggers (ev : event) : bool :=
  match ev with
  | Changed e =>
      negb (is_directory e || endswith (src_path e) (L ".config.json"))
  | Socket _ => false
  end.

Definition is_rebuild (a : action) : bool :=
  match a with
  | Rebuild _ => true
  | _ => false
  end.

(** The socket hands data to the reload thread. *)
Definition brings_data (ev : event) : bool :=
  match ev with
  | Socket (Received (_ :: _)) => true
  | _ => false
  end.

(** A local reference that yields no text: it does not resolve, or the
    file it resolves to is gone when it is opened, or is empty. *)
Definition yields_nothing (W : World) (file_path : path) (ref : str) : Prop :=
  resolve_inline_path W ref file_path = Ret None
  \/ exists p, resolve_inline_path W ref file_path = Ret (Some p)
               /\ (read_text W p = Ret []
                   \/ read_text W p = Raise FileNotFoundError).

(** The element [replace_js_block] writes for a tag name, an identifier
    and the minified script. *)
Definition rewritten_block (tag unique_id minified_js : str) : str :=
  L "<" ++ tag ++ L " data-wyttle-ref=" ++ dquote :: unique_id ++ dquote
    :: L ">"
    ++ (L "<script>document.querySelector(" ++ dquote
          :: L "[data-wyttle-ref=\" ++ dquote :: unique_id
          ++ L "\" ++ dquote :: L "]" ++ dquote
          :: L ").textContent = " ++ minified_js ++ L ";</script>")
    ++ L "</" ++ tag ++ L ">".

(** A script block as it stands in a document. *)
Definition js_block (tag attrs body : str) : str :=
  L "<" ++ tag ++ attrs ++ L ">%%" ++ body ++ L "%%</" ++ tag ++ L ">".

(** A reference as it stands in an include directive: no whitespace and
    none of [%], [<], [>]. *)
Definition ref_char (c : ascii) : bool :=
  negb (is_space c) && none_of (L "%<>") c.

Definition ref_text (ref : str) : bool :=
  forallb ref_char ref && negb (str_eqb ref []).

(** The include directive of a reference, [<%@ ref %>]. *)
Definition directive (ref : str) : str := L "<%@ " ++ ref ++ L " %>".

(** The data block of a key and a value. *)
Definition data_block (key value : str) : str :=
  L "<template:" ++ key ++ L ">" ++ value ++ L "</template:" ++ key ++ L ">".

(** [p] occurs in [s] up to the case of its letters: the place where a
    literal of a pattern compiled with IGNORECASE can match. *)
Fixpoint contains_nocase (p s : str) : bool :=
  prefix_by (lit_eqb true) p s ||
  match s with
  | [] => false
  | _ :: s' => contains_nocase p s'
  end.

(** A page that uses nothing the tool acts on: no include directive, no
    template tag, no doubled percent sign, no link and no script tag. *)
Definition plain_page (content : str) : bool :=
  negb (contains (L "<%@") content)
  && negb (contains (L "<template:") content)
  && negb (contains (L "%%") content)
  && negb (contains_nocase (L "<link") content)
  && negb (contains_nocase (L "<script") content).

(** A name as a directory listing holds it: one path segment. *)
Definition file_name (name : str) : bool :=
  is_segment name && lacks slash name.

(** A world whose every directory lists two pages and a text file, side
    by side, and has no subdirectory. *)
Definition flat_world : World :=
  MkWorld (fun p => Ret (normpath p))
          (fun _ => Ret true)
          (fun p => if str_eqb (name p) (L "index.html")
                    then Ret (L "<h1>Home</h1>  <p>50% off</p>")
                    else if str_eqb (name p) (L "about.html")
                    then Ret (L "<!-- draft --><p>About</p>")
                    else Raise FileNotFoundError)
          (fun d => [(d, [L "index.html"; L "notes.txt"; L "about.html"])])
          (fun css => Ret css) (fun js => Ret js) (fun _ => L "id").

(** The page of a name in the pages directory of [s], the place below [d]
    where [process_file] writes it, and the text written for it. *)
Definition page_of (s : path) (name : str) : path :=
  join (join s (parse (L "pages"))) (parse name).

Definition written_to (d : path) (name : str) : path :=
  MkPath (p_anchor d) (p_parts d ++ [L "pages"; name]).

Definition written_text (minify : bool) (text : str -> str) (name : str)
  : str :=
  if minify then minify_html (text name) true true else text name.
Unset Implicit Arguments.

(* ================================================================= *)
(** * Facts about text *)

Section TextFacts.

Lemma chr_eqb_refl (c : ascii) : chr_eqb c c = true.
Proof. apply Ascii.eqb_refl. Qed.

Lemma chr_eqb_eq (a b : ascii) : chr_eqb a b = true <-> a = b.
Proof. apply Ascii.eqb_eq. Qed.

Lemma chr_eqb_neq (a b : ascii) : chr_eqb a b = false <-> a <> b.
Proof. apply Ascii.eqb_neq. Qed.

Lemma str_eqb_refl (s : str) : str_eqb s s = true.
Proof.
  induction s as [|c s IH]; simpl; [reflexivity|].
  now rewrite chr_eqb_refl.
Qed.

Lemma startswith_app (p s : str) : startswith (p ++ s) p = true.
Proof.
  unfold startswith. induction p as [|x p IH]; simpl; [reflexivity|].
  now rewrite chr_eqb_refl.
Qed.

Lemma skipn_app_exact {A : Type} (p s : list A) :
  skipn (length p) (p ++ s) = s.
Proof. induction p; simpl; auto. Qed.

Lemma firstn_app_exact {A : Type} (p s : list A) :
  firstn (length p) (p ++ s) = p.
Proof. induction p; simpl; [reflexivity | now f_equal]. Qed.

Lemma firstn_length_firstn (n : nat) (s : str) :
  firstn (length (firstn n s)) s = firstn n s.
Proof.
  revert s; induction n as [|n IH]; intros [|c s]; simpl;
    try reflexivity.
  now rewrite IH.
Qed.

Lemma lacks_app (c : ascii) (a b : str) :
  lacks c (a ++ b) = lacks c a && lacks c b.
Proof. apply forallb_app. Qed.

Lemma lstrip_by_head (drop : ascii -> bool) (s : str) (c : ascii) (t : str) :
  lstrip_by drop s = c :: t -> drop c = false.
Proof.
  induction s as [|x s IH]; simpl; [discriminate|].
  destruct (drop x) eqn:E; [exact IH|].
  intros H; inversion H; subst; exact E.
Qed.

Lemma rstrip_by_keeps_head (drop : ascii -> bool) (z : ascii) (v : str) :
  drop z = false -> exists w, rstrip_by drop (z :: v) = z :: w.
Proof.
  intros Hz. unfold rstrip_by.
  induction v as [|a v IH] using rev_ind.
  - simpl. rewrite Hz. now exists [].
  - rewrite app_comm_cons, rev_unit.
    cbn [lstrip_by]. destruct (drop a).
    + exact IH.
    + exists (v ++ [a]).
      change (a :: rev (z :: v)) with ([a] ++ rev (z :: v)).
      rewrite rev_app_distr, rev_involutive. reflexivity.
Qed.

Lemma strip_head (s : str) (c : ascii) (t : str) :
  strip s = c :: t -> is_space c = false.
Proof.
  unfold strip. intros H.
  destruct (lstrip_by is_space s) as [|z v] eqn:F.
  - discriminate.
  - pose proof (lstrip_by_head _ _ _ _ F) as Hz.
    destruct (rstrip_by_keeps_head is_space z v Hz) as [w Hw].
    rewrite Hw in H. inversion H; subst. exact Hz.
Qed.

Lemma strip_last (s : str) (c : ascii) (t : str) :
  strip s = t ++ [c] -> is_space c = false.
Proof.
  unfold strip, rstrip_by. intros H.
  apply (f_equal (@rev ascii)) in H.
  rewrite rev_involutive, rev_app_distr in H. simpl in H.
  exact (lstrip_by_head _ _ _ _ H).
Qed.

End TextFacts.

(* ================================================================= *)
(** * Facts about the matcher and the scan *)

Section RegexFacts.

Lemma match_here_text (r : re) (s : str) (m : mobj) :
  match_here r s = Some m -> m_text m = firstn (length (m_text m)) s.
Proof.
  unfold match_here.
  destruct (run r s [] _) as [[s' c]|]; [|discriminate].
  intros H; inversion H; subst; simpl.
  symmetry; apply firstn_length_firstn.
Qed.

(** Putting the matched texts back gives the text scanned. *)
Lemma scan_go_text (r : re) (s : str) :
  forall skip, render m_text (scan_go r skip s) = skipn skip s.
Proof.
  induction s as [|c s IH]; intros skip; simpl.
  - destruct skip; [|reflexivity].
    destruct (match_here r []) as [m|] eqn:E; [|reflexivity].
    simpl. rewrite (match_here_text _ _ _ E), app_nil_r.
    now destruct (length (m_text m)).
  - destruct skip as [|n]; [|apply IH].
    destruct (match_here r (c :: s)) as [m|] eqn:E.
    + pose proof (match_here_text _ _ _ E) as Ht.
      destruct (length (m_text m)) as [|n] eqn:Hn; simpl.
      * rewrite Ht. simpl. now rewrite IH.
      * rewrite IH, Ht. simpl. now rewrite firstn_skipn.
    + simpl. now rewrite IH.
Qed.

Lemma scan_text (r : re) (s : str) : render m_text (scan r s) = s.
Proof. apply scan_go_text. Qed.

Lemma render_ext (f g : mobj -> str) (ps : list piece) :
  (forall m, In m (hits ps) -> f m = g m) -> render f ps = render g ps.
Proof.
  induction ps as [|[c|m] ps IH]; simpl; intros H; [reflexivity| |].
  - now rewrite IH.
  - rewrite (H m) by now left. rewrite IH; [reflexivity|].
    intros m' Hm'. apply H. now right.
Qed.

Lemma render_res_ext (f : mobj -> res str) (g : mobj -> str)
      (ps : list piece) :
  (forall m, In m (hits ps) -> f m = Ret (g m)) ->
  render_res f ps = Ret (render g ps).
Proof.
  induction ps as [|[c|m] ps IH]; simpl; intros H; [reflexivity| |].
  - now rewrite IH.
  - rewrite (H m) by now left. rewrite IH; [reflexivity|].
    intros m' Hm'. apply H. now right.
Qed.

(** A callback that answers [group(0)] leaves the text as it is. *)
Lemma sub_res_same (r : re) (f : mobj -> res str) (s : str) :
  (forall m, In m (finditer r s) -> f m = Ret (m_text m)) ->
  sub_res r f s = Ret s.
Proof.
  intros H. unfold sub_res.
  rewrite (render_res_ext f m_text _ H). now rewrite scan_text.
Qed.

(** Without a match, [re.sub] is the identity. *)
Lemma sub_no_match (r : re) (f : mobj -> str) (s : str) :
  finditer r s = [] -> sub r f s = s.
Proof.
  intros H. unfold sub.
  rewrite (render_ext f m_text); [apply scan_text|].
  unfold finditer in H. rewrite H. intros m [].
Qed.

Lemma render_app (f : mobj -> str) (ps qs : list piece) :
  render f (ps ++ qs) = render f ps ++ render f qs.
Proof.
  induction ps as [|[c|m] ps IH]; simpl; [reflexivity| |].
  - now rewrite IH.
  - now rewrite IH, app_assoc.
Qed.

(** The output of [re.sub] around one match: the callback's answer for
    that match sits between the rewritten text before and after it. *)
Lemma render_res_split (f : mobj -> res str) (ps qs : list piece)
      (m : mobj) (out : str) :
  render_res f (ps ++ Hit m :: qs) = Ret out ->
  exists o1 x o2,
    render_res f ps = Ret o1 /\ f m = Ret x /\ render_res f qs = Ret o2
    /\ out = o1 ++ x ++ o2.
Proof.
  revert out; induction ps as [|[c|m'] ps IH]; simpl; intros out H.
  - destruct (f m) as [x|e]; [|discriminate].
    destruct (render_res f qs) as [o2|e]; [|discriminate].
    inversion H; subst. now exists [], x, o2.
  - destruct (render_res f (ps ++ Hit m :: qs)) as [t|e] eqn:E;
      [|discriminate].
    inversion H; subst.
    destruct (IH t eq_refl) as (o1 & x & o2 & H1 & H2 & H3 & H4).
    rewrite H1. exists (c :: o1), x, o2. subst t. now repeat split.
  - destruct (f m') as [y|e]; [|discriminate].
    destruct (render_res f (ps ++ Hit m :: qs)) as [t|e] eqn:E;
      [|discriminate].
    inversion H; subst.
    destruct (IH t eq_refl) as (o1 & x & o2 & H1 & H2 & H3 & H4).
    rewrite H1. exists (y ++ o1), x, o2. subst t.
    repeat split; auto. now rewrite app_assoc.
Qed.

End RegexFacts.

(* ================================================================= *)
(** * C7: the path resolver *)

(** The guarded block of both resolvers, by the outcome of [resolve] and
    of [exists]: the handler takes FileNotFoundError and the other
    OSErrors, and nothing else. *)
Lemma resolve_guarded_cases (W : World) (target : path) :
  try_except
    (resolved_path <- resolve W target ;;
     found <- exists_ W resolved_path ;;
     Ret (if found then Some resolved_path else None))%res
    is_OSError (fun _ => Ret None)
  = match resolve W target with
    | Ret p =>
        match exists_ W p with
        | Ret found => Ret (if found then Some p else None)
        | Raise FileNotFoundError | Raise OtherOSError => Ret None
        | Raise e => Raise e
        end
    | Raise FileNotFoundError | Raise OtherOSError => Ret None
    | Raise e => Raise e
    end.
Proof.
  unfold try_except, bind.
  destruct (resolve W target) as [p|[]]; try reflexivity.
  destruct (exists_ W p) as [b|[]]; reflexivity.
Qed.

Lemma resolve_guarded_outcomes (W : World) (target : path) :
  (forall p,
      try_except
        (resolved_path <- resolve W target ;;
         found <- exists_ W resolved_path ;;
         Ret (if found then Some resolved_path else None))%res
        is_OSError (fun _ => Ret None) = Ret (Some p)
      <-> resolve W target = Ret p /\ exists_ W p = Ret true)
  /\ (try_except
        (resolved_path <- resolve W target ;;
         found <- exists_ W resolved_path ;;
         Ret (if found then Some resolved_path else None))%res
        is_OSError (fun _ => Ret None) = Ret None
      <-> (exists p, resolve W target = Ret p /\ exists_ W p = Ret false)
          \/ resolution_fails W target FileNotFoundError
          \/ resolution_fails W target OtherOSError)
  /\ (forall e,
         try_except
           (resolved_path <- resolve W target ;;
            found <- exists_ W resolved_path ;;
            Ret (if found then Some resolved_path else None))%res
           is_OSError (fun _ => Ret None) = Raise e
         <-> resolution_fails W target e
             /\ (e = OtherException \/ e = NonException)).
Proof.
  rewrite resolve_guarded_cases. unfold resolution_fails.
  destruct (resolve W target) as [q|e0] eqn:Hr.
  - destruct (exists_ W q) as [b|e1] eqn:He.
    + refine (conj _ (conj _ _)).
      * intros p. split.
        -- destruct b; intros H; inversion H; subst. now split.
        -- intros [H1 H2]. inversion H1; subst.
           rewrite H2 in He. now inversion He.
      * split.
        -- destruct b; intros H; [discriminate|]. left. now exists q.
        -- intros [(p & H1 & H2) | [[H | (p & H1 & H2)] | [H | (p & H1 & H2)]]];
             try discriminate; inversion H1; subst; rewrite H2 in He;
             inversion He; subst; reflexivity.
      * intros e. split; [destruct b; discriminate|].
        intros [[H | (p & H1 & H2)] _]; [discriminate|].
        inversion H1; subst. rewrite H2 in He. discriminate.
    + refine (conj _ (conj _ _)).
      * intros p. split.
        -- destruct e1; discriminate.
        -- intros [H1 H2]. inversion H1; subst. rewrite H2 in He.
           discriminate.
      * split.
        -- destruct e1; intros H; try discriminate; right;
             [left | right]; right; now exists q.
        -- intros [(p & H1 & H2) | [[H | (p & H1 & H2)] | [H | (p & H1 & H2)]]];
             try discriminate; inversion H1; subst; rewrite H2 in He;
             inversion He; subst; reflexivity.
      * intros e. split.
        -- destruct e1; intros H; inversion H; subst;
             (split; [right; now exists q | tauto]).
        -- intros [[H | (p & H1 & H2)] Hcls]; [discriminate|].
           inversion H1; subst. rewrite H2 in He. inversion He; subst.
           destruct Hcls as [-> | ->]; reflexivity.
  - refine (conj _ (conj _ _)).
    + intros p. split; [destruct e0; discriminate|].
      intros [H _]. discriminate.
    + split.
      * destruct e0; intros H; try discriminate; right;
          [left | right]; now left.
      * intros [(p & H1 & _) | [[H | (p & H1 & _)] | [H | (p & H1 & _)]]];
          try discriminate; inversion H; subst; reflexivity.
    + intros e. split.
      * destruct e0; intros H; inversion H; subst;
          (split; [now left | tauto]).
      * intros [[H | (p & H1 & _)] Hcls]; [|discriminate].
        inversion H; subst. destruct Hcls as [-> | ->]; reflexivity.
Qed.

(** C7 as stated fails: on a reference with a NUL character [resolve]
    raises ValueError, which is no OSError, and the resolver lets it
    through to its caller. *)
Lemma C7_counterexample :
  ~ (forall (W : World) (reference : str) (current_file : path),
        exists r, resolve_inline_path W reference current_file = Ret r).
Proof.
  intros H.
  destruct (H Demo.hostile (L "a" ++ zero :: L ".css") Demo.index_html)
    as [r Hr].
  vm_compute in Hr. discriminate.
Qed.

(** C7, amended.  For every file system, reference and referencing file,
    [resolve_inline_path] joins the reference onto the file's parent
    directory, normalises the result with [resolve] and returns that path
    exactly when [exists] answers yes.  It returns [None] exactly when
    [exists] answers no or when [resolve] or [exists] raises
    FileNotFoundError or another OSError.  Every other exception of
    [resolve] or [exists] (ValueError, RuntimeError, KeyboardInterrupt)
    leaves the resolver: it raises [e] exactly when one of the two raised
    [e] and [e] is no OSError.  [resolve_template_path] returns [None] on
    a text that is no directive and otherwise does the same with the
    reference it reads out of the directive. *)
Theorem C7_path_resolver_catches_os_errors_only
        (W : World) (reference : str) (current_file : path) :
  (forall p,
      resolve_inline_path W reference current_file = Ret (Some p)
      <-> resolve W (join (parent current_file) (parse reference)) = Ret p
          /\ exists_ W p = Ret true)
  /\ (resolve_inline_path W reference current_file = Ret None
      <-> (exists p,
              resolve W (join (parent current_file) (parse reference))
              = Ret p /\ exists_ W p = Ret false)
          \/ resolution_fails W (join (parent current_file) (parse reference))
                              FileNotFoundError
          \/ resolution_fails W (join (parent current_file) (parse reference))
                              OtherOSError)
  /\ (forall e,
         resolve_inline_path W reference current_file = Raise e
         <-> resolution_fails W (join (parent current_file) (parse reference))
                              e
             /\ (e = OtherException \/ e = NonException))
  /\ (match_here re_include_ref reference = None ->
      resolve_template_path W reference current_file = Ret None)
  /\ (forall m,
         match_here re_include_ref reference = Some m ->
         resolve_template_path W reference current_file
         = resolve_inline_path W (strip (group 1 m)) current_file).
Proof.
  destruct (resolve_guarded_outcomes
              W (join (parent current_file) (parse reference)))
    as (H1 & H2 & H3).
  refine (conj H1 (conj H2 (conj H3 (conj _ _)))).
  - intros Hm. unfold resolve_template_path. now rewrite Hm.
  - intros m Hm. unfold resolve_template_path. now rewrite Hm.
Qed.

Lemma C7_witness :
  resolve_inline_path Demo.hostile (L "/locked/site.css") Demo.index_html
  = Ret None.
Proof.
  apply (proj1 (proj2 (C7_path_resolver_catches_os_errors_only
                         Demo.hostile (L "/locked/site.css")
                         Demo.index_html))).
  right. right. right.
  exists (parse (L "/locked/site.css")). split; reflexivity.
Defined.

Example resolve_inline_path_found :
  resolve_inline_path (Demo.site) (L "../css/site.css")
                      Demo.index_html
  = Ret (Some (parse (L "/site/src/css/site.css"))).
Proof. vm_compute. reflexivity. Qed.

Example resolve_inline_path_missing :
  resolve_inline_path (Demo.site) (L "../css/none.css")
                      Demo.index_html
  = Ret None.
Proof. vm_compute. reflexivity. Qed.

(** In the same way a template reference that cannot be normalised ends
    the call with the error. *)
Example resolve_template_path_raises :
  resolve_template_path Demo.hostile
    (L "<%@ a" ++ zero :: L ".html %>") Demo.index_html
  = Raise OtherException.
Proof. vm_compute. reflexivity. Qed.

(* ================================================================= *)
(** * C4: a failing minifier *)

Lemma render_res_app (f : mobj -> res str) (ps qs : list piece) :
  render_res f (ps ++ qs)
  = match render_res f ps with
    | Ret a =>
        match render_res f qs with
        | Ret b => Ret (a ++ b)
        | Raise e => Raise e
        end
    | Raise e => Raise e
    end.
Proof.
  induction ps as [|[c|m] ps IH]; simpl.
  - now destruct (render_res f qs).
  - rewrite IH. destruct (render_res f ps); [|reflexivity].
    now destruct (render_res f qs).
  - destruct (f m) as [x|e]; [|reflexivity].
    rewrite IH. destruct (render_res f ps); [|reflexivity].
    destruct (render_res f qs); [|reflexivity].
    now rewrite app_assoc.
Qed.

(** C4. Take a link or script tag whose reference is local, resolves and
    reads as non-empty text.  When the CSS minifier fails on that text,
    [css_repl] answers the unminified text inside a style element and
    [inline_css] goes on and returns (given that the other tags of the
    document are rewritten without an exception).  When the JS minifier
    fails on it, [js_repl] raises the minifier's exception, and so does
    [inline_js]: there is no fallback. *)
Theorem C4_css_failure_falls_back_js_failure_propagates
        (W : World) (file_path : path) (m : mobj) (asset : path)
        (content : str) (e : exn) :
  is_external (strip (group 1 m)) = false ->
  resolve_inline_path W (strip (group 1 m)) file_path = Ret (Some asset) ->
  load_file_content W asset = Ret (Some content) ->
  content <> [] ->
  is_Exception e = true ->
  (css_compress W content = Raise e ->
   css_repl W file_path m = Ret (L "<style>" ++ content ++ L "</style>")
   /\ forall doc ps qs o1 o2,
       scan re_link doc = ps ++ Hit m :: qs ->
       render_res (css_repl W file_path) ps = Ret o1 ->
       render_res (css_repl W file_path) qs = Ret o2 ->
       inline_css W doc file_path
       = Ret (o1 ++ (L "<style>" ++ content ++ L "</style>") ++ o2))
  /\
  (jsmin W content = Raise e ->
   js_repl W file_path m = Raise e
   /\ forall doc ps qs o1,
       scan re_script doc = ps ++ Hit m :: qs ->
       render_res (js_repl W file_path) ps = Ret o1 ->
       inline_js W doc file_path = Raise e).
Proof.
  intros Hloc Hres Hload Hne He.
  assert (Hcss : css_compress W content = Raise e ->
                 css_repl W file_path m
                 = Ret (L "<style>" ++ content ++ L "</style>")).
  { intros Hmin. unfold css_repl. rewrite Hloc, Hres. cbn [bind].
    rewrite Hload. cbn [bind].
    destruct content as [|c content]; [congruence|].
    unfold try_except. rewrite Hmin. cbn [bind]. now rewrite He. }
  assert (Hjs : jsmin W content = Raise e ->
                js_repl W file_path m = Raise e).
  { intros Hmin. unfold js_repl. rewrite Hloc, Hres. cbn [bind].
    rewrite Hload. cbn [bind].
    destruct content as [|c content]; [congruence|].
    now rewrite Hmin. }
  split; intros Hmin; (split; [auto|]).
  - intros doc ps qs o1 o2 Hscan H1 H2.
    unfold inline_css, sub_res. rewrite Hscan, render_res_app, H1.
    cbn [render_res]. now rewrite (Hcss Hmin), H2.
  - intros doc ps qs o1 Hscan H1.
    unfold inline_js, sub_res. rewrite Hscan, render_res_app, H1.
    cbn [render_res]. now rewrite (Hjs Hmin).
Qed.

Lemma C4_witness :
  (css_compress Demo.failing (L "body { margin: 0 }") = Raise OtherException ->
   css_repl Demo.failing Demo.index_html Demo.css_link
   = Ret (L "<style>" ++ L "body { margin: 0 }" ++ L "</style>")
   /\ forall doc ps qs o1 o2,
       scan re_link doc = ps ++ Hit Demo.css_link :: qs ->
       render_res (css_repl Demo.failing Demo.index_html) ps = Ret o1 ->
       render_res (css_repl Demo.failing Demo.index_html) qs = Ret o2 ->
       inline_css Demo.failing doc Demo.index_html
       = Ret (o1 ++ (L "<style>" ++ L "body { margin: 0 }" ++ L "</style>")
                ++ o2))
  /\
  (jsmin Demo.failing (L "body { margin: 0 }") = Raise OtherException ->
   js_repl Demo.failing Demo.index_html Demo.css_link = Raise OtherException
   /\ forall doc ps qs o1,
       scan re_script doc = ps ++ Hit Demo.css_link :: qs ->
       render_res (js_repl Demo.failing Demo.index_html) ps = Ret o1 ->
       inline_js Demo.failing doc Demo.index_html = Raise OtherException).
Proof.
  apply (C4_css_failure_falls_back_js_failure_propagates
           Demo.failing Demo.index_html Demo.css_link
           (parse (L "/site/src/css/site.css"))
           (L "body { margin: 0 }") OtherException).
  - vm_compute. reflexivity.
  - vm_compute. reflexivity.
  - vm_compute. reflexivity.
  - discriminate.
  - reflexivity.
Defined.

Example inline_css_survives_failing_minifier :
  inline_css (Demo.failing)
             (L "<head><link rel='stylesheet' href='../css/site.css'></head>")
             Demo.index_html
  = Ret (L "<head><style>body { margin: 0 }</style></head>").
Proof. vm_compute. reflexivity. Qed.

Example inline_js_raises_on_failing_minifier :
  inline_js (Demo.failing)
            (L "<body><script src='../js/app.js'></script></body>")
            Demo.index_html
  = Raise OtherException.
Proof. vm_compute. reflexivity. Qed.

(** With both minifiers failing the build ends in the JS minifier's
    exception. *)
Example build_ends_in_js_minifier_exception :
  build_project Demo.failing (L "/site/src") (L "/site/dist") true
  = Some (Raise OtherException).
Proof. vm_compute. reflexivity. Qed.

(* ================================================================= *)
(** * C6: external references *)

(** C6. A link or script tag whose reference, stripped, starts with
    [http] (so also [https]) or [//] is answered by both callbacks with
    the very text that was matched; in the output of [inline_css] and
    [inline_js] that text stands, unchanged, between the rewritten text
    before the tag and the rewritten text after it; a document whose
    references are all external comes back as it went in. *)
Theorem C6_external_reference_left_unchanged
        (W : World) (content : str) (file_path : path) (m : mobj) :
  is_external (strip (group 1 m)) = true ->
  css_repl W file_path m = Ret (m_text m)
  /\ js_repl W file_path m = Ret (m_text m)
  /\ (forall ps qs out,
         scan re_link content = ps ++ Hit m :: qs ->
         inline_css W content file_path = Ret out ->
         exists o1 o2,
           render_res (css_repl W file_path) ps = Ret o1 /\
           render_res (css_repl W file_path) qs = Ret o2 /\
           out = o1 ++ m_text m ++ o2 /\
           content = render m_text ps ++ m_text m ++ render m_text qs)
  /\ (forall ps qs out,
         scan re_script content = ps ++ Hit m :: qs ->
         inline_js W content file_path = Ret out ->
         exists o1 o2,
           render_res (js_repl W file_path) ps = Ret o1 /\
           render_res (js_repl W file_path) qs = Ret o2 /\
           out = o1 ++ m_text m ++ o2 /\
           content = render m_text ps ++ m_text m ++ render m_text qs)
  /\ ((forall m', In m' (finditer re_link content) ->
                  is_external (strip (group 1 m')) = true) ->
      inline_css W content file_path = Ret content)
  /\ ((forall m', In m' (finditer re_script content) ->
                  is_external (strip (group 1 m')) = true) ->
      inline_js W content file_path = Ret content).
Proof.
  intros Hext.
  assert (Hc : forall m', is_external (strip (group 1 m')) = true ->
                          css_repl W file_path m' = Ret (m_text m')).
  { intros m' H. unfold css_repl. now rewrite H. }
  assert (Hj : forall m', is_external (strip (group 1 m')) = true ->
                          js_repl W file_path m' = Ret (m_text m')).
  { intros m' H. unfold js_repl. now rewrite H. }
  split; [auto|]. split; [auto|].
  split; [|split; [|split]].
  - intros ps qs out Hscan Hout.
    unfold inline_css, sub_res in Hout. rewrite Hscan in Hout.
    destruct (render_res_split _ _ _ _ _ Hout)
      as (o1 & x & o2 & H1 & Hx & H2 & ->).
    rewrite (Hc m Hext) in Hx. inversion Hx; subst x.
    exists o1, o2. repeat split; auto.
    rewrite <- (scan_text re_link content) at 1.
    rewrite Hscan, render_app. reflexivity.
  - intros ps qs out Hscan Hout.
    unfold inline_js, sub_res in Hout. rewrite Hscan in Hout.
    destruct (render_res_split _ _ _ _ _ Hout)
      as (o1 & x & o2 & H1 & Hx & H2 & ->).
    rewrite (Hj m Hext) in Hx. inversion Hx; subst x.
    exists o1, o2. repeat split; auto.
    rewrite <- (scan_text re_script content) at 1.
    rewrite Hscan, render_app. reflexivity.
  - intros Hall. apply sub_res_same. intros m' Hm'. auto.
  - intros Hall. apply sub_res_same. intros m' Hm'. auto.
Qed.

Lemma C6_witness :
  css_repl Demo.site Demo.index_html Demo.external_link
  = Ret (m_text Demo.external_link)
  /\ js_repl Demo.site Demo.index_html Demo.external_link
     = Ret (m_text Demo.external_link)
  /\ (forall ps qs out,
         scan re_link Demo.external_doc = ps ++ Hit Demo.external_link :: qs ->
         inline_css Demo.site Demo.external_doc Demo.index_html = Ret out ->
         exists o1 o2,
           render_res (css_repl Demo.site Demo.index_html) ps = Ret o1 /\
           render_res (css_repl Demo.site Demo.index_html) qs = Ret o2 /\
           out = o1 ++ m_text Demo.external_link ++ o2 /\
           Demo.external_doc
           = render m_text ps ++ m_text Demo.external_link
               ++ render m_text qs)
  /\ (forall ps qs out,
         scan re_script Demo.external_doc
         = ps ++ Hit Demo.external_link :: qs ->
         inline_js Demo.site Demo.external_doc Demo.index_html = Ret out ->
         exists o1 o2,
           render_res (js_repl Demo.site Demo.index_html) ps = Ret o1 /\
           render_res (js_repl Demo.site Demo.index_html) qs = Ret o2 /\
           out = o1 ++ m_text Demo.external_link ++ o2 /\
           Demo.external_doc
           = render m_text ps ++ m_text Demo.external_link
               ++ render m_text qs)
  /\ ((forall m', In m' (finditer re_link Demo.external_doc) ->
                  is_external (strip (group 1 m')) = true) ->
      inline_css Demo.site Demo.external_doc Demo.index_html
      = Ret Demo.external_doc)
  /\ ((forall m', In m' (finditer re_script Demo.external_doc) ->
                  is_external (strip (group 1 m')) = true) ->
      inline_js Demo.site Demo.external_doc Demo.index_html
      = Ret Demo.external_doc).
Proof.
  apply (C6_external_reference_left_unchanged
           Demo.site Demo.external_doc Demo.index_html Demo.external_link).
  vm_compute. reflexivity.
Defined.

Example external_tags_survive_next_to_a_local_one :
  inline_css (Demo.site)
    (L "<link rel='stylesheet' href='https://example.com/a.css'><link href='../css/site.css' rel='stylesheet'><link rel='stylesheet' href=' //cdn.example.com/b.css'>")
    Demo.index_html
  = Ret (L "<link rel='stylesheet' href='https://example.com/a.css'><style>body { margin: 0 }</style><link rel='stylesheet' href=' //cdn.example.com/b.css'>").
Proof. vm_compute. reflexivity. Qed.

Example external_script_survives :
  inline_js (Demo.site)
    (L "<script src='//cdn.example.com/x.js'></script><script src='../js/app.js'></script>")
    Demo.index_html
  = Ret (L "<script src='//cdn.example.com/x.js'></script><script>let x = 1;</script>").
Proof. vm_compute. reflexivity. Qed.

(* ================================================================= *)
(** * C8: include resolution on text without markup *)

Lemma prefix_by_lit_false (l s : str) :
  prefix_by (lit_eqb false) l s = startswith s l.
Proof. reflexivity. Qed.

Lemma run_lit (l s : str) (c : caps) (k : str -> caps -> option hit) :
  run (Lit false l) s c k
  = if startswith s l then k (skipn (length l) s) c else None.
Proof. cbn [run]. now rewrite prefix_by_lit_false. Qed.

Lemma run_cat_lit_fail (l : str) (r : re) (s : str) (c : caps)
      (k : str -> caps -> option hit) :
  startswith s l = false -> run (Cat (Lit false l) r) s c k = None.
Proof. intros H. cbn [run]. now rewrite prefix_by_lit_false, H. Qed.

Lemma match_here_none (r : re) (s : str) :
  run r s [] (fun s' c => Some (s', c)) = None -> match_here r s = None.
Proof. unfold match_here. now intros ->. Qed.

(** Where no suffix of the text can open a match there is no match. *)
Lemma scan_go_no_hits (r : re) (ok : str -> bool) :
  (forall s, ok s = true -> match_here r s = None) ->
  forall s skip, all_suffixes ok s = true -> hits (scan_go r skip s) = [].
Proof.
  intros Hok. induction s as [|c s IH]; intros skip Hs; simpl in *.
  - destruct skip; [|reflexivity].
    apply andb_true_iff in Hs as [Hs _]. now rewrite (Hok _ Hs).
  - apply andb_true_iff in Hs as [Hc Hs].
    destruct skip as [|n]; [|now apply IH].
    rewrite (Hok _ Hc). simpl. now apply IH.
Qed.

Lemma all_suffixes_and (f g : str -> bool) (s : str) :
  all_suffixes (fun t => f t && g t) s
  = all_suffixes f s && all_suffixes g s.
Proof.
  induction s as [|c s IH]; simpl.
  - now rewrite !andb_true_r.
  - rewrite IH.
    destruct (f (c :: s)), (g (c :: s)), (all_suffixes f s); reflexivity.
Qed.

Lemma all_suffixes_not_contains (mk s : str) :
  all_suffixes (fun t => negb (startswith t mk)) s = negb (contains mk s).
Proof.
  induction s as [|c s IH]; simpl.
  - now rewrite andb_true_r, orb_false_r.
  - rewrite IH. now rewrite negb_orb.
Qed.

Lemma no_marker_no_hits (mk : str) (r : re) (s : str) :
  contains mk s = false ->
  hits (scan (Cat (Lit false mk) r) s) = [].
Proof.
  intros H. unfold scan.
  apply (scan_go_no_hits _ (fun t => negb (startswith t mk))).
  - intros t Ht. apply match_here_none, run_cat_lit_fail.
    now apply negb_true_iff.
  - rewrite all_suffixes_not_contains, H. reflexivity.
Qed.

(** A text without the three opening markers has no include directive,
    no data block and no residual marker. *)
Lemma markup_free_no_matches (content : str) :
  markup_free content = true ->
  finditer re_include content = []
  /\ finditer re_data_block content = []
  /\ finditer re_residual content = [].
Proof.
  unfold markup_free. rewrite !andb_true_iff, !negb_true_iff.
  intros [[H1 H2] H3]. unfold finditer. repeat split.
  - now apply no_marker_no_hits.
  - now apply no_marker_no_hits.
  - unfold scan.
    apply (scan_go_no_hits _
             (fun t => negb (startswith t (L "<template:"))
                       && negb (startswith t (L "<%%")))).
    + intros t Ht. apply andb_true_iff in Ht as [Ha Hb].
      apply negb_true_iff in Ha, Hb.
      apply match_here_none. unfold re_residual, lit.
      cbn [run cat fold_right]. now rewrite !prefix_by_lit_false, Ha, Hb.
    + rewrite all_suffixes_and, !all_suffixes_not_contains, H2, H3.
      reflexivity.
Qed.

(** C8. On a text in which the include pattern, the data-block pattern and
    the residual-marker pattern find nothing, the include-resolution stage
    of [process_file] (data blocks, includes, residual markers) returns the
    text unchanged, whatever the file system holds.  Every text without
    the opening markers [<%@], [<template:] and [<%%] is such a text. *)
Theorem C8_include_resolution_is_identity_without_markup
        (W : World) (content : str) (file_path : path) :
  (finditer re_include content = [] ->
   finditer re_data_block content = [] ->
   finditer re_residual content = [] ->
   resolve_includes W content file_path = Some (Ret content))
  /\ (markup_free content = true ->
      resolve_includes W content file_path = Some (Ret content)).
Proof.
  assert (H : finditer re_include content = [] ->
              finditer re_data_block content = [] ->
              finditer re_residual content = [] ->
              resolve_includes W content file_path = Some (Ret content)).
  { intros Hi Hd Hr. unfold resolve_includes.
    rewrite Hi, Hd. cbn [map extract_data splice_includes].
    now rewrite (sub_no_match _ _ _ Hr). }
  split; [exact H|].
  intros Hfree.
  destruct (markup_free_no_matches content Hfree) as (H1 & H2 & H3).
  now apply H.
Qed.

Lemma C8_witness :
  resolve_includes Demo.site
                   (L "<html><body><p>Hello, world</p></body></html>")
                   Demo.index_html
  = Some (Ret (L "<html><body><p>Hello, world</p></body></html>")).
Proof.
  apply (proj1 (C8_include_resolution_is_identity_without_markup
                  Demo.site
                  (L "<html><body><p>Hello, world</p></body></html>")
                  Demo.index_html));
    vm_compute; reflexivity.
Defined.

(** A placeholder that is never closed is no data block and no residual
    marker: the stage leaves it where it is. *)
Example unclosed_placeholder_is_kept :
  resolve_includes Demo.site (L "<title><template:title></title>")
                   Demo.index_html
  = Some (Ret (L "<title><template:title></title>")).
Proof. vm_compute. reflexivity. Qed.

(* ================================================================= *)
(** * C10: the dev server's path mapping *)

(** C10. [translate_path] is the function of its request path that takes
    the path component of the URL (no query, no fragment), strips the
    leading slashes and joins the rest onto the output directory; [..]
    segments are kept as they come, and there is no containment check.
    For every output directory the request [/../secret.txt?x=1] is mapped
    to the output directory followed by [..] and [secret.txt]; with the
    output directory [dist] that is [dist/../secret.txt], the file
    [secret.txt] next to the output tree, not in it. *)
Theorem C10_translate_path_joins_without_containment
        (dist_dir request p : str) :
  Url.urlparse_path request = Some p ->
  translate_path dist_dir request
  = Some (path_str (join (parse dist_dir) (parse (lstrip_chr slash p))))
  /\ translate_path dist_dir (L "/../secret.txt?x=1")
     = Some (path_str (MkPath (p_anchor (parse dist_dir))
                              (p_parts (parse dist_dir)
                                 ++ [L ".."; L "secret.txt"])))
  /\ (exists escaping out,
         contains (L "..") escaping = true
         /\ translate_path (L "dist") escaping = Some out
         /\ out = L "dist/../secret.txt"
         /\ normpath (parse out) = parse (L "secret.txt")
         /\ is_under (normpath (parse out)) (normpath (parse (L "dist")))
            = false).
Proof.
  intros H. split; [|split].
  - unfold translate_path. now rewrite H.
  - unfold translate_path.
    change (Url.urlparse_path (L "/../secret.txt?x=1"))
      with (Some (L "/../secret.txt")).
    change (parse (lstrip_chr slash (L "/../secret.txt")))
      with (MkPath Relative [L ".."; L "secret.txt"]).
    reflexivity.
  - exists (L "/../secret.txt?x=1"), (L "dist/../secret.txt").
    repeat split; vm_compute; reflexivity.
Qed.

Lemma C10_witness :
  translate_path (L "dist") (L "/css/site.css?v=3#top")
  = Some (path_str (join (parse (L "dist"))
                         (parse (lstrip_chr slash (L "/css/site.css")))))
  /\ translate_path (L "dist") (L "/../secret.txt?x=1")
     = Some (path_str (MkPath (p_anchor (parse (L "dist")))
                              (p_parts (parse (L "dist"))
                                 ++ [L ".."; L "secret.txt"])))
  /\ (exists escaping out,
         contains (L "..") escaping = true
         /\ translate_path (L "dist") escaping = Some out
         /\ out = L "dist/../secret.txt"
         /\ normpath (parse out) = parse (L "secret.txt")
         /\ is_under (normpath (parse out)) (normpath (parse (L "dist")))
            = false).
Proof.
  apply (C10_translate_path_joins_without_containment
           (L "dist") (L "/css/site.css?v=3#top") (L "/css/site.css")).
  vm_compute. reflexivity.
Defined.

Example translate_path_plain :
  translate_path (L "dist") (L "/css/site.css?v=3#top")
  = Some (L "dist/css/site.css").
Proof. vm_compute. reflexivity. Qed.

Example translate_path_absolute_output_dir :
  translate_path (L "/var/www/dist") (L "//../../../../etc/passwd")
  = Some (L "/var/www/dist/../../../etc/passwd").
Proof. vm_compute. reflexivity. Qed.

(* ================================================================= *)
(** * C1: where a page is written *)

Lemma anchor_eqb_refl (a : anchor) : anchor_eqb a a = true.
Proof. now destruct a. Qed.

Lemma strip_parts_app (pre rest : list str) :
  strip_parts pre (pre ++ rest) = Some rest.
Proof.
  induction pre as [|x pre IH]; simpl; [reflexivity|].
  now rewrite str_eqb_refl.
Qed.

(** [process_file] keeps the last directory and the file name of the
    source path, whatever lies between [pages] and that directory. *)
Lemma output_path_of_last_two (a : anchor) (dirs : list str) (d f : str)
      (output_dir : path) :
  output_path_of (MkPath a (dirs ++ [d; f])) output_dir
  = Ret (MkPath (p_anchor output_dir) (p_parts output_dir ++ [d; f])).
Proof.
  unfold output_path_of, parents. cbn [p_parts p_anchor].
  rewrite length_app. cbn [length].
  replace (1 <? length dirs + 2) with true
    by (symmetry; apply Nat.ltb_lt; lia).
  replace (length dirs + 2 - 2) with (length dirs) by lia.
  rewrite firstn_app_exact.
  unfold relative_to. cbn [p_parts p_anchor].
  rewrite anchor_eqb_refl, strip_parts_app.
  reflexivity.
Qed.

(** C1 fails on the code.  A page two directories below [pages],
    [src/pages/a/b/c.html], is written to [dist/b/c.html]: the directory
    [a] is lost, where the output tree should mirror the [pages] subtree
    ([dist/a/b/c.html]).  The page directly under [pages] lands at the
    output root as claimed.  In general the output path is the output
    directory, the last directory of the source path and the file name. *)
Theorem C1_nested_page_loses_its_upper_directories :
  output_path_of (parse (L "/site/src/pages/a/b/c.html"))
                 (parse (L "/site/dist"))
  = Ret (parse (L "/site/dist/b/c.html"))
  /\ parse (L "/site/dist/b/c.html") <> parse (L "/site/dist/a/b/c.html")
  /\ build_project (Demo.site)
                   (L "/site/src") (L "/site/dist") false
     = Some (Ret [ (parse (L "/site/dist/index.html"),
                    L "<title>Hi</title><style>body { margin: 0 }</style><script>let x = 1;</script>");
                   (parse (L "/site/dist/b/c.html"), L "<p>deep</p>") ])
  /\ (forall (a : anchor) (dirs : list str) (d f : str) (output_dir : path),
         output_path_of (MkPath a (dirs ++ [d; f])) output_dir
         = Ret (MkPath (p_anchor output_dir)
                       (p_parts output_dir ++ [d; f]))).
Proof.
  split; [|split; [|split]].
  - vm_compute. reflexivity.
  - vm_compute. discriminate.
  - vm_compute. reflexivity.
  - apply output_path_of_last_two.
Qed.

(** Two pages in different directories of the same name are written to
    one output path. *)
Example nested_pages_collide :
  output_path_of (parse (L "src/pages/docs/api/index.html"))
                 (parse (L "dist"))
  = output_path_of (parse (L "src/pages/blog/api/index.html"))
                   (parse (L "dist")).
Proof. vm_compute. reflexivity. Qed.

(* ================================================================= *)
(** * C5: the reload channel *)

Lemma on_any_event_sends_nothing (e : fs_event) :
  filter is_send (on_any_event e) = [].
Proof.
  unfold on_any_event.
  now destruct (is_directory e || endswith (src_path e) (L ".config.json")).
Qed.

(** The reload thread sends exactly when [recv] hands it data. *)
Lemma ws_step_sends (st : ws_state) (ev : sock_event) :
  filter is_send (snd (ws_step st ev)) <> [] <->
  st = Serving /\ exists c data, ev = Received (c :: data).
Proof.
  split.
  - destruct st, ev as [|[|c data]|e]; simpl; intros H;
      try (exfalso; now apply H).
    split; [reflexivity|]. now exists c, data.
  - intros [-> (c & data & ->)]. simpl. discriminate.
Qed.

(** C5 fails on the code.  With a connection open on the reload channel, a
    change of [src/pages/index.html] runs the unminified rebuild and sends
    nothing: for every state of the channel and every watchdog event the
    watcher's handler produces no send.  What is sent, the payload
    [reload], answers data received from the client on the one connection
    being served. *)
Theorem C5_rebuild_does_not_notify :
  session Listening
          [ Socket Accepted;
            Changed (MkEvent false (L "src/pages/index.html")) ]
  = (Serving, [Rebuild false])
  /\ (forall st e,
         filter is_send (snd (session_step st (Changed e))) = []
         /\ fst (session_step st (Changed e)) = st)
  /\ session Listening
             [ Socket Accepted; Socket (Received (L "GET / HTTP/1.1")) ]
     = (Serving, [Send (L "reload")])
  /\ session Listening
             [ Socket Accepted; Socket (RecvRaised OtherOSError);
               Socket Accepted;
               Changed (MkEvent false (L "src/pages/index.html")) ]
     = (Ended, [CloseConn; Rebuild false]).
Proof.
  split; [reflexivity|]. split; [|split; reflexivity].
  intros st e. simpl. split; [apply on_any_event_sends_nothing|reflexivity].
Qed.

(* ================================================================= *)
(** * The matcher on texts given by their parts *)

Section MatcherFacts.

Lemma run_lit_app (l s : str) (c : caps) (k : str -> caps -> option hit) :
  run (Lit false l) (l ++ s) c k = k s c.
Proof. now rewrite run_lit, startswith_app, skipn_app_exact. Qed.

Lemma consumed_app (a s : str) :
  firstn (length (a ++ s) - length s) (a ++ s) = a.
Proof.
  rewrite length_app.
  replace (length a + length s - length s) with (length a) by lia.
  apply firstn_app_exact.
Qed.

(** A greedy run takes all of [a] when it cannot go on and the rest of
    the pattern matches behind it. *)
Lemma star_greedy_run (p : cset) (a s : str) (k : str -> option hit)
      (h : hit) :
  forallb p a = true -> stops p s = true -> k s = Some h ->
  star true p (a ++ s) k = Some h.
Proof.
  intros Ha Hs Hk. induction a as [|x a IH]; simpl in *.
  - destruct s as [|y s]; simpl in *.
    + exact Hk.
    + apply negb_true_iff in Hs. now rewrite Hs.
  - apply andb_true_iff in Ha as [Hx Ha]. rewrite Hx.
    now rewrite (IH Ha).
Qed.

Lemma rep_greedy_run (p : cset) (n : nat) (a s : str)
      (k : str -> option hit) (h : hit) :
  forallb p a = true -> n <= length a -> stops p s = true ->
  k s = Some h ->
  rep true n p (a ++ s) k = Some h.
Proof.
  intros Ha Hn Hs Hk. revert a Ha Hn.
  induction n as [|n IH]; intros a Ha Hn.
  - cbn [rep]. now apply star_greedy_run.
  - destruct a as [|x a]; simpl in Hn; [lia|].
    simpl in Ha. apply andb_true_iff in Ha as [Hx Ha].
    cbn [rep app]. rewrite Hx. apply IH; [exact Ha | lia].
Qed.

(** A lazy run passes over [a] when the rest of the pattern fails on
    every text that starts with a character of [a], and stops where it
    first matches. *)
Lemma star_lazy_run (p : cset) (a s : str) (k : str -> option hit)
      (h : hit) :
  forallb p a = true ->
  (forall c t, In c a -> k (c :: t) = None) ->
  k s = Some h ->
  star false p (a ++ s) k = Some h.
Proof.
  intros Ha Hfail Hk. induction a as [|x a IH]; simpl in *.
  - destruct s; simpl; now rewrite Hk.
  - apply andb_true_iff in Ha as [Hx Ha].
    rewrite (Hfail x (a ++ s)) by now left.
    rewrite Hx. apply IH; [exact Ha|].
    intros c t Hc. apply Hfail. now right.
Qed.

Lemma match_here_intro (r : re) (M rest : str) (c : caps) :
  run r (M ++ rest) [] (fun s' c' => Some (s', c')) = Some (rest, c) ->
  match_here r (M ++ rest) = Some (MkMatch M c).
Proof.
  intros H. unfold match_here. rewrite H. now rewrite consumed_app.
Qed.

Lemma scan_go_skip (r : re) (a s : str) :
  scan_go r (length a) (a ++ s) = scan_go r 0 s.
Proof.
  induction a as [|x a IH]; simpl; [|exact IH].
  destruct s; reflexivity.
Qed.

(** A match at the head of the text: the scan goes on behind it. *)
Lemma scan_hit_app (r : re) (M rest : str) (m : mobj) :
  M <> [] -> match_here r (M ++ rest) = Some m -> m_text m = M ->
  scan r (M ++ rest) = Hit m :: scan r rest.
Proof.
  intros Hne Hm Ht. unfold scan.
  destruct M as [|x M]; [congruence|].
  cbn [app scan_go]. change (x :: M ++ rest) with ((x :: M) ++ rest).
  rewrite Hm, Ht. cbn [length]. now rewrite scan_go_skip.
Qed.

Lemma scan_keep (r : re) (c : ascii) (s : str) :
  match_here r (c :: s) = None -> scan r (c :: s) = Keep c :: scan r s.
Proof. intros H. unfold scan. cbn [scan_go]. now rewrite H. Qed.

(** No match opens inside a text without the character every match
    starts with. *)
Lemma scan_lacks_app (r : re) (x : ascii) (a s : str) :
  (forall c t, c <> x -> match_here r (c :: t) = None) ->
  lacks x a = true ->
  scan r (a ++ s) = map Keep a ++ scan r s.
Proof.
  intros Hr Ha. induction a as [|c a IH]; [reflexivity|].
  simpl in Ha. apply andb_true_iff in Ha as [Hc Ha].
  apply negb_true_iff, chr_eqb_neq in Hc.
  cbn [app map]. rewrite scan_keep by now apply Hr.
  now rewrite IH.
Qed.

Lemma render_keep (f : mobj -> str) (a : str) (ps : list piece) :
  render f (map Keep a ++ ps) = a ++ render f ps.
Proof. induction a as [|c a IH]; simpl; [reflexivity | now rewrite IH]. Qed.

Lemma forallb_any (s : str) : forallb any s = true.
Proof. now induction s. Qed.

Lemma lacks_In (x : ascii) (s : str) (c : ascii) :
  lacks x s = true -> In c s -> c <> x.
Proof.
  unfold lacks. rewrite forallb_forall. intros H Hc.
  apply H in Hc. now apply negb_true_iff, chr_eqb_neq in Hc.
Qed.

End MatcherFacts.

(* ================================================================= *)
(** * C9: embedded script blocks *)

Lemma run_cat (a b : re) (s : str) (c : caps) (k : str -> caps -> option hit) :
  run (Cat a b) s c k = run a s c (fun s' c' => run b s' c' k).
Proof. reflexivity. Qed.

Lemma run_grp (n : nat) (a : re) (s : str) (c : caps)
      (k : str -> caps -> option hit) :
  run (Grp n a) s c k
  = run a s c (fun s' c' => k s' ((n, firstn (length s - length s') s) :: c')).
Proof. reflexivity. Qed.

Lemma run_rep (g : bool) (n : nat) (p : cset) (s : str) (c : caps)
      (k : str -> caps -> option hit) :
  run (Rep g n p) s c k = rep g n p s (fun s' => k s' c).
Proof. reflexivity. Qed.

Lemma startswith_head_neq (c x : ascii) (t l : str) :
  c <> x -> startswith (c :: t) (x :: l) = false.
Proof.
  intros H. unfold startswith. simpl.
  assert (chr_eqb x c = false) as -> by (apply chr_eqb_neq; congruence).
  reflexivity.
Qed.

Lemma js_block_run (tag attrs body rest : str) :
  tag <> [] -> forallb letter tag = true ->
  forallb not_gt attrs = true -> stops letter (attrs ++ L ">") = true ->
  lacks "%"%char body = true ->
  run re_js_block
      (L "<" ++ tag ++ attrs ++ L ">%%" ++ body ++ L "%%</" ++ tag
         ++ L ">" ++ rest) []
      (fun s' c' => Some (s', c'))
  = Some (rest, [(2, body); (1, tag)]).
Proof.
  intros Hne Htag Hattrs Hstop Hbody.
  unfold re_js_block, lit. cbn [cat fold_right].
  rewrite run_cat, run_lit_app.
  rewrite run_cat, run_grp, run_rep.
  apply rep_greedy_run; [exact Htag | destruct tag; [congruence|simpl; lia] | |].
  - destruct attrs; [reflexivity|exact Hstop].
  - rewrite consumed_app.
    rewrite run_cat, run_rep. cbn [rep].
    apply star_greedy_run; [exact Hattrs | reflexivity |].
    rewrite run_cat, run_lit_app.
    rewrite run_cat, run_grp, run_rep. cbn [rep].
    apply star_lazy_run; [apply forallb_any | |].
    + intros c t Hc.
      pose proof (lacks_In _ _ _ Hbody Hc) as Hne'.
      rewrite run_cat, run_lit.
      change (L "%%</") with ("%"%char :: L "%</").
      now rewrite startswith_head_neq.
    + rewrite consumed_app.
      rewrite run_cat, run_lit_app.
      rewrite run_cat. cbn [run group_of Nat.eqb].
      rewrite startswith_app, skipn_app_exact.
      reflexivity.
Qed.

Lemma js_block_scan (tag attrs body : str) :
  tag <> [] -> forallb letter tag = true ->
  forallb not_gt attrs = true -> stops letter (attrs ++ L ">") = true ->
  lacks "%"%char body = true ->
  scan re_js_block
       (L "<" ++ tag ++ attrs ++ L ">%%" ++ body ++ L "%%</" ++ tag ++ L ">")
  = [Hit (MkMatch
            (L "<" ++ tag ++ attrs ++ L ">%%" ++ body ++ L "%%</" ++ tag
               ++ L ">")
            [(2, body); (1, tag)])].
Proof.
  intros Hne Htag Hattrs Hstop Hbody.
  pose proof (js_block_run tag attrs body [] Hne Htag Hattrs Hstop Hbody)
    as Hrun.
  set (M := L "<" ++ tag ++ attrs ++ L ">%%" ++ body ++ L "%%</" ++ tag
              ++ L ">").
  assert (HM : L "<" ++ tag ++ attrs ++ L ">%%" ++ body ++ L "%%</" ++ tag
                 ++ L ">" ++ [] = M ++ []).
  { unfold M. now rewrite !app_nil_r. }
  rewrite HM in Hrun. apply match_here_intro in Hrun.
  assert (HneM : M <> []) by (unfold M; simpl; discriminate).
  rewrite <- (app_nil_r M) at 1.
  rewrite (scan_hit_app _ _ _ _ HneM Hrun eq_refl).
  reflexivity.
Qed.


(** C9. For every match of the script-block pattern, [replace_js_block]
    writes the opening tag from the tag name and the fresh identifier
    alone: the tag name, then the one attribute [data-wyttle-ref].  On a
    block [<TAG attrs>%%js%%</TAG>] the whole output of [process_js_blocks]
    is that opening tag, the script element and the closing tag: the text
    [attrs] of the host tag is not part of it, and blocks that differ in
    their attributes only are rewritten to the same text. *)
Theorem C9_host_attributes_are_dropped
        (W : World) (n : nat) (tag attrs body js : str) :
  tag <> [] -> forallb letter tag = true ->
  forallb not_gt attrs = true -> stops letter (attrs ++ L ">") = true ->
  lacks "%"%char body = true ->
  jsmin W (strip body) = Ret js ->
  (forall m, group 1 m = tag -> group 2 m = body ->
             replace_js_block W n m
             = Ret (L "<" ++ tag ++ L " data-wyttle-ref=" ++ dquote
                      :: uuid4 W n ++ dquote :: L ">"
                      ++ (L "<script>document.querySelector(" ++ dquote
                            :: L "[data-wyttle-ref=\" ++ dquote :: uuid4 W n
                            ++ L "\" ++ dquote :: L "]" ++ dquote
                            :: L ").textContent = " ++ js ++ L ";</script>")
                      ++ L "</" ++ tag ++ L ">"))
  /\ process_js_blocks W n
       (L "<" ++ tag ++ attrs ++ L ">%%" ++ body ++ L "%%</" ++ tag ++ L ">")
     = Ret (L "<" ++ tag ++ L " data-wyttle-ref=" ++ dquote
              :: uuid4 W n ++ dquote :: L ">"
              ++ (L "<script>document.querySelector(" ++ dquote
                    :: L "[data-wyttle-ref=\" ++ dquote :: uuid4 W n
                    ++ L "\" ++ dquote :: L "]" ++ dquote
                    :: L ").textContent = " ++ js ++ L ";</script>")
              ++ L "</" ++ tag ++ L ">")
  /\ process_js_blocks W n
       (L "<" ++ tag ++ attrs ++ L ">%%" ++ body ++ L "%%</" ++ tag ++ L ">")
     = process_js_blocks W n
         (L "<" ++ tag ++ L ">%%" ++ body ++ L "%%</" ++ tag ++ L ">").
Proof.
  intros Hne Htag Hattrs Hstop Hbody Hjs.
  assert (Hcb : forall m, group 1 m = tag -> group 2 m = body ->
             replace_js_block W n m
             = Ret (L "<" ++ tag ++ L " data-wyttle-ref=" ++ dquote
                      :: uuid4 W n ++ dquote :: L ">"
                      ++ (L "<script>document.querySelector(" ++ dquote
                            :: L "[data-wyttle-ref=\" ++ dquote :: uuid4 W n
                            ++ L "\" ++ dquote :: L "]" ++ dquote
                            :: L ").textContent = " ++ js ++ L ";</script>")
                      ++ L "</" ++ tag ++ L ">")).
  { intros m H1 H2. unfold replace_js_block. rewrite H1, H2, Hjs.
    reflexivity. }
  assert (Hdoc : forall attrs',
             forallb not_gt attrs' = true ->
             stops letter (attrs' ++ L ">") = true ->
             process_js_blocks W n
               (L "<" ++ tag ++ attrs' ++ L ">%%" ++ body ++ L "%%</" ++ tag
                  ++ L ">")
             = Ret (L "<" ++ tag ++ L " data-wyttle-ref=" ++ dquote
                      :: uuid4 W n ++ dquote :: L ">"
                      ++ (L "<script>document.querySelector(" ++ dquote
                            :: L "[data-wyttle-ref=\" ++ dquote :: uuid4 W n
                            ++ L "\" ++ dquote :: L "]" ++ dquote
                            :: L ").textContent = " ++ js ++ L ";</script>")
                      ++ L "</" ++ tag ++ L ">")).
  { intros attrs' Ha Hs. unfold process_js_blocks, sub_nth.
    rewrite (js_block_scan tag attrs' body Hne Htag Ha Hs Hbody).
    cbn [render_nth]. rewrite Hcb by reflexivity.
    now rewrite app_nil_r. }
  split; [exact Hcb|]. split.
  - now apply Hdoc.
  - rewrite (Hdoc attrs Hattrs Hstop).
    symmetry. apply (Hdoc [] eq_refl eq_refl).
Qed.

Lemma C9_witness :
  (forall m, group 1 m = L "div" -> group 2 m = L " return 1; " ->
             replace_js_block (Demo.site) 0 m
             = Ret (L "<" ++ L "div" ++ L " data-wyttle-ref=" ++ dquote
                      :: uuid4 (Demo.site) 0 ++ dquote :: L ">"
                      ++ (L "<script>document.querySelector(" ++ dquote
                            :: L "[data-wyttle-ref=\" ++ dquote
                            :: uuid4 (Demo.site) 0
                            ++ L "\" ++ dquote :: L "]" ++ dquote
                            :: L ").textContent = " ++ L "return 1;"
                            ++ L ";</script>")
                      ++ L "</" ++ L "div" ++ L ">"))
  /\ process_js_blocks (Demo.site) 0
       (L "<" ++ L "div" ++ L " class='note' hidden" ++ L ">%%"
          ++ L " return 1; " ++ L "%%</" ++ L "div" ++ L ">")
     = Ret (L "<" ++ L "div" ++ L " data-wyttle-ref=" ++ dquote
              :: uuid4 (Demo.site) 0 ++ dquote :: L ">"
              ++ (L "<script>document.querySelector(" ++ dquote
                    :: L "[data-wyttle-ref=\" ++ dquote
                    :: uuid4 (Demo.site) 0
                    ++ L "\" ++ dquote :: L "]" ++ dquote
                    :: L ").textContent = " ++ L "return 1;"
                    ++ L ";</script>")
              ++ L "</" ++ L "div" ++ L ">")
  /\ process_js_blocks (Demo.site) 0
       (L "<" ++ L "div" ++ L " class='note' hidden" ++ L ">%%"
          ++ L " return 1; " ++ L "%%</" ++ L "div" ++ L ">")
     = process_js_blocks (Demo.site) 0
         (L "<" ++ L "div" ++ L ">%%" ++ L " return 1; " ++ L "%%</"
            ++ L "div" ++ L ">").
Proof.
  apply (C9_host_attributes_are_dropped
           (Demo.site) 0 (L "div") (L " class='note' hidden")
           (L " return 1; ") (L "return 1;")).
  - discriminate.
  - reflexivity.
  - reflexivity.
  - reflexivity.
  - reflexivity.
  - reflexivity.
Defined.

Example js_block_attributes_dropped :
  process_js_blocks (Demo.site) 0
    (L "<div class='note' hidden>%% return 1; %%</div>")
  = Ret (L "<div data-wyttle-ref=" ++ dquote :: L "id0" ++ dquote
           :: L "><script>document.querySelector(" ++ dquote
           :: L "[data-wyttle-ref=\" ++ dquote :: L "id0\" ++ dquote
           :: L "]" ++ dquote
           :: L ").textContent = return 1;;</script></div>").
Proof. vm_compute. reflexivity. Qed.

(* ================================================================= *)
(** * C2: substitution of placeholders *)

Section TemplateFacts.

Lemma alt_fails_on_key_char (y : ascii) (t : str) (c : caps)
      (k : str -> caps -> option hit) :
  y <> ">"%char -> y <> " "%char ->
  run (Cat (Alt (lit ">") (lit " />")) (Lit false [])) (y :: t) c k = None.
Proof.
  intros H1 H2. unfold lit. rewrite run_cat. cbn [run].
  change (prefix_by (lit_eqb false) (L ">") (y :: t))
    with (startswith (y :: t) (">"%char :: [])).
  change (prefix_by (lit_eqb false) (L " />") (y :: t))
    with (startswith (y :: t) (" "%char :: L "/>")).
  now rewrite !startswith_head_neq.
Qed.

(** The placeholder pattern of one key does not match the placeholder
    of another. *)
Lemma key_mismatch (k1 : str) :
  forall (k2 rest : str) (c : caps) (k : str -> caps -> option hit),
    k1 <> k2 -> lacks ">"%char k1 = true ->
    lacks ">"%char k2 = true -> lacks " "%char k2 = true ->
    run (Cat (Lit false k1)
             (Cat (Alt (lit ">") (lit " />")) (Lit false [])))
        (k2 ++ L ">" ++ rest) c k = None.
Proof.
  induction k1 as [|x k1 IH]; intros k2 rest c k Hne H1 H2 H3.
  - destruct k2 as [|y k2]; [congruence|].
    rewrite run_cat, run_lit. cbn [startswith prefix_by length skipn app].
    simpl in H2, H3.
    apply andb_true_iff in H2 as [H2 _]. apply andb_true_iff in H3 as [H3 _].
    apply negb_true_iff, chr_eqb_neq in H2, H3.
    now apply alt_fails_on_key_char.
  - simpl in H1. apply andb_true_iff in H1 as [Hx H1].
    apply negb_true_iff, chr_eqb_neq in Hx.
    rewrite run_cat, run_lit.
    destruct k2 as [|y k2].
    + cbn [app]. change (L ">" ++ rest) with (">"%char :: rest).
      now rewrite startswith_head_neq by congruence.
    + simpl in H2, H3.
      apply andb_true_iff in H2 as [_ H2].
      apply andb_true_iff in H3 as [_ H3].
      cbn [app]. unfold startswith. cbn [prefix_by length skipn].
      destruct (chr_eqb x y) eqn:Exy; [|reflexivity].
      apply chr_eqb_eq in Exy. subst y. cbn [andb].
      assert (Hne' : k1 <> k2) by congruence.
      specialize (IH k2 rest c k Hne' H1 H2 H3).
      rewrite run_cat, run_lit in IH. exact IH.
Qed.

Lemma placeholder_needs_lt (key : str) (c : ascii) (t : str) :
  c <> "<"%char -> match_here (re_placeholder key) (c :: t) = None.
Proof.
  intros H. apply match_here_none. unfold re_placeholder, lit.
  cbn [cat fold_right]. rewrite run_cat, run_lit.
  change (L "<template:") with ("<"%char :: L "template:").
  now rewrite startswith_head_neq.
Qed.

Lemma closing_needs_lt (key : str) (c : ascii) (t : str) :
  c <> "<"%char -> match_here (re_closing key) (c :: t) = None.
Proof.
  intros H. apply match_here_none. unfold re_closing, lit.
  cbn [cat fold_right]. rewrite run_cat, run_lit.
  change (L "</template:") with ("<"%char :: L "/template:").
  now rewrite startswith_head_neq.
Qed.

Lemma placeholder_hit (key rest : str) :
  match_here (re_placeholder key) (placeholder key ++ rest)
  = Some (MkMatch (placeholder key) []).
Proof.
  apply match_here_intro. unfold placeholder, re_placeholder, lit.
  cbn [cat fold_right]. rewrite <- !app_assoc.
  rewrite run_cat, run_lit_app, run_cat, run_lit_app, run_cat.
  cbn [run]. reflexivity.
Qed.

Lemma placeholder_other (k1 k2 rest : str) :
  k1 <> k2 -> simple_key k1 = true -> simple_key k2 = true ->
  match_here (re_placeholder k1) (placeholder k2 ++ rest) = None.
Proof.
  unfold simple_key. rewrite !andb_true_iff.
  intros Hne [[[_ _] Hg1] _] [[[_ _] Hg2] Hs2].
  apply match_here_none. unfold placeholder, re_placeholder.
  cbn [cat fold_right]. rewrite <- !app_assoc.
  unfold lit at 1. rewrite run_cat, run_lit_app.
  now apply key_mismatch.
Qed.

Lemma closing_not_placeholder (k1 k2 rest : str) :
  match_here (re_closing k1) (placeholder k2 ++ rest) = None.
Proof.
  apply match_here_none. unfold placeholder, re_closing, lit.
  cbn [cat fold_right]. rewrite run_cat, run_lit. reflexivity.
Qed.

Lemma lacks_placeholder_tail (key : str) :
  simple_key key = true ->
  lacks "<"%char (L "template:" ++ key ++ L ">") = true.
Proof.
  unfold simple_key. rewrite !andb_true_iff. intros [[[_ Hk] _] _].
  rewrite !lacks_app, Hk. reflexivity.
Qed.

(** A pattern that starts in [t] and ends in [rest]. *)
Lemma startswith_straddle (pat : str) :
  forall t rest,
    startswith (t ++ rest) pat = true ->
    startswith t pat = true
    \/ exists p2, p2 <> [] /\ pat = t ++ p2 /\ startswith rest p2 = true.
Proof.
  unfold startswith.
  induction pat as [|x pat IH]; intros t rest H.
  - now left.
  - destruct t as [|c t].
    + right. exists (x :: pat). repeat split; [discriminate | exact H].
    + cbn [app prefix_by] in *.
      apply andb_true_iff in H as [Hx H].
      destruct (IH t rest H) as [Hl|(p2 & Hp2 & Hpat & Hr)].
      * left. now rewrite Hx, Hl.
      * right. exists p2. apply chr_eqb_eq in Hx. subst.
        now repeat split.
Qed.

Lemma contains_cons (pat : str) (c : ascii) (s : str) :
  contains pat (c :: s) = false ->
  startswith (c :: s) pat = false /\ contains pat s = false.
Proof. cbn [contains]. now rewrite orb_false_iff. Qed.

(** A pattern that opens with the literal [<pat'], [pat'] without [<],
    finds nothing in a text [X] that does not hold the literal, also
    when [X] is followed by a tag. *)
Lemma scan_no_opening_app (pat' : str) (r' : re) (X rest : str) :
  lacks "<"%char pat' = true ->
  contains ("<"%char :: pat') X = false ->
  opens_tag rest = true ->
  scan (Cat (Lit false ("<"%char :: pat')) r') (X ++ rest)
  = map Keep X ++ scan (Cat (Lit false ("<"%char :: pat')) r') rest.
Proof.
  intros Hpat HX Hrest. induction X as [|c X IH]; [reflexivity|].
  apply contains_cons in HX as [Hhere HX].
  cbn [app map]. rewrite scan_keep; [now rewrite IH|].
  apply match_here_none, run_cat_lit_fail.
  destruct (startswith (c :: X ++ rest) ("<"%char :: pat')) eqn:E;
    [|reflexivity].
  exfalso.
  destruct (startswith_straddle _ (c :: X) rest E)
    as [Hl|(p2 & Hp2 & Hsplit & Hr)]; [congruence|].
  cbn [app] in Hsplit. inversion Hsplit as [[Hc Hp]]. subst pat'.
  rewrite lacks_app in Hpat. apply andb_true_iff in Hpat as [_ Hp2'].
  destruct p2 as [|y p2]; [congruence|].
  cbn [lacks forallb] in Hp2'. apply andb_true_iff in Hp2' as [Hy _].
  apply negb_true_iff in Hy.
  destruct rest as [|z rest]; [discriminate|].
  unfold startswith in Hr. cbn [prefix_by] in Hr.
  apply andb_true_iff in Hr as [Hyz _]. apply chr_eqb_eq in Hyz. subst z.
  cbn [opens_tag] in Hrest. congruence.
Qed.

Lemma scan_no_opening (pat' : str) (r' : re) (X : str) :
  lacks "<"%char pat' = true ->
  contains ("<"%char :: pat') X = false ->
  scan (Cat (Lit false ("<"%char :: pat')) r') X = map Keep X.
Proof.
  intros Hpat HX. rewrite <- (app_nil_r X) at 1.
  rewrite (scan_no_opening_app pat' r' X [] Hpat HX eq_refl).
  apply app_nil_r.
Qed.

Lemma render_keeps (f : mobj -> str) (a : str) : render f (map Keep a) = a.
Proof.
  rewrite <- (app_nil_r (map Keep a)), render_keep. apply app_nil_r.
Qed.

Lemma no_template_tag_split (s : str) :
  no_template_tag s = true ->
  contains ("<"%char :: L "template:") s = false
  /\ contains ("<"%char :: L "/template:") s = false.
Proof.
  unfold no_template_tag. rewrite andb_true_iff, !negb_true_iff. tauto.
Qed.

Lemma placeholder_pattern_shape (key : str) :
  re_placeholder key
  = Cat (Lit false ("<"%char :: L "template:"))
        (Cat (Lit false key)
             (Cat (Alt (lit ">") (lit " />")) (Lit false []))).
Proof. reflexivity. Qed.

Lemma closing_pattern_shape (key : str) :
  re_closing key
  = Cat (Lit false ("<"%char :: L "/template:"))
        (Cat (Lit false key) (Cat (lit ">") (Lit false []))).
Proof. reflexivity. Qed.

(** One round of [process_template] on a text with one placeholder and
    no other template tag: the placeholder of the round's key is
    replaced by the value ... *)
Lemma sub_placeholder_same (key v X Y : str) :
  no_template_tag X = true -> no_template_tag Y = true ->
  sub (re_placeholder key) (fun _ => v) (X ++ placeholder key ++ Y)
  = X ++ v ++ Y.
Proof.
  intros HX HY.
  apply no_template_tag_split in HX as [HX _].
  apply no_template_tag_split in HY as [HY _].
  assert (Hne : placeholder key <> [])
    by (unfold placeholder; simpl; discriminate).
  pose proof (scan_hit_app _ _ _ _ Hne (placeholder_hit key Y) eq_refl)
    as Hhit.
  unfold sub. rewrite placeholder_pattern_shape in *.
  rewrite (scan_no_opening_app (L "template:") _ X (placeholder key ++ Y) eq_refl HX
             eq_refl).
  rewrite Hhit, (scan_no_opening (L "template:") _ Y eq_refl HY).
  rewrite render_keep. cbn [render]. now rewrite render_keeps.
Qed.

(** ... and the placeholder of another key is left alone. *)
Lemma sub_placeholder_diff (k1 k2 v X Y : str) :
  k1 <> k2 -> simple_key k1 = true -> simple_key k2 = true ->
  no_template_tag X = true -> no_template_tag Y = true ->
  sub (re_placeholder k1) (fun _ => v) (X ++ placeholder k2 ++ Y)
  = X ++ placeholder k2 ++ Y.
Proof.
  intros Hne H1 H2 HX HY.
  apply no_template_tag_split in HX as [HX _].
  apply no_template_tag_split in HY as [HY _].
  pose proof (placeholder_other k1 k2 Y Hne H1 H2) as Hno.
  pose proof (scan_lacks_app (re_placeholder k1) "<"%char
                (L "template:" ++ k2 ++ L ">") Y
                (placeholder_needs_lt k1)
                (lacks_placeholder_tail k2 H2)) as Htail.
  unfold sub. rewrite placeholder_pattern_shape in *.
  rewrite (scan_no_opening_app (L "template:") _ X (placeholder k2 ++ Y) eq_refl HX
             eq_refl).
  unfold placeholder in *. rewrite <- !app_assoc in *.
  change (L "<template:" ++ k2 ++ L ">" ++ Y)
    with ("<"%char :: L "template:" ++ k2 ++ L ">" ++ Y) in *.
  rewrite (scan_keep _ _ _ Hno), Htail.
  rewrite (scan_no_opening (L "template:") _ Y eq_refl HY).
  rewrite render_keep. cbn [render].
  rewrite render_keep, render_keeps.
  now rewrite <- !app_assoc.
Qed.

(** The closing-tag pattern finds nothing in such a text. *)
Lemma sub_closing_id (k1 k2 X Y : str) :
  simple_key k2 = true ->
  no_template_tag X = true -> no_template_tag Y = true ->
  sub (re_closing k1) (fun _ => []) (X ++ placeholder k2 ++ Y)
  = X ++ placeholder k2 ++ Y.
Proof.
  intros H2 HX HY.
  apply no_template_tag_split in HX as [_ HX].
  apply no_template_tag_split in HY as [_ HY].
  pose proof (closing_not_placeholder k1 k2 Y) as Hno.
  pose proof (scan_lacks_app (re_closing k1) "<"%char
                (L "template:" ++ k2 ++ L ">") Y
                (closing_needs_lt k1)
                (lacks_placeholder_tail k2 H2)) as Htail.
  unfold sub. rewrite closing_pattern_shape in *.
  rewrite (scan_no_opening_app (L "/template:") _ X (placeholder k2 ++ Y) eq_refl HX
             eq_refl).
  unfold placeholder in *. rewrite <- !app_assoc in *.
  change (L "<template:" ++ k2 ++ L ">" ++ Y)
    with ("<"%char :: L "template:" ++ k2 ++ L ">" ++ Y) in *.
  rewrite (scan_keep _ _ _ Hno), Htail.
  rewrite (scan_no_opening (L "/template:") _ Y eq_refl HY).
  rewrite render_keep. cbn [render].
  rewrite render_keep, render_keeps.
  now rewrite <- !app_assoc.
Qed.

Lemma sub_closing_none (key T : str) :
  no_template_tag T = true ->
  sub (re_closing key) (fun _ => []) T = T.
Proof.
  intros HT. apply no_template_tag_split in HT as [_ HT].
  unfold sub. rewrite closing_pattern_shape.
  rewrite (scan_no_opening (L "/template:") _ T eq_refl HT). apply render_keeps.
Qed.

Lemma simple_key_plain (key : str) :
  simple_key key = true -> plain_key key = true.
Proof. unfold simple_key. rewrite !andb_true_iff. tauto. Qed.

End TemplateFacts.

(** C2 as stated fails: the value of [title] brings in the placeholder of
    [site], a key that comes later in the map, and the pass for [site]
    expands it. *)
Lemma C2_counterexample :
  ~ (forall (partial : str) (data : dict) (out key value other : str),
        In (key, value) data -> In other (map fst data) -> other <> key ->
        contains (placeholder key) partial = true ->
        contains (placeholder other) value = true ->
        process_template partial data = Some out ->
        contains (placeholder other) out = true).
Proof.
  intros H.
  specialize (H (L "<h1><template:title></h1>")
                [(L "title", L "<template:site> news"); (L "site", L "Wyttle")]
                (L "<h1>Wyttle news</h1>")
                (L "title") (L "<template:site> news") (L "site")).
  assert (E : contains (placeholder (L "site")) (L "<h1>Wyttle news</h1>")
              = false) by (vm_compute; reflexivity).
  rewrite H in E; [discriminate| | | | | |].
  - now left.
  - right; now left.
  - vm_compute. discriminate.
  - vm_compute. reflexivity.
  - vm_compute. reflexivity.
  - vm_compute. reflexivity.
Qed.

(** A round finds nothing to replace in a text without template tags. *)
Lemma sub_placeholder_none (key v T : str) :
  no_template_tag T = true ->
  sub (re_placeholder key) (fun _ => v) T = T.
Proof.
  intros HT. apply no_template_tag_split in HT as [HT _].
  unfold sub. rewrite placeholder_pattern_shape.
  rewrite (scan_no_opening (L "template:") _ T eq_refl HT). apply render_keeps.
Qed.

(** The rounds of a map follow one another, each on the text the rounds
    before it have left. *)
Lemma process_template_app (d1 d2 : dict) (content : str) :
  process_template content (d1 ++ d2)
  = match process_template content d1 with
    | Some content' => process_template content' d2
    | None => None
    end.
Proof.
  revert content; induction d1 as [|[key value] d1 IH]; intros content;
    [reflexivity|].
  cbn [app process_template].
  destruct (plain_key key && plain_value value); [apply IH | reflexivity].
Qed.

Lemma simple_map_app (d1 d2 : dict) :
  simple_map (d1 ++ d2) = simple_map d1 && simple_map d2.
Proof. apply forallb_app. Qed.

(** The rounds of other keys leave the placeholder of a key alone ... *)
Lemma others_leave_placeholder (d : dict) (key X Y : str) :
  simple_map d = true -> ~ In key (map fst d) -> simple_key key = true ->
  no_template_tag X = true -> no_template_tag Y = true ->
  process_template (X ++ placeholder key ++ Y) d
  = Some (X ++ placeholder key ++ Y).
Proof.
  intros Hd Hnot Hkey HX HY.
  induction d as [|[k v] d IH]; [reflexivity|].
  cbn [simple_map forallb fst snd] in Hd.
  apply andb_true_iff in Hd as [Hkv Hd].
  apply andb_true_iff in Hkv as [Hk Hv].
  cbn [map fst In] in Hnot.
  assert (Hne : k <> key) by (intros E; apply Hnot; now left).
  cbn [process_template].
  rewrite (simple_key_plain k Hk), Hv. cbn [andb].
  rewrite (sub_placeholder_diff k key v X Y Hne Hk Hkey HX HY).
  rewrite (sub_closing_id k key X Y Hkey HX HY).
  apply IH; [exact Hd|]. intros Hin. apply Hnot. now right.
Qed.

(** ... and leave a text without template tags as it is. *)
Lemma others_leave_plain_text (d : dict) (T : str) :
  simple_map d = true -> no_template_tag T = true ->
  process_template T d = Some T.
Proof.
  intros Hd HT.
  induction d as [|[k v] d IH]; [reflexivity|].
  cbn [simple_map forallb fst snd] in Hd.
  apply andb_true_iff in Hd as [Hkv Hd].
  apply andb_true_iff in Hkv as [Hk Hv].
  cbn [process_template].
  rewrite (simple_key_plain k Hk), Hv. cbn [andb].
  rewrite (sub_placeholder_none k v T HT), (sub_closing_none k T HT).
  now apply IH.
Qed.

(** C2, amended.  [process_template] makes one pass per key in the order
    of the map, each over the text the passes before it have left: for
    all maps, substituting with [d1 ++ d2] is substituting with [d1] and
    then, on the result, with [d2].  So whether a placeholder brought in
    by a value is expanded depends on the order of the keys.  Take a map of
    any size whose keys are distinct and simple (no [<], [>], space or
    pattern metacharacter) and whose values hold no backslash, a partial
    [A<template:k1>B] and, for [k1], the value [P<template:k2>Q], where
    [A], [B], [A ++ P], [Q ++ B] and the text with the value [v2] of [k2]
    in place hold no template tag.  If [k2] comes before [k1] in the map,
    the placeholder of [k2] stays in the output; if [k2] comes after [k1],
    the pass of [k2] expands it to [v2]; and a placeholder of [k1] itself,
    brought in by the value of [k1], stays: a pass does not scan the text
    it has put in for placeholders.  The other entries of the map,
    [before], [between] and [after], may stand anywhere around the
    two. *)
Theorem C2_introduced_placeholder_expanded_only_by_a_later_key
        (k1 k2 v2 A B P Q : str) (before between after : dict) :
  simple_key k1 = true -> simple_key k2 = true ->
  simple_map (before ++ between ++ after) = true ->
  NoDup (k1 :: k2 :: map fst (before ++ between ++ after)) ->
  no_template_tag A = true -> no_template_tag B = true ->
  no_template_tag (A ++ P) = true -> no_template_tag (Q ++ B) = true ->
  no_template_tag ((A ++ P) ++ v2 ++ Q ++ B) = true ->
  plain_value v2 = true ->
  plain_value (P ++ placeholder k2 ++ Q) = true ->
  plain_value (P ++ placeholder k1 ++ Q) = true ->
  (forall (content : str) (d1 d2 : dict),
      process_template content (d1 ++ d2)
      = match process_template content d1 with
        | Some content' => process_template content' d2
        | None => None
        end)
  /\ process_template
       (A ++ placeholder k1 ++ B)
       (before ++ (k2, v2) :: between
               ++ (k1, P ++ placeholder k2 ++ Q) :: after)
     = Some (A ++ (P ++ placeholder k2 ++ Q) ++ B)
  /\ process_template
       (A ++ placeholder k1 ++ B)
       (before ++ (k1, P ++ placeholder k2 ++ Q) :: between
               ++ (k2, v2) :: after)
     = Some (A ++ (P ++ v2 ++ Q) ++ B)
  /\ process_template
       (A ++ placeholder k1 ++ B)
       (before ++ (k1, P ++ placeholder k1 ++ Q) :: between ++ after)
     = Some (A ++ (P ++ placeholder k1 ++ Q) ++ B).
Proof.
  intros H1 H2 Hmap Hnd HA HB HAP HQB Hall Hpv2 Hpv1 Hpv1'.
  assert (Hne : k1 <> k2).
  { intros E. apply NoDup_cons_iff in Hnd as [Hnd _]. apply Hnd.
    left. now symmetry. }
  assert (Hne' : k2 <> k1) by congruence.
  assert (Hout1 : ~ In k1 (map fst (before ++ between ++ after))).
  { apply NoDup_cons_iff in Hnd as [Hnd _]. intros Hin. apply Hnd.
    now right. }
  assert (Hout2 : ~ In k2 (map fst (before ++ between ++ after))).
  { apply NoDup_cons_iff in Hnd as [_ Hnd].
    now apply NoDup_cons_iff in Hnd as [Hnd _]. }
  rewrite !map_app in Hout1, Hout2.
  assert (Hb1 : ~ In k1 (map fst before))
    by (intros H; apply Hout1; apply in_or_app; now left).
  assert (Hm1 : ~ In k1 (map fst between))
    by (intros H; apply Hout1; apply in_or_app; right;
        apply in_or_app; now left).
  assert (Ha1 : ~ In k1 (map fst after))
    by (intros H; apply Hout1; apply in_or_app; right;
        apply in_or_app; now right).
  assert (Hm2 : ~ In k2 (map fst between))
    by (intros H; apply Hout2; apply in_or_app; right;
        apply in_or_app; now left).
  assert (Ha2 : ~ In k2 (map fst after))
    by (intros H; apply Hout2; apply in_or_app; right;
        apply in_or_app; now right).
  rewrite !simple_map_app, !andb_true_iff in Hmap.
  destruct Hmap as (Hsb & Hsm & Hsa).
  assert (Hshape : forall k, A ++ (P ++ placeholder k ++ Q) ++ B
                             = (A ++ P) ++ placeholder k ++ (Q ++ B))
    by (intros k; now rewrite <- !app_assoc).
  refine (conj (fun content d1 d2 => process_template_app d1 d2 content)
               (conj _ (conj _ _))).
  - rewrite process_template_app.
    rewrite (others_leave_placeholder before k1 A B Hsb Hb1 H1 HA HB).
    cbn [process_template].
    rewrite (simple_key_plain k2 H2), Hpv2. cbn [andb].
    rewrite (sub_placeholder_diff k2 k1 v2 A B Hne' H2 H1 HA HB).
    rewrite (sub_closing_id k2 k1 A B H1 HA HB).
    rewrite process_template_app.
    rewrite (others_leave_placeholder between k1 A B Hsm Hm1 H1 HA HB).
    cbn [process_template].
    rewrite (simple_key_plain k1 H1), Hpv1. cbn [andb].
    rewrite (sub_placeholder_same k1 _ A B HA HB).
    rewrite Hshape.
    rewrite (sub_closing_id k1 k2 (A ++ P) (Q ++ B) H2 HAP HQB).
    exact (others_leave_placeholder after k2 (A ++ P) (Q ++ B)
             Hsa Ha2 H2 HAP HQB).
  - rewrite process_template_app.
    rewrite (others_leave_placeholder before k1 A B Hsb Hb1 H1 HA HB).
    cbn [process_template].
    rewrite (simple_key_plain k1 H1), Hpv1. cbn [andb].
    rewrite (sub_placeholder_same k1 _ A B HA HB).
    rewrite Hshape.
    rewrite (sub_closing_id k1 k2 (A ++ P) (Q ++ B) H2 HAP HQB).
    rewrite process_template_app.
    rewrite (others_leave_placeholder between k2 (A ++ P) (Q ++ B)
               Hsm Hm2 H2 HAP HQB).
    cbn [process_template].
    rewrite (simple_key_plain k2 H2), Hpv2. cbn [andb].
    rewrite (sub_placeholder_same k2 v2 (A ++ P) (Q ++ B) HAP HQB).
    rewrite (sub_closing_none k2 _ Hall).
    rewrite (others_leave_plain_text after _ Hsa Hall).
    now rewrite <- !app_assoc.
  - rewrite process_template_app.
    rewrite (others_leave_placeholder before k1 A B Hsb Hb1 H1 HA HB).
    cbn [process_template].
    rewrite (simple_key_plain k1 H1), Hpv1'. cbn [andb].
    rewrite (sub_placeholder_same k1 _ A B HA HB).
    rewrite Hshape.
    rewrite (sub_closing_id k1 k1 (A ++ P) (Q ++ B) H1 HAP HQB).
    apply others_leave_placeholder; try assumption.
    + rewrite simple_map_app, Hsm, Hsa. reflexivity.
    + rewrite map_app. intros Hin. apply in_app_or in Hin as [Hin | Hin];
        [now apply Hm1 | now apply Ha1].
Qed.

Lemma C2_witness :
  (forall (content : str) (d1 d2 : dict),
      process_template content (d1 ++ d2)
      = match process_template content d1 with
        | Some content' => process_template content' d2
        | None => None
        end)
  /\ process_template
       (L "<h1>" ++ placeholder (L "title") ++ L "</h1>")
       ([(L "lang", L "en")] ++ (L "site", L "Wyttle")
          :: [(L "author", L "<b>Ann</b>")]
          ++ (L "title", L "[" ++ placeholder (L "site") ++ L "] news")
          :: [(L "year", L "2024")])
     = Some (L "<h1>" ++ (L "[" ++ placeholder (L "site") ++ L "] news")
               ++ L "</h1>")
  /\ process_template
       (L "<h1>" ++ placeholder (L "title") ++ L "</h1>")
       ([(L "lang", L "en")]
          ++ (L "title", L "[" ++ placeholder (L "site") ++ L "] news")
          :: [(L "author", L "<b>Ann</b>")] ++ (L "site", L "Wyttle")
          :: [(L "year", L "2024")])
     = Some (L "<h1>" ++ (L "[" ++ L "Wyttle" ++ L "] news") ++ L "</h1>")
  /\ process_template
       (L "<h1>" ++ placeholder (L "title") ++ L "</h1>")
       ([(L "lang", L "en")]
          ++ (L "title", L "[" ++ placeholder (L "title") ++ L "] news")
          :: [(L "author", L "<b>Ann</b>")] ++ [(L "year", L "2024")])
     = Some (L "<h1>" ++ (L "[" ++ placeholder (L "title") ++ L "] news")
               ++ L "</h1>").
Proof.
  apply (C2_introduced_placeholder_expanded_only_by_a_later_key
           (L "title") (L "site") (L "Wyttle")
           (L "<h1>") (L "</h1>") (L "[") (L "] news")
           [(L "lang", L "en")] [(L "author", L "<b>Ann</b>")]
           [(L "year", L "2024")]);
    try reflexivity.
  repeat (constructor;
          [cbn [In map fst app]; intros H;
           repeat (destruct H as [H|H]; [discriminate H|]); exact H|]).
  constructor.
Defined.

(* ================================================================= *)
(** * C3: the minifier *)

Section MinifyFacts.

Lemma chr_eqb_sym (a b : ascii) : chr_eqb a b = chr_eqb b a.
Proof.
  destruct (chr_eqb a b) eqn:E.
  - apply chr_eqb_eq in E. subst. symmetry. apply chr_eqb_refl.
  - apply chr_eqb_neq in E. symmetry. apply chr_eqb_neq. congruence.
Qed.

(** ** The whitespace pass *)

Lemma star_greedy_total (p : cset) (s : str) (c : caps) :
  star true p s (fun s' => Some (s', c)) = Some (lstrip_by p s, c).
Proof.
  induction s as [|x s IH]; simpl; [reflexivity|].
  destruct (p x); [now rewrite IH | reflexivity].
Qed.

Lemma star_greedy_stop (p : cset) (s : str) (k : str -> option hit) :
  stops p s = true -> star true p s k = k s.
Proof.
  destruct s as [|x s]; simpl; [reflexivity|].
  intros H. apply negb_true_iff in H. now rewrite H.
Qed.

Lemma lstrip_by_length (p : cset) (s : str) :
  length (lstrip_by p s) <= length s.
Proof.
  induction s as [|x s IH]; simpl; [lia|].
  destruct (p x); simpl; lia.
Qed.

Lemma match_spaces_hit (c : ascii) (s : str) :
  is_space c = true ->
  exists m, match_here re_spaces (c :: s) = Some m
            /\ length (m_text m)
               = S (length s - length (lstrip_by is_space s)).
Proof.
  intros Hc. unfold match_here, re_spaces. cbn [run rep].
  unfold space. rewrite Hc, star_greedy_total.
  eexists; split; [reflexivity|]. cbn [m_text].
  pose proof (lstrip_by_length is_space s).
  rewrite length_firstn. cbn [length]. lia.
Qed.

Lemma match_spaces_miss (c : ascii) (s : str) :
  is_space c = false -> match_here re_spaces (c :: s) = None.
Proof.
  intros Hc. unfold match_here, re_spaces. cbn [run rep].
  unfold space. now rewrite Hc.
Qed.

Lemma collapse_scan (f : mobj -> str) (s : str) :
  (forall m, f m = L " ") ->
  render f (scan_go re_spaces 0 s) = collapse_runs false s
  /\ render f (scan_go re_spaces
                       (length s - length (lstrip_by is_space s)) s)
     = collapse_runs true s.
Proof.
  intros Hf. induction s as [|c s [IH1 IH2]].
  - split; reflexivity.
  - assert (P1 : render f (scan_go re_spaces 0 (c :: s))
                 = collapse_runs false (c :: s)).
    { cbn [scan_go collapse_runs]. destruct (is_space c) eqn:Hc.
      - destruct (match_spaces_hit c s Hc) as (m & Hm & Hlen).
        rewrite Hm, Hlen. cbn [render]. now rewrite Hf, IH2.
      - rewrite (match_spaces_miss c s Hc). cbn [render].
        now rewrite IH1. }
    split; [exact P1|].
    cbn [lstrip_by collapse_runs]. destruct (is_space c) eqn:Hc.
    + pose proof (lstrip_by_length is_space s).
      replace (length (c :: s) - length (lstrip_by is_space s))
        with (S (length s - length (lstrip_by is_space s)))
        by (cbn [length]; lia).
      cbn [scan_go]. exact IH2.
    + rewrite Nat.sub_diag. rewrite P1. cbn [collapse_runs].
      now rewrite Hc.
Qed.

Lemma sub_spaces (s : str) :
  sub re_spaces (fun _ => L " ") s = collapse_runs false s.
Proof. apply (collapse_scan (fun _ => L " ") s). reflexivity. Qed.

Lemma stops_collapse_true (s : str) :
  stops is_space (collapse_runs true s) = true.
Proof.
  induction s as [|c s IH]; simpl; [reflexivity|].
  destruct (is_space c) eqn:Hc; [exact IH|]. simpl. now rewrite Hc.
Qed.

Lemma single_spaced_collapse (b : bool) (s : str) :
  single_spaced (collapse_runs b s) = true.
Proof.
  unfold single_spaced. revert b.
  induction s as [|c s IH]; intros b; simpl; [reflexivity|].
  destruct (is_space c) eqn:Hc.
  - destruct b; [apply IH|].
    cbn [all_suffixes lone_space].
    rewrite stops_collapse_true, IH. reflexivity.
  - cbn [all_suffixes lone_space]. rewrite Hc, IH. reflexivity.
Qed.

(** ** The pass between tags *)

Lemma match_gap (s : str) :
  single_spaced s = true ->
  match_here re_between_tags s
  = if gap_at s then Some (MkMatch (firstn 3 s) []) else None.
Proof.
  intros Hs. destruct s as [|c s1]; [reflexivity|].
  unfold match_here, re_between_tags, lit. cbn [cat fold_right].
  rewrite run_cat, run_lit.
  change (startswith (c :: s1) (L ">")) with (chr_eqb ">"%char c && true).
  rewrite andb_true_r, (chr_eqb_sym ">"%char c).
  destruct (chr_eqb c ">"%char) eqn:Ec.
  2:{ destruct s1 as [|w [|x rest]]; cbn [gap_at]; rewrite ?Ec;
      reflexivity. }
  change (skipn (length (L ">")) (c :: s1)) with s1.
  rewrite run_cat, run_rep. cbn [rep].
  destruct s1 as [|w s2]; [reflexivity|].
  unfold space at 1. destruct (is_space w) eqn:Hw.
  2:{ destruct s2; cbn [gap_at]; rewrite ?Ec, ?Hw; reflexivity. }
  cbn [rep].
  assert (Hstop : stops is_space s2 = true).
  { unfold single_spaced in Hs. cbn [all_suffixes] in Hs.
    apply andb_true_iff in Hs as [_ Hs].
    apply andb_true_iff in Hs as [Hl _].
    cbn [lone_space] in Hl. rewrite Hw in Hl.
    now apply andb_true_iff in Hl as [_ Hl]. }
  unfold space. rewrite (star_greedy_stop _ _ _ Hstop).
  rewrite run_cat, run_lit.
  destruct s2 as [|x rest]; [reflexivity|].
  change (startswith (x :: rest) (L "<")) with (chr_eqb "<"%char x && true).
  rewrite andb_true_r, (chr_eqb_sym "<"%char x).
  cbn [gap_at]. rewrite Ec, Hw. cbn [andb].
  destruct (chr_eqb x "<"%char); [|reflexivity].
  cbn [run prefix_by length skipn].
  change (skipn (length (L "<")) (x :: rest)) with rest.
  replace (S (S (S (length rest))) - length rest) with 3 by lia.
  reflexivity.
Qed.

Lemma single_spaced_tail (c : ascii) (s : str) :
  single_spaced (c :: s) = true -> single_spaced s = true.
Proof.
  unfold single_spaced. cbn [all_suffixes]. now rewrite andb_true_iff.
Qed.

Lemma squeeze_no_gap (c : ascii) (s1 : str) :
  gap_at (c :: s1) = false ->
  squeeze_gaps (c :: s1) = c :: squeeze_gaps s1.
Proof.
  intros H. destruct s1 as [|w [|x rest]]; try reflexivity.
  cbn [gap_at] in H. cbn [squeeze_gaps]. now rewrite H.
Qed.

Lemma gap_scan (f : mobj -> str) :
  (forall m, f m = L "><") ->
  forall n s, length s <= n -> single_spaced s = true ->
              render f (scan_go re_between_tags 0 s) = squeeze_gaps s.
Proof.
  intros Hf. induction n as [|n IH]; intros s Hn Hs.
  - destruct s; [reflexivity | simpl in Hn; lia].
  - destruct s as [|c s1]; [reflexivity|].
    cbn [scan_go]. rewrite (match_gap _ Hs).
    destruct (gap_at (c :: s1)) eqn:Eg.
    + destruct s1 as [|w [|x rest]]; try discriminate.
      cbn [firstn m_text length scan_go render].
      rewrite Hf. cbn [squeeze_gaps]. cbn [gap_at] in Eg. rewrite Eg.
      rewrite IH.
      * apply andb_true_iff in Eg as [Eg _].
        apply andb_true_iff in Eg as [Eg _].
        apply chr_eqb_eq in Eg. now subst c.
      * simpl in Hn. lia.
      * now do 3 apply single_spaced_tail in Hs.
    + cbn [render]. rewrite (squeeze_no_gap _ _ Eg). f_equal.
      apply IH; [simpl in Hn; lia | now apply single_spaced_tail in Hs].
Qed.

Lemma sub_between_tags (s : str) :
  single_spaced s = true ->
  sub re_between_tags (fun _ => L "><") s = squeeze_gaps s.
Proof.
  intros Hs. apply (gap_scan (fun _ => L "><") (fun _ => eq_refl)
                             (length s) s (le_n _) Hs).
Qed.

Lemma squeeze_head (c : ascii) (s : str) :
  exists t, squeeze_gaps (c :: s) = c :: t.
Proof.
  destruct s as [|w [|x rest]]; cbn [squeeze_gaps];
    try (eexists; reflexivity).
  destruct (chr_eqb c ">"%char && is_space w && chr_eqb x "<"%char) eqn:E;
    [|eexists; reflexivity].
  apply andb_true_iff in E as [E _]. apply andb_true_iff in E as [E _].
  apply chr_eqb_eq in E. subst c. eexists; reflexivity.
Qed.

Lemma stops_squeeze (p : cset) (s : str) :
  stops p (squeeze_gaps s) = stops p s.
Proof.
  destruct s as [|c s]; [reflexivity|].
  destruct (squeeze_head c s) as [t ->]. reflexivity.
Qed.

Lemma gap_at_head (c : ascii) (s : str) :
  gap_at (c :: s) = true -> c = ">"%char.
Proof.
  destruct s as [|w [|x rest]]; cbn [gap_at]; try discriminate.
  rewrite !andb_true_iff. intros [[E _] _]. now apply chr_eqb_eq in E.
Qed.

Lemma not_space_gt : is_space ">"%char = false.
Proof. reflexivity. Qed.

Lemma not_space_lt : is_space "<"%char = false.
Proof. reflexivity. Qed.

(** The pass keeps the text single-spaced and leaves no gap. *)
Lemma squeeze_props :
  forall n s, length s <= n -> single_spaced s = true ->
              single_spaced (squeeze_gaps s) = true
              /\ gap_free (squeeze_gaps s) = true.
Proof.
  unfold single_spaced, gap_free.
  induction n as [|n IH]; intros s Hn Hs.
  - destruct s; [split; reflexivity | simpl in Hn; lia].
  - destruct s as [|c s1]; [split; reflexivity|].
    pose proof Hs as Hs'. cbn [all_suffixes] in Hs'.
    apply andb_true_iff in Hs' as [Hl Hs1].
    destruct (gap_at (c :: s1)) eqn:Eg.
    + destruct s1 as [|w [|x rest]]; try discriminate.
      cbn [gap_at] in Eg. cbn [squeeze_gaps]. rewrite Eg.
      cbn [all_suffixes] in Hs1.
      apply andb_true_iff in Hs1 as [_ Hs1].
      apply andb_true_iff in Hs1 as [_ Hrest].
      destruct (IH rest ltac:(simpl in Hn; lia) Hrest) as [I1 I2].
      cbn [all_suffixes lone_space].
      rewrite not_space_gt, not_space_lt, I1. split; [reflexivity|].
      assert (G1 : gap_at (">"%char :: "<"%char :: squeeze_gaps rest)
                   = false).
      { destruct (squeeze_gaps rest); reflexivity. }
      assert (G2 : gap_at ("<"%char :: squeeze_gaps rest) = false).
      { destruct (squeeze_gaps rest) as [|a [|b u]]; reflexivity. }
      now rewrite G1, G2, I2.
    + rewrite (squeeze_no_gap _ _ Eg).
      destruct (IH s1 ltac:(simpl in Hn; lia) Hs1) as [I1 I2].
      cbn [all_suffixes]. rewrite I1, I2, !andb_true_r. split.
      * cbn [lone_space] in *. destruct (is_space c); [|reflexivity].
        now rewrite stops_squeeze.
      * apply negb_true_iff.
        destruct (gap_at (c :: squeeze_gaps s1)) eqn:Eg'; [|reflexivity].
        exfalso.
        pose proof (gap_at_head _ _ Eg') as Hc. subst c.
        destruct s1 as [|w s2]; [discriminate|].
        destruct (squeeze_head w s2) as [t Ht].
        destruct (gap_at (w :: s2)) eqn:Egw.
        { apply gap_at_head in Egw. subst w.
          rewrite Ht in Eg'. destruct t; discriminate. }
        rewrite (squeeze_no_gap _ _ Egw) in Eg'.
        destruct s2 as [|x rest].
        { discriminate. }
        destruct (squeeze_head x rest) as [u Hu]. rewrite Hu in Eg'.
        cbn [gap_at] in Eg', Eg. congruence.
Qed.

(** ** Trimming keeps what holds of every part of the text *)

Lemma lstrip_by_suffix (p : cset) (s : str) :
  exists a, s = a ++ lstrip_by p s.
Proof.
  induction s as [|c s [a IH]]; [now exists []|].
  simpl. destruct (p c).
  - exists (c :: a). simpl. now f_equal.
  - now exists [].
Qed.

Lemma rstrip_by_prefix (p : cset) (s : str) :
  exists b, s = rstrip_by p s ++ b.
Proof.
  unfold rstrip_by. destruct (lstrip_by_suffix p (rev s)) as [a Ha].
  exists (rev a). rewrite <- rev_app_distr, <- Ha.
  now rewrite rev_involutive.
Qed.

Lemma all_suffixes_app_r (ok : str -> bool) (a b : str) :
  all_suffixes ok (a ++ b) = true -> all_suffixes ok b = true.
Proof.
  induction a as [|c a IH]; [auto|].
  cbn [app all_suffixes]. rewrite andb_true_iff. intros [_ H]. auto.
Qed.

Lemma all_suffixes_app_l (ok : str -> bool) (a b : str) :
  (forall t, ok (t ++ b) = true -> ok t = true) ->
  all_suffixes ok (a ++ b) = true -> all_suffixes ok a = true.
Proof.
  intros Hok. induction a as [|c a IH].
  - intros H. cbn [all_suffixes]. rewrite andb_true_r.
    apply (Hok []). cbn [app].
    destruct b; cbn [all_suffixes] in H;
      now apply andb_true_iff in H as [H _].
  - cbn [app all_suffixes]. rewrite !andb_true_iff. intros [H1 H2].
    split; [now apply Hok | auto].
Qed.

Lemma lone_space_prefix (b t : str) :
  lone_space (t ++ b) = true -> lone_space t = true.
Proof.
  destruct t as [|c t]; [reflexivity|].
  cbn [app lone_space]. destruct (is_space c); [|reflexivity].
  rewrite !andb_true_iff. intros [H1 H2]. split; [exact H1|].
  destruct t; [reflexivity | exact H2].
Qed.

Lemma no_gap_prefix (b t : str) :
  negb (gap_at (t ++ b)) = true -> negb (gap_at t) = true.
Proof.
  destruct t as [|c [|w [|x t]]]; try reflexivity.
  cbn [app gap_at]. auto.
Qed.

Lemma strip_keeps (ok : str -> bool) (s : str) :
  (forall b t, ok (t ++ b) = true -> ok t = true) ->
  all_suffixes ok s = true -> all_suffixes ok (strip s) = true.
Proof.
  intros Hok Hs. unfold strip.
  destruct (lstrip_by_suffix is_space s) as [a Ha].
  destruct (rstrip_by_prefix is_space (lstrip_by is_space s)) as [b Hb].
  rewrite Ha in Hs. apply all_suffixes_app_r in Hs.
  rewrite Hb in Hs. now apply (all_suffixes_app_l ok _ b (Hok b)) in Hs.
Qed.

(** ** The comment pass *)

Lemma comment_pattern_shape :
  re_comment
  = Cat (Lit false ("<"%char :: L "!--"))
        (Cat (Rep false 0 any) (Cat (lit "-->") (Lit false []))).
Proof. reflexivity. Qed.

(** The lazy run stops at the first place where the rest matches. *)
Lemma star_lazy_first (p : cset) (a s : str) (k : str -> option hit)
      (h : hit) :
  forallb p a = true ->
  (forall a1 c a2, a = a1 ++ c :: a2 -> k (c :: a2 ++ s) = None) ->
  k s = Some h ->
  star false p (a ++ s) k = Some h.
Proof.
  intros Ha Hfail Hk. induction a as [|x a IH]; simpl in *.
  - destruct s; simpl; now rewrite Hk.
  - apply andb_true_iff in Ha as [Hx Ha].
    rewrite (Hfail [] x a eq_refl). rewrite Hx.
    apply IH; [exact Ha|].
    intros a1 c a2 E. apply (Hfail (x :: a1)). now rewrite E.
Qed.

Lemma contains_app_r (pat a b : str) :
  contains pat (a ++ b) = false -> contains pat b = false.
Proof.
  induction a as [|c a IH]; [auto|].
  cbn [app contains]. rewrite orb_false_iff. intros [_ H]. auto.
Qed.

Lemma comment_end_not_before (c1 : ascii) (c2 rest : str) :
  contains (L "-->") (c1 :: c2) = false ->
  startswith (c1 :: c2 ++ L "-->" ++ rest) (L "-->") = false.
Proof.
  intros H. apply contains_cons in H as [H _].
  destruct (startswith (c1 :: c2 ++ L "-->" ++ rest) (L "-->")) eqn:E;
    [|reflexivity].
  exfalso.
  destruct (startswith_straddle _ (c1 :: c2) _ E)
    as [Hl|(p2 & Hp2 & Hsplit & Hr)]; [congruence|].
  destruct c2 as [|d [|e c2]]; cbn [app] in Hsplit.
  - inversion Hsplit; subst. discriminate.
  - inversion Hsplit; subst. discriminate.
  - change (L "-->") with ["-"%char; "-"%char; ">"%char] in Hsplit.
    inversion Hsplit as [[E1 E2 E3 E4]].
    symmetry in E4. apply app_eq_nil in E4 as [_ E4]. congruence.
Qed.

Lemma comment_hit (c rest : str) :
  contains (L "-->") c = false ->
  match_here re_comment ((L "<!--" ++ c ++ L "-->") ++ rest)
  = Some (MkMatch (L "<!--" ++ c ++ L "-->") []).
Proof.
  intros Hc. apply match_here_intro. unfold re_comment, lit.
  cbn [cat fold_right]. rewrite <- !app_assoc.
  rewrite run_cat, run_lit_app, run_cat, run_rep. cbn [rep].
  apply star_lazy_first; [apply forallb_any | |].
  - intros a1 x a2 E. rewrite run_cat, run_lit.
    rewrite comment_end_not_before; [reflexivity|].
    rewrite E in Hc. now apply contains_app_r in Hc.
  - rewrite run_cat, run_lit_app. reflexivity.
Qed.

(** The first comment of a text goes, and the pass resumes behind it. *)
Lemma sub_comment_first (a c b : str) :
  contains (L "<!--") a = false -> contains (L "-->") c = false ->
  sub re_comment (fun _ => []) (a ++ L "<!--" ++ c ++ L "-->" ++ b)
  = a ++ sub re_comment (fun _ => []) b.
Proof.
  intros Ha Hc. unfold sub.
  assert (Hne : L "<!--" ++ c ++ L "-->" <> []) by (simpl; discriminate).
  pose proof (scan_hit_app _ _ _ _ Hne (comment_hit c b Hc) eq_refl)
    as Hhit.
  rewrite <- !app_assoc in Hhit.
  rewrite comment_pattern_shape in *.
  rewrite (scan_no_opening_app (L "!--") _ a
             (L "<!--" ++ c ++ L "-->" ++ b) eq_refl Ha eq_refl).
  rewrite Hhit, render_keep. reflexivity.
Qed.

Lemma sub_comment_none (a : str) :
  contains (L "<!--") a = false -> sub re_comment (fun _ => []) a = a.
Proof.
  intros Ha. unfold sub. rewrite comment_pattern_shape.
  rewrite (scan_no_opening (L "!--") _ a eq_refl Ha). apply render_keeps.
Qed.

End MinifyFacts.

(** C3 as stated fails: the run between the tags of [<p>   </p>] is first
    collapsed to one space and that space, standing between [>] and [<],
    is then removed. *)
Lemma C3_counterexample :
  minify_html (L "<p>   </p>") true true <> L "<p> </p>".
Proof. vm_compute. discriminate. Qed.

Lemma minify_html_passes (content : str) :
  minify_html content true true
  = strip (squeeze_gaps (collapse_runs false (minify_html content false true))).
Proof.
  unfold minify_html.
  rewrite sub_spaces, sub_between_tags by apply single_spaced_collapse.
  reflexivity.
Qed.

(** C3, amended. With both options on, [minify_html] removes the comment
    spans it matches (the first [<!--] up to the first [-->] behind it,
    over line ends too, then on from there), turns every whitespace run
    into one space, removes the whitespace left between a [>] and a [<],
    and trims.  So for every input the output neither starts nor ends with
    whitespace, its whitespace characters are single spaces, and no
    whitespace stands between [>] and [<]; [<p>   </p>] becomes [<p></p>]
    and [<div> </div>] becomes [<div></div>]. *)
Theorem C3_minifier_strips_comments_collapses_squeezes_and_trims :
  (forall a c b,
      contains (L "<!--") a = false -> contains (L "-->") c = false ->
      minify_html (a ++ L "<!--" ++ c ++ L "-->" ++ b) false true
      = a ++ minify_html b false true)
  /\ (forall a, contains (L "<!--") a = false ->
                minify_html a false true = a)
  /\ (forall content,
         minify_html content true true
         = strip (squeeze_gaps
                    (collapse_runs false (minify_html content false true))))
  /\ (forall content c t,
         minify_html content true true = c :: t -> is_space c = false)
  /\ (forall content c t,
         minify_html content true true = t ++ [c] -> is_space c = false)
  /\ (forall content, single_spaced (minify_html content true true) = true)
  /\ (forall content, gap_free (minify_html content true true) = true)
  /\ minify_html (L "<p>   </p>") true true = L "<p></p>"
  /\ minify_html (L "<div> </div>") true true = L "<div></div>"
  /\ minify_html (L "  <p>a <!-- one
      two -->   b</p>
  ") true true = L "<p>a b</p>".
Proof.
  assert (Hprops : forall content,
             single_spaced (minify_html content true true) = true
             /\ gap_free (minify_html content true true) = true).
  { intros content. rewrite minify_html_passes.
    set (t := collapse_runs false (minify_html content false true)).
    destruct (squeeze_props (length t) t (le_n _)
                            (single_spaced_collapse false _)) as [S1 S2].
    split.
    - apply strip_keeps; [apply lone_space_prefix | exact S1].
    - apply strip_keeps; [apply no_gap_prefix | exact S2]. }
  refine (conj _ (conj _ (conj _ (conj _ (conj _ (conj _ (conj _
            (conj _ (conj _ _))))))))).
  - intros a c b Ha Hc. unfold minify_html. now apply sub_comment_first.
  - intros a Ha. unfold minify_html. now apply sub_comment_none.
  - apply minify_html_passes.
  - intros content c t H. rewrite minify_html_passes in H.
    exact (strip_head _ _ _ H).
  - intros content c t H. rewrite minify_html_passes in H.
    exact (strip_last _ _ _ H).
  - intros content. apply Hprops.
  - intros content. apply Hprops.
  - vm_compute. reflexivity.
  - vm_compute. reflexivity.
  - vm_compute. reflexivity.
Qed.

Lemma C3_witness :
  minify_html (L "<h1>" ++ L "<!--" ++ L " draft > note " ++ L "-->"
                 ++ L "</h1>") false true
  = L "<h1>" ++ minify_html (L "</h1>") false true.
Proof.
  apply (proj1 C3_minifier_strips_comments_collapses_squeezes_and_trims
               (L "<h1>") (L " draft > note ") (L "</h1>"));
    reflexivity.
Defined.


(* ================================================================= *)
(** * The watcher and the reload channel, over whole sessions *)

Lemma ws_step_no_rebuild (st : ws_state) (ev : sock_event) :
  filter is_rebuild (snd (ws_step st ev)) = [].
Proof. destruct st, ev as [|[|c d]|e]; reflexivity. Qed.

(** X1. Every change event that is no directory event and no event on a
    [.config.json] path runs one build, unminified; the other events run
    none.  Builds are neither merged nor dropped. *)
Theorem watcher_rebuilds_once_per_qualifying_event
        (st : ws_state) (evs : list event) :
  filter is_rebuild (snd (session st evs))
  = repeat (Rebuild false) (length (filter triggers evs)).
Proof.
  revert st; induction evs as [|ev evs IH]; intros st; [reflexivity|].
  cbn [session]. destruct ev as [e|e]; cbn [session_step].
  - specialize (IH st). destruct (session st evs) as [st2 out2].
    cbn [snd] in *. rewrite filter_app, IH.
    cbn [filter triggers]. unfold on_any_event.
    destruct (is_directory e || endswith (src_path e) (L ".config.json"));
      reflexivity.
  - pose proof (ws_step_no_rebuild st e) as Hno.
    destruct (ws_step st e) as [st1 out1]. cbn [snd] in Hno.
    specialize (IH st1). destruct (session st1 evs) as [st2 out2].
    cbn [snd] in *. rewrite filter_app, IH, Hno. reflexivity.
Qed.

Lemma ws_step_send_payload (st : ws_state) (ev : sock_event) (a : action) :
  In a (snd (ws_step st ev)) -> is_send a = true -> a = Send (L "reload").
Proof.
  destruct st, ev as [|[|c d]|e]; cbn [ws_step snd In]; intros H Ha;
    try contradiction; destruct H as [<-|[]]; try discriminate; reflexivity.
Qed.

Lemma ws_step_send_count (st : ws_state) (ev : sock_event) :
  length (filter is_send (snd (ws_step st ev)))
  <= if brings_data (Socket ev) then 1 else 0.
Proof. destruct st, ev as [|[|c d]|e]; cbn; lia. Qed.

Lemma session_ended (evs : list event) :
  fst (session Ended evs) = Ended
  /\ filter is_send (snd (session Ended evs)) = [].
Proof.
  induction evs as [|ev evs [IH1 IH2]]; [split; reflexivity|].
  cbn [session].
  assert (E : exists out, session_step Ended ev = (Ended, out)
                          /\ filter is_send out = []).
  { destruct ev as [e|e]; cbn [session_step].
    - exists (on_any_event e). split; [reflexivity|].
      apply on_any_event_sends_nothing.
    - exists []. split; [now destruct e as [|[|c d]|x] | reflexivity]. }
  destruct E as (out & -> & Hout).
  destruct (session Ended evs) as [st2 out2]. cbn [fst snd] in *.
  split; [exact IH1|]. now rewrite filter_app, Hout, IH2.
Qed.

(** X2. The reload channel over a whole session: whatever it sends is the
    payload [reload]; it sends at most once per chunk of data received;
    and once [recv] has raised on the connection being served, the thread
    is over: nothing is sent any more, whatever connects or arrives. *)
Theorem reload_channel_sends_only_on_data_and_ends_on_error
        (st : ws_state) (evs later : list event) (e : exn) :
  (forall a, In a (snd (session st evs)) -> is_send a = true ->
             a = Send (L "reload"))
  /\ length (filter is_send (snd (session st evs)))
     <= length (filter brings_data evs)
  /\ filter is_send
       (snd (session Serving (Socket (RecvRaised e) :: later))) = []
  /\ fst (session Serving (Socket (RecvRaised e) :: later)) = Ended.
Proof.
  split; [|split; [|split]].
  - revert st; induction evs as [|ev evs IH]; intros st a Hin Ha;
      [contradiction|].
    cbn [session] in Hin. destruct ev as [f|s]; cbn [session_step] in Hin.
    + specialize (IH st). destruct (session st evs) as [st2 out2].
      cbn [snd] in *. apply in_app_or in Hin as [Hin|Hin]; [|now apply IH].
      pose proof (on_any_event_sends_nothing f) as Hno.
      assert (Hf : In a (filter is_send (on_any_event f)))
        by (apply filter_In; now split).
      rewrite Hno in Hf. contradiction.
    + pose proof (ws_step_send_payload st s a) as Hp.
      destruct (ws_step st s) as [st1 out1]. cbn [snd] in Hp.
      specialize (IH st1). destruct (session st1 evs) as [st2 out2].
      cbn [snd] in *. apply in_app_or in Hin as [Hin|Hin]; auto.
  - revert st; induction evs as [|ev evs IH]; intros st; [cbn; lia|].
    cbn [session]. destruct ev as [f|s]; cbn [session_step].
    + specialize (IH st). destruct (session st evs) as [st2 out2].
      cbn [snd] in *. rewrite filter_app, length_app.
      rewrite on_any_event_sends_nothing. cbn [filter brings_data length].
      lia.
    + pose proof (ws_step_send_count st s) as Hc.
      destruct (ws_step st s) as [st1 out1]. cbn [snd] in Hc.
      specialize (IH st1). destruct (session st1 evs) as [st2 out2].
      cbn [snd] in *. rewrite filter_app, length_app.
      cbn [filter]. destruct (brings_data (Socket s)); cbn [length]; lia.
  - cbn [session session_step ws_step].
    destruct (session_ended later) as [_ H].
    destruct (session Ended later) as [st2 out2]. exact H.
  - cbn [session session_step ws_step].
    destruct (session_ended later) as [H _].
    destruct (session Ended later) as [st2 out2]. exact H.
Qed.

(* ================================================================= *)
(** * The output tree after "Move pages to root" *)

Lemma str_eqb_true (a b : str) : str_eqb a b = true -> a = b.
Proof.
  revert b; induction a as [|x a IH]; intros [|y b]; simpl;
    try discriminate; [reflexivity|].
  rewrite andb_true_iff. intros [H1 H2].
  apply chr_eqb_eq in H1. apply IH in H2. congruence.
Qed.

Lemma strip_parts_same_prefix (a b c : list str) :
  strip_parts (a ++ b) (a ++ c) = strip_parts b c.
Proof.
  induction a as [|x a IH]; [reflexivity|].
  cbn [app strip_parts]. now rewrite str_eqb_refl.
Qed.

Lemma strip_parts_shorter (a b q r : list str) :
  strip_parts (a ++ b) q = Some r -> exists r', strip_parts a q = Some r'.
Proof.
  revert q; induction a as [|x a IH]; intros q H.
  - now exists q.
  - destruct q as [|y q]; cbn [app strip_parts] in *; [discriminate|].
    destruct (str_eqb x y); [now apply IH | discriminate].
Qed.

Lemma pages_path_shape (dist_path : path) :
  join dist_path (parse (L "pages"))
  = MkPath (p_anchor dist_path) (p_parts dist_path ++ [L "pages"]).
Proof. reflexivity. Qed.

Lemma in_pages_relative (dist_path p rel : path) :
  in_pages dist_path p = Some rel ->
  exists rest, rel = MkPath Relative rest.
Proof.
  unfold in_pages, relative_to.
  destruct (anchor_eqb _ _); [|discriminate].
  destruct (strip_parts _ _) as [rest|]; [|discriminate].
  intros H; inversion H. now exists rest.
Qed.

Lemma moved_entry_not_in_pages (dist_path : path) (rest : list str) :
  str_eqb (first_part (MkPath Relative rest)) (L "pages") = false ->
  in_pages dist_path (join dist_path (MkPath Relative rest)) = None.
Proof.
  intros Hfirst. unfold in_pages. rewrite pages_path_shape.
  unfold join, relative_to. cbn [is_absolute p_anchor p_parts anchor_eqb negb].
  rewrite anchor_eqb_refl, strip_parts_same_prefix.
  destruct rest as [|y rest]; [reflexivity|].
  cbn [strip_parts]. cbn [first_part p_parts] in Hfirst.
  destruct (str_eqb (L "pages") y) eqn:E; [|reflexivity].
  apply str_eqb_true in E. subst y. now rewrite str_eqb_refl in Hfirst.
Qed.

Lemma move_pages_result (dist_path : path) (t t' : tree) :
  move_pages dist_path t = Ret t' ->
  t' = map (fun pt : path * str =>
              match in_pages dist_path (fst pt) with
              | Some rel => (join dist_path rel, snd pt)
              | None => pt
              end) t
  /\ forall q rel, In q t -> in_pages dist_path (fst q) = Some rel ->
                   taken dist_path t (first_part rel) = false.
Proof.
  unfold move_pages.
  destruct (existsb _ t) eqn:Ex; [discriminate|].
  intros H; inversion H; subst t'; clear H. split; [reflexivity|].
  intros q rel Hq Hrel.
  destruct (taken dist_path t (first_part rel)) eqn:E; [|reflexivity].
  assert (Hex : existsb
                  (fun pt : path * str =>
                     match in_pages dist_path (fst pt) with
                     | Some rel => taken dist_path t (first_part rel)
                     | None => false
                     end) t = true).
  { apply existsb_exists. exists q. split; [exact Hq|]. now rewrite Hrel. }
  congruence.
Qed.

Lemma move_pages_nothing_left (dist_path : path) (t t' : tree) :
  move_pages dist_path t = Ret t' ->
  forall pt, In pt t' -> in_pages dist_path (fst pt) = None.
Proof.
  intros Hm. destruct (move_pages_result _ _ _ Hm) as [-> Hfree].
  intros pt Hin. apply in_map_iff in Hin as (q & <- & Hq).
  destruct (in_pages dist_path (fst q)) as [rel|] eqn:Hrel; [|exact Hrel].
  cbn [fst]. pose proof (Hfree q rel Hq Hrel) as Htk.
  destruct (in_pages_relative _ _ _ Hrel) as [rest ->].
  apply moved_entry_not_in_pages.
  unfold taken in Htk. now apply orb_false_iff in Htk as [Htk _].
Qed.

(** X3. When the move of [build_project] goes through, nothing is left at or
    below [dist/pages]: every file written below it has gone up one level,
    with its text, and every other file is where it was. *)
Theorem move_pages_empties_the_pages_directory
        (dist_path : path) (t t' : tree) :
  move_pages dist_path t = Ret t' ->
  (forall pt, In pt t' -> in_pages dist_path (fst pt) = None)
  /\ map snd t' = map snd t
  /\ (forall p text rel,
         In (p, text) t -> in_pages dist_path p = Some rel ->
         In (join dist_path rel, text) t')
  /\ (forall p text,
         In (p, text) t -> in_pages dist_path p = None -> In (p, text) t').
Proof.
  intros Hm. split; [exact (move_pages_nothing_left _ _ _ Hm)|].
  destruct (move_pages_result _ _ _ Hm) as [-> _].
  split; [|split].
  - rewrite map_map. apply map_ext. intros q.
    now destruct (in_pages dist_path (fst q)).
  - intros p text rel Hin Hrel. apply in_map_iff.
    exists (p, text). cbn [fst snd]. now rewrite Hrel.
  - intros p text Hin Hrel. apply in_map_iff.
    exists (p, text). cbn [fst snd]. now rewrite Hrel.
Qed.

Lemma move_pages_witness :
  (forall pt,
      In pt [ (parse (L "dist/index.html"), L "<p>home</p>");
              (parse (L "dist/blog/post.html"), L "<p>post</p>") ] ->
      in_pages (parse (L "dist")) (fst pt) = None)
  /\ map snd [ (parse (L "dist/index.html"), L "<p>home</p>");
               (parse (L "dist/blog/post.html"), L "<p>post</p>") ]
     = map snd [ (parse (L "dist/pages/index.html"), L "<p>home</p>");
                 (parse (L "dist/blog/post.html"), L "<p>post</p>") ]
  /\ (forall p text rel,
         In (p, text)
            [ (parse (L "dist/pages/index.html"), L "<p>home</p>");
              (parse (L "dist/blog/post.html"), L "<p>post</p>") ] ->
         in_pages (parse (L "dist")) p = Some rel ->
         In (join (parse (L "dist")) rel, text)
            [ (parse (L "dist/index.html"), L "<p>home</p>");
              (parse (L "dist/blog/post.html"), L "<p>post</p>") ])
  /\ (forall p text,
         In (p, text)
            [ (parse (L "dist/pages/index.html"), L "<p>home</p>");
              (parse (L "dist/blog/post.html"), L "<p>post</p>") ] ->
         in_pages (parse (L "dist")) p = None ->
         In (p, text)
            [ (parse (L "dist/index.html"), L "<p>home</p>");
              (parse (L "dist/blog/post.html"), L "<p>post</p>") ]).
Proof.
  apply (move_pages_empties_the_pages_directory
           (parse (L "dist"))
           [ (parse (L "dist/pages/index.html"), L "<p>home</p>");
             (parse (L "dist/blog/post.html"), L "<p>post</p>") ]).
  vm_compute. reflexivity.
Defined.

(** The name of a page directly under [pages] is taken when a directory
    of that name was written next to [pages]: the move raises. *)
Example move_pages_name_taken :
  move_pages (parse (L "dist"))
             [ (parse (L "dist/pages/about.html"), L "<p>page</p>");
               (parse (L "dist/about.html/index.html"), L "<p>dir</p>") ]
  = Raise OtherOSError.
Proof. vm_compute. reflexivity. Qed.

Lemma build_project_moved (W : World) (src_dir dist_dir : str)
      (minify : bool) (t : tree) :
  build_project W src_dir dist_dir minify = Some (Ret t) ->
  exists t0, move_pages (parse dist_dir) t0 = Ret t.
Proof.
  unfold build_project.
  destruct (build_files W 0 _ _ minify []) as [[t0|e]|]; try discriminate.
  intros H; inversion H. now exists t0.
Qed.

Lemma nothing_at_index_path (dist_dir : str) (t : tree) :
  (forall pt, In pt t -> in_pages (parse dist_dir) (fst pt) = None) ->
  tree_at (join (join (parse dist_dir) (parse (L "pages")))
                (parse (L "index.html"))) t = [].
Proof.
  intros Hfree. unfold tree_at.
  induction t as [|pt t IH]; [reflexivity|].
  cbn [filter].
  assert (Hpt : in_pages (parse dist_dir) (fst pt) = None)
    by (apply Hfree; now left).
  destruct (relative_to (fst pt) _) as [r|] eqn:Er.
  - exfalso. unfold in_pages in Hpt. rewrite pages_path_shape in *.
    unfold join, relative_to in *.
    change (parse (L "index.html")) with (MkPath Relative [L "index.html"])
      in Er.
    cbn [is_absolute p_anchor p_parts anchor_eqb negb] in *.
    destruct (anchor_eqb (p_anchor (fst pt)) (p_anchor (parse dist_dir)));
      [|discriminate].
    destruct (strip_parts
                ((p_parts (parse dist_dir) ++ [L "pages"])
                   ++ [L "index.html"]) (p_parts (fst pt)))
      as [r0|] eqn:E0; [|discriminate].
    destruct (strip_parts_shorter _ _ _ _ E0) as [r' Hr'].
    now rewrite Hr' in Hpt.
  - apply IH. intros q Hq. apply Hfree. now right.
Qed.

(** X4. The dev session never puts the reload script into a page: after the
    first build there is no [dist/pages/index.html], because the build has
    moved the pages to the root of [dist], so the page is neither read nor
    rewritten. *)
Theorem reload_script_is_never_injected
        (W : World) (src_dir dist_dir : str) (no_reload : bool) (t : tree) :
  build_project W src_dir dist_dir false = Some (Ret t) ->
  inject_reload dist_dir no_reload t = Ret t.
Proof.
  intros Hb. destruct (build_project_moved _ _ _ _ _ Hb) as [t0 Hm].
  pose proof (move_pages_nothing_left _ _ _ Hm) as Hfree.
  unfold inject_reload. now rewrite (nothing_at_index_path dist_dir t Hfree).
Qed.

Lemma reload_script_witness :
  inject_reload (L "/site/dist") false
    [ (parse (L "/site/dist/index.html"),
       L "<title>Hi</title><style>body { margin: 0 }</style><script>let x = 1;</script>");
      (parse (L "/site/dist/b/c.html"), L "<p>deep</p>") ]
  = Ret [ (parse (L "/site/dist/index.html"),
           L "<title>Hi</title><style>body { margin: 0 }</style><script>let x = 1;</script>");
          (parse (L "/site/dist/b/c.html"), L "<p>deep</p>") ].
Proof.
  apply (reload_script_is_never_injected
           Demo.site (L "/site/src") (L "/site/dist") false).
  vm_compute. reflexivity.
Defined.

(** Where a page [dist/pages/index.html] is there, the script goes before
    every [</body>]. *)
Example inject_reload_on_a_page :
  inject_reload (L "dist") false
    [ (parse (L "dist/pages/index.html"), L "<body>hi</body>") ]
  = Ret [ (parse (L "dist/pages/index.html"),
           L "<body>hi" ++ reload_script false ++ L "</body>") ].
Proof. vm_compute. reflexivity. Qed.

(* ================================================================= *)
(** * Paths: requests, references and output places *)

Lemma lstrip_by_twice (drop : ascii -> bool) (s : str) :
  lstrip_by drop (lstrip_by drop s) = lstrip_by drop s.
Proof.
  induction s as [|c s IH]; [reflexivity|].
  cbn [lstrip_by]. destruct (drop c) eqn:E; [exact IH|].
  cbn [lstrip_by]. now rewrite E.
Qed.

Lemma parse_stripped_is_relative (s : str) :
  parse (lstrip_chr slash s)
  = MkPath Relative (filter is_segment (split slash (lstrip_chr slash s))).
Proof.
  unfold parse. unfold lstrip_chr at 2 3.
  rewrite lstrip_by_twice. fold (lstrip_chr slash s).
  now rewrite Nat.sub_diag.
Qed.

Lemma segments_of_stripped (s : str) :
  filter is_segment (split slash (lstrip_chr slash s))
  = filter is_segment (split slash s).
Proof.
  induction s as [|c s IH]; [reflexivity|].
  unfold lstrip_chr, split in *. cbn [lstrip_by split_go].
  rewrite (chr_eqb_sym slash c).
  destruct (chr_eqb c slash) eqn:E; [|cbn [split_go]; now rewrite E].
  cbn [rev filter]. exact IH.
Qed.

(** X5. [translate_path] answers the output directory followed by the
    segments of the request's path, in their order, without the empty ones
    and the [.] ones: whatever slashes the path starts with, the request
    cannot take the place of the output directory. *)
Theorem translate_path_appends_request_segments
        (dist_dir request p : str) :
  Url.urlparse_path request = Some p ->
  translate_path dist_dir request
  = Some (path_str (MkPath (p_anchor (parse dist_dir))
                           (p_parts (parse dist_dir)
                              ++ filter is_segment (split slash p)))).
Proof.
  intros Hp. unfold translate_path. rewrite Hp.
  rewrite parse_stripped_is_relative, segments_of_stripped.
  reflexivity.
Qed.

Lemma translate_path_witness :
  translate_path (L "/srv/dist") (L "///etc/.//passwd?q=1")
  = Some (L "/srv/dist/etc/passwd").
Proof.
  exact (translate_path_appends_request_segments
           (L "/srv/dist") (L "///etc/.//passwd?q=1") (L "/etc/.//passwd")
           eq_refl).
Defined.

Lemma parse_rooted (rest : str) :
  is_absolute (parse (slash :: rest)) = true.
Proof.
  unfold is_absolute, parse. cbn [p_anchor].
  unfold lstrip_chr. cbn [lstrip_by]. unfold slash at 1 3.
  rewrite chr_eqb_refl.
  pose proof (lstrip_by_length (chr_eqb slash) rest) as Hl.
  cbn [length].
  destruct (S (length rest) - length (lstrip_by (chr_eqb slash) rest))
    as [|[|[|n]]] eqn:E; try reflexivity.
  unfold slash in *. lia.
Qed.

(** X6. A reference that starts with a slash is resolved from the root of the
    file system: the directory of the referencing file plays no part. *)
Theorem rooted_reference_ignores_the_referencing_file
        (W : World) (rest : str) (file1 file2 : path) :
  resolve_inline_path W (slash :: rest) file1
  = resolve_inline_path W (slash :: rest) file2
  /\ resolve_inline_path W (slash :: rest) file1
     = try_except
         (resolved_path <- resolve W (parse (slash :: rest)) ;;
          found <- exists_ W resolved_path ;;
          Ret (if found then Some resolved_path else None))%res
         is_OSError (fun _ => Ret None).
Proof.
  unfold resolve_inline_path, join. rewrite parse_rooted. split; reflexivity.
Qed.

Lemma strip_parts_firstn (k : nat) (l : list str) :
  strip_parts (firstn k l) l = Some (skipn k l).
Proof.
  revert l; induction k as [|k IH]; intros [|x l]; try reflexivity.
  cbn [firstn strip_parts skipn]. now rewrite str_eqb_refl.
Qed.

(** X7. [process_file] can place a file exactly when its path has at least two
    segments; [parents[1]] raises on a shorter one.  The place is the
    output directory followed by the last two segments. *)
Theorem output_path_of_needs_two_segments (file_path output_dir : path) :
  output_path_of file_path output_dir
  = if length (p_parts file_path) <? 2 then Raise OtherException
    else Ret (MkPath (p_anchor output_dir)
                     (p_parts output_dir
                        ++ skipn (length (p_parts file_path) - 2)
                                 (p_parts file_path))).
Proof.
  unfold output_path_of, parents.
  destruct (length (p_parts file_path)) as [|[|n]] eqn:En; try reflexivity.
  replace (1 <? S (S n)) with true by (symmetry; apply Nat.ltb_lt; lia).
  replace (S (S n) <? 2) with false by (symmetry; apply Nat.ltb_ge; lia).
  unfold relative_to. cbn [p_anchor p_parts].
  rewrite anchor_eqb_refl, strip_parts_firstn. reflexivity.
Qed.

(* ================================================================= *)
(** * Assets that cannot be read *)

Lemma css_repl_yields_nothing (W : World) (file_path : path) (m : mobj) :
  is_external (strip (group 1 m)) = true
  \/ yields_nothing W file_path (strip (group 1 m)) ->
  css_repl W file_path m = Ret (m_text m).
Proof.
  unfold css_repl, yields_nothing.
  intros [-> | H]; [reflexivity|].
  destruct (is_external (strip (group 1 m))); [reflexivity|].
  destruct H as [-> | (p & -> & Hread)]; cbn [bind]; [reflexivity|].
  unfold load_file_content, try_except, bind.
  destruct Hread as [-> | ->]; reflexivity.
Qed.

Lemma js_repl_yields_nothing (W : World) (file_path : path) (m : mobj) :
  is_external (strip (group 1 m)) = true
  \/ yields_nothing W file_path (strip (group 1 m)) ->
  js_repl W file_path m = Ret (m_text m).
Proof.
  unfold js_repl, yields_nothing.
  intros [-> | H]; [reflexivity|].
  destruct (is_external (strip (group 1 m))); [reflexivity|].
  destruct H as [-> | (p & -> & Hread)]; cbn [bind]; [reflexivity|].
  unfold load_file_content, try_except, bind.
  destruct Hread as [-> | ->]; reflexivity.
Qed.

(** X8. A document in which every stylesheet tag has an external
    reference or a local one that yields no text (it does not resolve, or
    its file is gone or empty) comes back from [inline_css] as it is: the
    tags stay in place, nothing is raised and the compressor is not asked.
    [inline_js] does the same for the script tags. *)
Theorem tags_of_references_without_text_stay_in_place
        (W : World) (content : str) (file_path : path) :
  ((forall m, In m (finditer re_link content) ->
      is_external (strip (group 1 m)) = true
      \/ yields_nothing W file_path (strip (group 1 m))) ->
   inline_css W content file_path = Ret content)
  /\ ((forall m, In m (finditer re_script content) ->
         is_external (strip (group 1 m)) = true
         \/ yields_nothing W file_path (strip (group 1 m))) ->
      inline_js W content file_path = Ret content).
Proof.
  split; intros H.
  - apply sub_res_same. intros m Hm.
    exact (css_repl_yields_nothing W file_path m (H m Hm)).
  - apply sub_res_same. intros m Hm.
    exact (js_repl_yields_nothing W file_path m (H m Hm)).
Qed.

Lemma tags_stay_witness :
  inline_css Demo.failing
    (L "<link rel='stylesheet' href='gone.css'><p>50%</p>") Demo.index_html
  = Ret (L "<link rel='stylesheet' href='gone.css'><p>50%</p>").
Proof.
  apply (proj1 (tags_of_references_without_text_stay_in_place
                  Demo.failing
                  (L "<link rel='stylesheet' href='gone.css'><p>50%</p>")
                  Demo.index_html)).
  intros m Hm. vm_compute in Hm. destruct Hm as [<- | []].
  right. left. vm_compute. reflexivity.
Defined.

Lemma render_res_raises (f : mobj -> res str) (ps : list piece) (m : mobj)
      (e : exn) (t : str) :
  In m (hits ps) -> f m = Raise e -> render_res f ps <> Ret t.
Proof.
  intros Hin Hf. revert t.
  induction ps as [|[c|m'] ps IH]; intros t; cbn [hits] in Hin.
  - destruct Hin.
  - cbn [render_res].
    destruct (render_res f ps) as [u|e'] eqn:E; [|discriminate].
    exfalso. exact (IH Hin u eq_refl).
  - cbn [render_res]. destruct Hin as [-> | Hin].
    + rewrite Hf. discriminate.
    + destruct (f m') as [x|e1]; [|discriminate].
      destruct (render_res f ps) as [u|e'] eqn:E; [|discriminate].
      exfalso. exact (IH Hin u eq_refl).
Qed.

Lemma load_file_content_raises (W : World) (p : path) (e : exn) :
  read_text W p = Raise e -> e <> FileNotFoundError ->
  load_file_content W p = Raise e.
Proof.
  intros Hread He. unfold load_file_content, try_except, bind.
  rewrite Hread. destruct e; [congruence| | |]; reflexivity.
Qed.

(** X19. A local reference that resolves to something that cannot be read
    for another reason than being gone (a directory, as for an empty
    [src] or [href]; a file without read permission) ends the inliner: the
    error of the read leaves [inline_css] or [inline_js], which returns no
    document, whatever else the document holds. *)
Theorem unreadable_asset_ends_the_inliner
        (W : World) (content : str) (file_path p : path) (m : mobj)
        (e : exn) (t : str) :
  is_external (strip (group 1 m)) = false ->
  resolve_inline_path W (strip (group 1 m)) file_path = Ret (Some p) ->
  read_text W p = Raise e -> e <> FileNotFoundError ->
  (In m (finditer re_link content) ->
   inline_css W content file_path <> Ret t)
  /\ (In m (finditer re_script content) ->
      inline_js W content file_path <> Ret t).
Proof.
  intros Hext Hres Hread He.
  pose proof (load_file_content_raises W p e Hread He) as Hload.
  split; intros Hin.
  - apply (render_res_raises _ _ m e t Hin).
    unfold css_repl. rewrite Hext, Hres. cbn [bind]. now rewrite Hload.
  - apply (render_res_raises _ _ m e t Hin).
    unfold js_repl. rewrite Hext, Hres. cbn [bind]. now rewrite Hload.
Qed.

Lemma unreadable_asset_witness :
  inline_js Demo.hostile (L "<p>x</p><script src=''></script>")
            Demo.index_html
  <> Ret (L "<p>x</p><script src=''></script>").
Proof.
  apply (proj2 (unreadable_asset_ends_the_inliner
                  Demo.hostile (L "<p>x</p><script src=''></script>")
                  Demo.index_html (parse (L "/site/src/pages"))
                  (MkMatch (L "<script src=''></script>") [(1, [])])
                  OtherOSError (L "<p>x</p><script src=''></script>")
                  eq_refl eq_refl eq_refl
                  (fun H => match H with eq_refl => I end))).
  vm_compute. left. reflexivity.
Defined.

(* ================================================================= *)
(** * Script blocks: more than one, and none *)

Lemma star_none (g : bool) (p : cset) (k : str -> option hit)
      (Q : str -> Prop) :
  (forall c t, Q (c :: t) -> Q t) ->
  (forall t, Q t -> k t = None) ->
  forall s, Q s -> star g p s k = None.
Proof.
  intros Htail Hk. induction s as [|c s IH]; intros HQ.
  - destruct g; cbn [star]; now rewrite (Hk [] HQ).
  - pose proof (IH (Htail _ _ HQ)) as IH'.
    destruct g; cbn [star]; rewrite IH', (Hk _ HQ); now destruct (p c).
Qed.

Lemma rep_none (g : bool) (p : cset) (k : str -> option hit)
      (Q : str -> Prop) :
  (forall c t, Q (c :: t) -> Q t) ->
  (forall t, Q t -> k t = None) ->
  forall n s, Q s -> rep g n p s k = None.
Proof.
  intros Htail Hk. induction n as [|n IH]; intros s HQ.
  - cbn [rep]. now apply (star_none g p k Q).
  - cbn [rep]. destruct s as [|c s]; [reflexivity|].
    destruct (p c); [|reflexivity]. apply IH. now apply (Htail c).
Qed.

Lemma contains_tail (p : str) (c : ascii) (t : str) :
  contains p (c :: t) = false -> contains p t = false.
Proof. intros H. now apply contains_cons in H. Qed.

Lemma js_block_needs_opening (s : str) :
  contains (L ">%%") s = false -> match_here re_js_block s = None.
Proof.
  intros Hs. apply match_here_none. unfold re_js_block, lit.
  cbn [cat fold_right]. rewrite run_cat, run_lit.
  destruct (startswith s (L "<")) eqn:E; [|reflexivity].
  destruct s as [|c0 s]; [discriminate|]. cbn [length skipn L list_ascii_of_string].
  apply contains_tail in Hs.
  rewrite run_cat, run_grp, run_rep.
  apply (rep_none true letter _ (fun t => contains (L ">%%") t = false)).
  - intros c t. apply contains_tail.
  - intros t Ht. rewrite run_cat, run_rep.
    apply (rep_none true not_gt _ (fun t => contains (L ">%%") t = false)).
    + intros c u. apply contains_tail.
    + intros u Hu. apply run_cat_lit_fail.
      destruct u; cbn [contains] in Hu; now apply orb_false_iff in Hu as [Hu _].
    + exact Ht.
  - exact Hs.
Qed.

Lemma all_suffixes_tail_closed (Q : str -> bool) (s : str) :
  (forall c t, Q (c :: t) = true -> Q t = true) ->
  Q s = true -> all_suffixes Q s = true.
Proof.
  intros Htail. induction s as [|c s IH]; intros H; cbn [all_suffixes].
  - now rewrite H.
  - rewrite H. cbn [andb]. apply IH. now apply (Htail c).
Qed.

(** No script block in a text that does not hold [>%%]. *)
Lemma no_opening_no_script_block (content : str) :
  contains (L ">%%") content = false ->
  hits (scan re_js_block content) = [].
Proof.
  intros H. unfold scan.
  apply (scan_go_no_hits _ (fun t => negb (contains (L ">%%") t))).
  - intros t Ht. apply js_block_needs_opening. now apply negb_true_iff.
  - apply all_suffixes_tail_closed.
    + intros c t Ht. apply negb_true_iff in Ht. apply negb_true_iff.
      now apply (contains_tail _ c).
    + now apply negb_true_iff.
Qed.

Lemma render_nth_no_hits (f : nat -> mobj -> res str) (n : nat)
      (ps : list piece) :
  hits ps = [] -> render_nth f n ps = Ret (render m_text ps).
Proof.
  induction ps as [|[c|m] ps IH]; cbn [hits render_nth render]; intros H;
    [reflexivity| |discriminate].
  now rewrite IH.
Qed.

Lemma render_nth_keep (f : nat -> mobj -> res str) (n : nat) (a : str)
      (ps : list piece) :
  render_nth f n (map Keep a ++ ps)
  = match render_nth f n ps with
    | Ret t => Ret (a ++ t)
    | Raise e => Raise e
    end.
Proof.
  induction a as [|c a IH]; cbn [map app render_nth].
  - now destruct (render_nth f n ps).
  - rewrite IH. now destruct (render_nth f n ps).
Qed.

(** X9. A text that nowhere holds [>%%], the end of an opening tag followed by
    the block marker, holds no script block: [process_js_blocks] returns
    it as it is, and neither the minifier nor the identifier source is
    asked.  Percent signs elsewhere do no harm. *)
Theorem text_without_block_opening_has_no_script_block
        (W : World) (n : nat) (content : str) :
  contains (L ">%%") content = false ->
  finditer re_js_block content = []
  /\ process_js_blocks W n content = Ret content.
Proof.
  intros H.
  pose proof (no_opening_no_script_block content H) as Hno.
  split; [exact Hno|].
  unfold process_js_blocks, sub_nth.
  rewrite (render_nth_no_hits _ _ _ Hno). now rewrite scan_text.
Qed.

Lemma text_without_block_opening_witness :
  finditer re_js_block (L "<p style='width:50%'>20%% off</p>") = []
  /\ process_js_blocks Demo.failing 0
                       (L "<p style='width:50%'>20%% off</p>")
     = Ret (L "<p style='width:50%'>20%% off</p>").
Proof.
  apply (text_without_block_opening_has_no_script_block
           Demo.failing 0 (L "<p style='width:50%'>20%% off</p>")).
  reflexivity.
Defined.

Lemma js_block_needs_lt (c : ascii) (t : str) :
  c <> "<"%char -> match_here re_js_block (c :: t) = None.
Proof.
  intros H. apply match_here_none. unfold re_js_block, lit.
  cbn [cat fold_right]. apply run_cat_lit_fail.
  change (L "<") with ("<"%char :: []). now apply startswith_head_neq.
Qed.

Lemma js_block_hit (tag attrs body rest : str) :
  tag <> [] -> forallb letter tag = true ->
  forallb not_gt attrs = true -> stops letter (attrs ++ L ">") = true ->
  lacks "%"%char body = true ->
  scan re_js_block (js_block tag attrs body ++ rest)
  = Hit (MkMatch (js_block tag attrs body) [(2, body); (1, tag)])
    :: scan re_js_block rest.
Proof.
  intros Hne Htag Hattrs Hstop Hbody.
  assert (HneM : js_block tag attrs body <> [])
    by (unfold js_block; simpl; discriminate).
  apply (scan_hit_app _ _ _ _ HneM); [|reflexivity].
  apply match_here_intro. unfold js_block. rewrite <- !app_assoc.
  now apply js_block_run.
Qed.

Lemma replace_js_block_result (W : World) (n : nat) (m : mobj) (js : str) :
  jsmin W (strip (group 2 m)) = Ret js ->
  replace_js_block W n m = Ret (rewritten_block (group 1 m) (uuid4 W n) js).
Proof. intros H. unfold replace_js_block. now rewrite H. Qed.

(** X10. Two script blocks of one document, with text without [<] between
    them, are rewritten each with an identifier of its own: the first
    block gets the next identifier drawn, the second the one after it. *)
Theorem each_script_block_draws_its_own_identifier
        (W : World) (n : nat)
        (tag1 attrs1 body1 js1 mid tag2 attrs2 body2 js2 : str) :
  tag1 <> [] -> forallb letter tag1 = true ->
  forallb not_gt attrs1 = true -> stops letter (attrs1 ++ L ">") = true ->
  lacks "%"%char body1 = true -> jsmin W (strip body1) = Ret js1 ->
  lacks "<"%char mid = true ->
  tag2 <> [] -> forallb letter tag2 = true ->
  forallb not_gt attrs2 = true -> stops letter (attrs2 ++ L ">") = true ->
  lacks "%"%char body2 = true -> jsmin W (strip body2) = Ret js2 ->
  process_js_blocks W n
    (js_block tag1 attrs1 body1 ++ mid ++ js_block tag2 attrs2 body2)
  = Ret (rewritten_block tag1 (uuid4 W n) js1 ++ mid
           ++ rewritten_block tag2 (uuid4 W (S n)) js2).
Proof.
  intros N1 T1 A1 S1 B1 J1 Hmid N2 T2 A2 S2 B2 J2.
  unfold process_js_blocks, sub_nth.
  rewrite (js_block_hit tag1 attrs1 body1 _ N1 T1 A1 S1 B1).
  rewrite (scan_lacks_app _ "<"%char mid _ js_block_needs_lt Hmid).
  rewrite <- (app_nil_r (js_block tag2 attrs2 body2)).
  rewrite (js_block_hit tag2 attrs2 body2 [] N2 T2 A2 S2 B2).
  cbn [render_nth].
  rewrite (replace_js_block_result W n _ js1) by exact J1.
  rewrite render_nth_keep. cbn [render_nth].
  rewrite (replace_js_block_result W (S n) _ js2) by exact J2.
  change (scan re_js_block []) with (@nil piece). cbn [render_nth].
  cbn [group group_of m_caps Nat.eqb]. now rewrite app_nil_r.
Qed.

Lemma each_script_block_witness :
  process_js_blocks Demo.site 3
    (js_block (L "div") (L " id='a'") (L " 1 ") ++ L " and "
       ++ js_block (L "span") [] (L "2"))
  = Ret (rewritten_block (L "div") (uuid4 Demo.site 3) (L "1") ++ L " and "
           ++ rewritten_block (L "span") (uuid4 Demo.site 4) (L "2")).
Proof.
  apply (each_script_block_draws_its_own_identifier
           Demo.site 3 (L "div") (L " id='a'") (L " 1 ") (L "1") (L " and ")
           (L "span") [] (L "2") (L "2"));
    try reflexivity; discriminate.
Defined.

(* ================================================================= *)
(** * The forms of a placeholder *)

Lemma self_closing_hit (key rest : str) :
  match_here (re_placeholder key)
             ((L "<template:" ++ key ++ L " />") ++ rest)
  = Some (MkMatch (L "<template:" ++ key ++ L " />") []).
Proof.
  apply match_here_intro. unfold re_placeholder, lit.
  cbn [cat fold_right]. rewrite <- !app_assoc.
  rewrite run_cat, run_lit_app, run_cat, run_lit_app, run_cat.
  reflexivity.
Qed.

Lemma closing_hit (key rest : str) :
  match_here (re_closing key)
             ((L "</template:" ++ key ++ L ">") ++ rest)
  = Some (MkMatch (L "</template:" ++ key ++ L ">") []).
Proof.
  apply match_here_intro. unfold re_closing, lit.
  cbn [cat fold_right]. rewrite <- !app_assoc.
  rewrite run_cat, run_lit_app, run_cat, run_lit_app, run_cat.
  reflexivity.
Qed.

(** X11. One round of [process_template] replaces the self-closing form of the
    key's placeholder by the value as well, and removes a closing tag of
    the key that stands further on in the text. *)
Theorem self_closing_placeholder_and_closing_tag
        (key value A B C : str) :
  plain_key key = true -> plain_value value = true ->
  contains (L "<template:") A = false ->
  contains (L "<template:") (B ++ L "</template:" ++ key ++ L ">" ++ C)
  = false ->
  contains (L "</template:") (A ++ value ++ B) = false ->
  contains (L "</template:") C = false ->
  process_template
    (A ++ (L "<template:" ++ key ++ L " />") ++ B
       ++ (L "</template:" ++ key ++ L ">") ++ C)
    [(key, value)]
  = Some (A ++ value ++ B ++ C).
Proof.
  intros Hk Hv HA HB HAvB HC.
  cbn [process_template]. rewrite Hk, Hv. cbn [andb]. f_equal.
  assert (E1 : sub (re_placeholder key) (fun _ => value)
                   (A ++ (L "<template:" ++ key ++ L " />") ++ B
                      ++ (L "</template:" ++ key ++ L ">") ++ C)
               = (A ++ value ++ B)
                   ++ (L "</template:" ++ key ++ L ">") ++ C).
  { unfold sub.
    assert (Hne : L "<template:" ++ key ++ L " />" <> [])
      by (simpl; discriminate).
    pose proof (scan_hit_app _ _ _ _ Hne
                  (self_closing_hit key
                     (B ++ (L "</template:" ++ key ++ L ">") ++ C))
                  eq_refl) as Hhit.
    rewrite placeholder_pattern_shape in *.
    rewrite (scan_no_opening_app (L "template:") _ A
               ((L "<template:" ++ key ++ L " />") ++ B
                  ++ (L "</template:" ++ key ++ L ">") ++ C)
               eq_refl HA eq_refl).
    rewrite Hhit.
    rewrite <- ?app_assoc.
    rewrite (scan_no_opening (L "template:") _ _ eq_refl HB).
    rewrite render_keep. cbn [render]. rewrite render_keeps.
    now rewrite <- ?app_assoc. }
  rewrite E1. unfold sub.
  assert (Hne : L "</template:" ++ key ++ L ">" <> [])
    by (simpl; discriminate).
  pose proof (scan_hit_app _ _ _ _ Hne (closing_hit key C) eq_refl) as Hhit.
  rewrite closing_pattern_shape in *.
  rewrite (scan_no_opening_app (L "/template:") _ (A ++ value ++ B)
             ((L "</template:" ++ key ++ L ">") ++ C) eq_refl HAvB eq_refl).
  rewrite Hhit, (scan_no_opening (L "/template:") _ C eq_refl HC).
  rewrite render_keep. cbn [render]. rewrite render_keeps.
  now rewrite <- ?app_assoc.
Qed.

Lemma self_closing_witness :
  process_template
    (L "<h1>" ++ (L "<template:" ++ L "title" ++ L " />") ++ L "</h1><p>"
       ++ (L "</template:" ++ L "title" ++ L ">") ++ L "</p>")
    [(L "title", L "Hello")]
  = Some (L "<h1>" ++ L "Hello" ++ L "</h1><p>" ++ L "</p>").
Proof.
  apply (self_closing_placeholder_and_closing_tag
           (L "title") (L "Hello") (L "<h1>") (L "</h1><p>") (L "</p>"));
    reflexivity.
Defined.

(* ================================================================= *)
(** * Minifying twice *)

Lemma collapse_single_spaced (s : str) :
  single_spaced s = true ->
  collapse_runs false s = s
  /\ (stops is_space s = true -> collapse_runs true s = s).
Proof.
  unfold single_spaced. induction s as [|c s IH]; intros H.
  - split; reflexivity.
  - cbn [all_suffixes] in H. apply andb_true_iff in H as [Hl Hs].
    destruct (IH Hs) as [IH1 IH2].
    cbn [lone_space] in Hl. cbn [collapse_runs stops].
    destruct (is_space c) eqn:Hc.
    + apply andb_true_iff in Hl as [Hsp Hst].
      apply chr_eqb_eq in Hsp. subst c.
      split; [now rewrite (IH2 Hst) | discriminate].
    + split; [now rewrite IH1 | intros _; now rewrite IH1].
Qed.

Lemma squeeze_gap_free (s : str) :
  gap_free s = true -> squeeze_gaps s = s.
Proof.
  unfold gap_free. induction s as [|c s IH]; intros H; [reflexivity|].
  cbn [all_suffixes] in H. apply andb_true_iff in H as [Hg Hs].
  apply negb_true_iff in Hg. rewrite (squeeze_no_gap _ _ Hg).
  now rewrite (IH Hs).
Qed.

Lemma lstrip_by_kept (drop : ascii -> bool) (s : str) :
  stops drop s = true -> lstrip_by drop s = s.
Proof.
  destruct s as [|c s]; [reflexivity|].
  cbn [stops lstrip_by]. intros H. apply negb_true_iff in H. now rewrite H.
Qed.

Lemma strip_stops (s : str) : stops is_space (strip s) = true.
Proof.
  destruct (strip s) as [|c t] eqn:E; [reflexivity|].
  cbn [stops]. now rewrite (strip_head _ _ _ E).
Qed.

Lemma strip_twice (s : str) : strip (strip s) = strip s.
Proof.
  unfold strip at 1. rewrite (lstrip_by_kept _ _ (strip_stops s)).
  unfold strip, rstrip_by. rewrite rev_involutive.
  now rewrite lstrip_by_twice.
Qed.

Lemma minify_whitespace_passes (content : str) (remove_comments : bool) :
  minify_html content true remove_comments
  = strip (squeeze_gaps
             (collapse_runs false (minify_html content false remove_comments))).
Proof.
  unfold minify_html.
  rewrite sub_spaces, sub_between_tags by apply single_spaced_collapse.
  reflexivity.
Qed.

Lemma minified_shape (t : str) :
  single_spaced (strip (squeeze_gaps (collapse_runs false t))) = true
  /\ gap_free (strip (squeeze_gaps (collapse_runs false t))) = true.
Proof.
  destruct (squeeze_props (length (collapse_runs false t))
                          (collapse_runs false t) (le_n _)
                          (single_spaced_collapse false t)) as [S1 S2].
  split.
  - apply strip_keeps; [apply lone_space_prefix | exact S1].
  - apply strip_keeps; [apply no_gap_prefix | exact S2].
Qed.

(** X12. Minifying the whitespace of a minified text changes nothing, whether
    or not comments were removed the first time; minifying with comment
    removal a second time changes nothing either, unless the first run has
    left the opening [<!--] of a comment in its output. *)
Theorem minify_html_twice (content : str) (remove_comments : bool) :
  minify_html (minify_html content true remove_comments) true false
  = minify_html content true remove_comments
  /\ (contains (L "<!--") (minify_html content true true) = false ->
      minify_html (minify_html content true true) true true
      = minify_html content true true).
Proof.
  assert (Hws : forall rc,
             minify_html (minify_html content true rc) true false
             = minify_html content true rc).
  { intros rc. rewrite (minify_whitespace_passes (minify_html content true rc)).
    rewrite (minify_whitespace_passes content rc).
    set (t := minify_html content false rc).
    destruct (minified_shape t) as [S1 S2].
    change (minify_html (strip (squeeze_gaps (collapse_runs false t)))
                        false false)
      with (strip (squeeze_gaps (collapse_runs false t))).
    rewrite (proj1 (collapse_single_spaced _ S1)).
    rewrite (squeeze_gap_free _ S2). apply strip_twice. }
  split; [apply Hws|].
  intros Hno.
  rewrite (minify_whitespace_passes (minify_html content true true) true).
  assert (E : minify_html (minify_html content true true) false true
              = minify_html content true true).
  { unfold minify_html at 1. now apply sub_comment_none. }
  rewrite E.
  specialize (Hws true).
  rewrite (minify_whitespace_passes (minify_html content true true) false)
    in Hws.
  exact Hws.
Qed.

Lemma minify_html_twice_witness :
  minify_html (minify_html (L " <p> a   b </p>  <p>c</p> ") true true)
              true true
  = minify_html (L " <p> a   b </p>  <p>c</p> ") true true.
Proof.
  apply (proj2 (minify_html_twice (L " <p> a   b </p>  <p>c</p> ") true)).
  vm_compute. reflexivity.
Defined.

(** The output of the first run can hold a comment that only the removal
    of another one has put together; the second run removes it. *)
Example minify_html_twice_differs :
  minify_html (L "<!-<!-- a -->- b -->x") true true = L "<!-- b -->x"
  /\ minify_html (L "<!-- b -->x") true true = L "x".
Proof. split; vm_compute; reflexivity. Qed.

(* ================================================================= *)
(** * Include directives *)

Lemma star_greedy_app (p : cset) (a t : str) (k : str -> option hit)
      (h : hit) :
  forallb p a = true -> star true p t k = Some h ->
  star true p (a ++ t) k = Some h.
Proof.
  intros Ha Ht. induction a as [|x a IH]; [exact Ht|].
  cbn [forallb] in Ha. apply andb_true_iff in Ha as [Hx Ha].
  cbn [app star]. rewrite Hx. now rewrite (IH Ha).
Qed.

Lemma ref_char_facts (c : ascii) :
  ref_char c = true ->
  is_space c = false /\ not_gt c = true /\ dot c = true
  /\ c <> "%"%char /\ c <> "<"%char.
Proof.
  unfold ref_char. rewrite andb_true_iff, negb_true_iff. intros [Hs Hn].
  split; [exact Hs|].
  unfold none_of in Hn. apply negb_true_iff in Hn.
  change (existsb (chr_eqb c) (L "%<>"))
    with (chr_eqb c "%"%char || (chr_eqb c "<"%char
                                 || (chr_eqb c ">"%char || false))) in Hn.
  rewrite !orb_false_iff in Hn. destruct Hn as (H1 & H2 & H3 & _).
  repeat split.
  - unfold not_gt, none_of. cbn [L list_ascii_of_string existsb].
    now rewrite H3.
  - unfold dot. destruct (code c =? 10) eqn:E; [|reflexivity].
    apply Nat.eqb_eq in E. unfold is_space in Hs. rewrite E in Hs.
    discriminate.
  - now apply chr_eqb_neq.
  - now apply chr_eqb_neq.
Qed.

Lemma ref_text_facts (ref : str) :
  ref_text ref = true ->
  ref <> [] /\ forallb ref_char ref = true.
Proof.
  unfold ref_text. rewrite andb_true_iff, negb_true_iff.
  intros [H1 H2]. split; [|exact H1]. intros ->. discriminate.
Qed.

Lemma forallb_ref (q : ascii -> bool) (ref : str) :
  (forall c, ref_char c = true -> q c = true) ->
  forallb ref_char ref = true -> forallb q ref = true.
Proof.
  intros Hq H. apply forallb_forall. intros c Hc.
  apply Hq. now apply (proj1 (forallb_forall _ _) H).
Qed.

Lemma include_hit (ref rest : str) :
  ref_text ref = true ->
  match_here re_include (directive ref ++ rest)
  = Some (MkMatch (directive ref) []).
Proof.
  intros Href. destruct (ref_text_facts _ Href) as [Hne Hall].
  apply match_here_intro. unfold directive, re_include, lit.
  cbn [cat fold_right]. rewrite <- !app_assoc.
  change (L "<%@ ") with (L "<%@" ++ L " "). rewrite <- !app_assoc.
  rewrite run_cat, run_lit_app, run_cat, run_rep. cbn [rep].
  destruct ref as [|r0 ref]; [congruence|].
  cbn [forallb] in Hall. apply andb_true_iff in Hall as [H0 Hall].
  destruct (ref_char_facts _ H0) as (Hs0 & Hg0 & _).
  apply star_greedy_run; [reflexivity | cbn [app stops]; unfold space;
                          now rewrite Hs0 |].
  rewrite run_cat, run_rep. cbn [app rep]. rewrite Hg0.
  change (L " %>") with (L " " ++ L "%>"). rewrite <- app_assoc.
  rewrite (app_assoc ref (L " ")).
  apply star_greedy_app.
  - rewrite forallb_app. rewrite (forallb_ref not_gt ref); [reflexivity| |exact Hall].
    intros c Hc. now destruct (ref_char_facts _ Hc) as (_ & H & _).
  - reflexivity.
Qed.

Lemma include_ref_hit (ref : str) :
  ref_text ref = true ->
  exists m, match_here re_include_ref (directive ref) = Some m
            /\ group 1 m = ref.
Proof.
  intros Href. destruct (ref_text_facts _ Href) as [Hne Hall].
  exists (MkMatch (directive ref) [(1, ref)]). split; [|reflexivity].
  rewrite <- (app_nil_r (directive ref)) at 1.
  apply match_here_intro. unfold directive, re_include_ref, lit.
  cbn [cat fold_right]. rewrite <- !app_assoc.
  change (L "<%@ ") with (L "<%@" ++ L " "). rewrite <- !app_assoc.
  rewrite run_cat, run_lit_app, run_cat, run_rep. cbn [rep].
  apply star_greedy_run; [reflexivity | |].
  { destruct ref as [|r0 ref]; [congruence|].
    cbn [forallb] in Hall. apply andb_true_iff in Hall as [H0 _].
    destruct (ref_char_facts _ H0) as (Hs0 & _).
    cbn [app stops]. unfold space. now rewrite Hs0. }
  rewrite run_cat, run_grp, run_rep. cbn [rep].
  apply star_lazy_run.
  - apply (forallb_ref dot ref); [|exact Hall].
    intros c Hc. now destruct (ref_char_facts _ Hc) as (_ & _ & H & _).
  - intros c t Hc.
    assert (Hrc : ref_char c = true)
      by now apply (proj1 (forallb_forall _ _) Hall).
    destruct (ref_char_facts _ Hrc) as (Hs & _ & _ & Hp & _).
    rewrite run_cat, run_rep. cbn [rep].
    rewrite star_greedy_stop by (cbn [stops]; unfold space; now rewrite Hs).
    rewrite run_cat, run_lit.
    change (L "%>") with ("%"%char :: L ">").
    now rewrite startswith_head_neq.
  - rewrite consumed_app. reflexivity.
Qed.

Lemma rstrip_by_kept (drop : ascii -> bool) (s : str) :
  forallb (fun c => negb (drop c)) s = true -> rstrip_by drop s = s.
Proof.
  intros H. unfold rstrip_by.
  rewrite lstrip_by_kept; [apply rev_involutive|].
  destruct (rev s) as [|c t] eqn:E; [reflexivity|].
  cbn [stops]. apply (proj1 (forallb_forall _ _) H).
  apply in_rev. rewrite E. now left.
Qed.

Lemma strip_kept (s : str) :
  forallb (fun c => negb (is_space c)) s = true -> strip s = s.
Proof.
  intros H. unfold strip. rewrite lstrip_by_kept.
  - now apply rstrip_by_kept.
  - destruct s as [|c t]; [reflexivity|].
    cbn [stops]. cbn [forallb] in H. now apply andb_true_iff in H as [H _].
Qed.

Lemma strip_ref (ref : str) : ref_text ref = true -> strip ref = ref.
Proof.
  intros Href. destruct (ref_text_facts _ Href) as [_ Hall].
  apply strip_kept. apply (forallb_ref _ ref); [|exact Hall].
  intros c Hc. destruct (ref_char_facts _ Hc) as (Hs & _). now rewrite Hs.
Qed.

(** What [resolve_template_path] does with the directive of a reference
    is what [resolve_inline_path] does with the reference. *)
Lemma resolve_template_path_directive (W : World) (ref : str)
      (file_path : path) :
  ref_text ref = true ->
  resolve_template_path W (directive ref) file_path
  = resolve_inline_path W ref file_path.
Proof.
  intros Href. destruct (include_ref_hit ref Href) as (m & Hm & Hg).
  unfold resolve_template_path, resolve_inline_path.
  now rewrite Hm, Hg, (strip_ref ref Href).
Qed.

(** A pattern whose matches all start with the literal [<pat'], [pat']
    without [<], finds nothing in a text that does not hold the literal,
    also when a tag follows the text. *)
Lemma scan_skips_app (r : re) (pat' : str) (X rest : str) :
  (forall s, startswith s ("<"%char :: pat') = false ->
             match_here r s = None) ->
  lacks "<"%char pat' = true ->
  contains ("<"%char :: pat') X = false ->
  opens_tag rest = true ->
  scan r (X ++ rest) = map Keep X ++ scan r rest.
Proof.
  intros Hr Hpat HX Hrest. induction X as [|c X IH]; [reflexivity|].
  apply contains_cons in HX as [Hhere HX].
  cbn [app map]. rewrite scan_keep; [now rewrite IH|].
  apply Hr.
  destruct (startswith (c :: X ++ rest) ("<"%char :: pat')) eqn:E;
    [|reflexivity].
  exfalso.
  destruct (startswith_straddle _ (c :: X) rest E)
    as [Hl|(p2 & Hp2 & Hsplit & Hr2)]; [congruence|].
  cbn [app] in Hsplit. inversion Hsplit as [[Hc Hp]]. subst pat'.
  rewrite lacks_app in Hpat. apply andb_true_iff in Hpat as [_ Hp2'].
  destruct p2 as [|y p2]; [congruence|].
  cbn [lacks forallb] in Hp2'. apply andb_true_iff in Hp2' as [Hy _].
  apply negb_true_iff in Hy.
  destruct rest as [|z rest]; [discriminate|].
  unfold startswith in Hr2. cbn [prefix_by] in Hr2.
  apply andb_true_iff in Hr2 as [Hyz _]. apply chr_eqb_eq in Hyz. subst z.
  cbn [opens_tag] in Hrest. congruence.
Qed.

Lemma startswith_longer (s p q : str) :
  startswith s p = false -> startswith s (p ++ q) = false.
Proof.
  unfold startswith. revert s; induction p as [|x p IH]; intros s H;
    [discriminate|].
  destruct s as [|y s]; [reflexivity|].
  cbn [app prefix_by] in *. apply andb_false_iff in H as [H|H].
  - now rewrite H.
  - rewrite (IH s H). apply andb_false_r.
Qed.

(** [str.replace] on a text that holds the directive once. *)
Lemma replace_directive (ref new A B : str) :
  contains (L "<%@") A = false -> contains (L "<%@") B = false ->
  replace (directive ref) new (A ++ directive ref ++ B) = A ++ new ++ B.
Proof.
  intros HA HB. unfold replace, sub.
  assert (Hr : forall s, startswith s ("<"%char :: L "%@") = false ->
                         match_here (Lit false (directive ref)) s = None).
  { intros s Hs. apply match_here_none. rewrite run_lit.
    unfold directive. change (L "<%@ ") with (L "<%@" ++ L " ").
    rewrite <- !app_assoc.
    now rewrite (startswith_longer s (L "<%@") _ Hs). }
  assert (Hhit : match_here (Lit false (directive ref)) (directive ref ++ B)
                 = Some (MkMatch (directive ref) [])).
  { apply match_here_intro. now rewrite run_lit_app. }
  assert (Hne : directive ref <> [])
    by (unfold directive; simpl; discriminate).
  rewrite (scan_skips_app _ (L "%@") A (directive ref ++ B) Hr eq_refl HA
             eq_refl).
  rewrite (scan_hit_app _ _ _ _ Hne Hhit eq_refl).
  rewrite <- (app_nil_r B) at 1.
  rewrite (scan_skips_app _ (L "%@") B [] Hr eq_refl HB eq_refl).
  rewrite render_keep. cbn [render]. rewrite render_keep.
  change (scan (Lit false (directive ref)) []) with (@nil piece).
  cbn [render]. now rewrite app_nil_r.
Qed.

Lemma hits_keep (a : str) (ps : list piece) :
  hits (map Keep a ++ ps) = hits ps.
Proof. induction a as [|c a IH]; [reflexivity|exact IH]. Qed.

(** The include pattern finds the one directive of such a text. *)
Lemma finditer_include_one (ref A B : str) :
  ref_text ref = true ->
  contains (L "<%@") A = false -> contains (L "<%@") B = false ->
  map m_text (finditer re_include (A ++ directive ref ++ B))
  = [directive ref].
Proof.
  intros Href HA HB. unfold finditer.
  assert (Hr : forall s, startswith s ("<"%char :: L "%@") = false ->
                         match_here re_include s = None).
  { intros s Hs. apply match_here_none. unfold re_include, lit.
    cbn [cat fold_right]. now apply run_cat_lit_fail. }
  assert (Hne : directive ref <> [])
    by (unfold directive; simpl; discriminate).
  rewrite (scan_skips_app _ (L "%@") A (directive ref ++ B) Hr eq_refl HA
             eq_refl).
  rewrite (scan_hit_app _ _ _ _ Hne (include_hit ref B Href) eq_refl).
  rewrite <- (app_nil_r B).
  rewrite (scan_skips_app _ (L "%@") B [] Hr eq_refl HB eq_refl).
  change (scan re_include []) with (@nil piece).
  rewrite hits_keep. cbn [hits]. rewrite hits_keep. reflexivity.
Qed.

Lemma residual_none (s : str) :
  contains (L "<template:") s = false -> contains (L "<%%") s = false ->
  sub re_residual (fun _ => []) s = s.
Proof.
  intros H2 H3. apply sub_no_match. unfold finditer, scan.
  apply (scan_go_no_hits _
           (fun t => negb (startswith t (L "<template:"))
                     && negb (startswith t (L "<%%")))).
  - intros t Ht. apply andb_true_iff in Ht as [Ha Hb].
    apply negb_true_iff in Ha, Hb.
    apply match_here_none. unfold re_residual, lit.
    cbn [run cat fold_right]. now rewrite !prefix_by_lit_false, Ha, Hb.
  - rewrite all_suffixes_and, !all_suffixes_not_contains, H2, H3.
    reflexivity.
Qed.

Lemma no_data_block (s : str) :
  contains (L "<template:") s = false -> finditer re_data_block s = [].
Proof.
  intros H. unfold finditer, re_data_block, lit. cbn [cat fold_right].
  now apply no_marker_no_hits.
Qed.

Lemma resolved_path_exists (W : World) (ref : str) (file_path p : path) :
  resolve_inline_path W ref file_path = Ret (Some p) ->
  exists_ W p = Ret true.
Proof.
  unfold resolve_inline_path, try_except, bind.
  destruct (resolve W _) as [q|e].
  - destruct (exists_ W q) as [[|]|e] eqn:E.
    + intros H; inversion H; subst. exact E.
    + discriminate.
    + destruct (is_OSError e); discriminate.
  - destruct (is_OSError e); discriminate.
Qed.





Lemma simple_key_facts (key : str) :
  simple_key key = true ->
  plain_key key = true /\ lacks "<"%char key = true
  /\ forallb not_gt key = true.
Proof.
  unfold simple_key. rewrite !andb_true_iff.
  intros [[[H1 H2] H3] _]. repeat split; auto.
  apply forallb_forall. intros c Hc.
  unfold not_gt, none_of. cbn [L list_ascii_of_string existsb].
  rewrite orb_false_r. exact (proj1 (forallb_forall _ _) H3 c Hc).
Qed.

Lemma data_block_hit (key value rest : str) :
  key <> [] -> forallb not_gt key = true -> lacks "<"%char value = true ->
  match_here re_data_block (data_block key value ++ rest)
  = Some (MkMatch (data_block key value) [(2, value); (1, key)]).
Proof.
  intros Hne Hk Hv. apply match_here_intro.
  unfold data_block, re_data_block, lit. cbn [cat fold_right].
  rewrite <- !app_assoc.
  rewrite run_cat, run_lit_app, run_cat, run_grp, run_rep.
  apply rep_greedy_run;
    [exact Hk | destruct key; [congruence | simpl; lia] | reflexivity |].
  rewrite consumed_app.
  rewrite run_cat, run_lit_app, run_cat, run_grp, run_rep. cbn [rep].
  apply star_lazy_run; [apply forallb_any | |].
  - intros c t Hc. pose proof (lacks_In _ _ _ Hv Hc) as Hc'.
    rewrite run_cat, run_lit.
    change (L "</template:") with ("<"%char :: L "/template:").
    now rewrite startswith_head_neq.
  - rewrite consumed_app, run_cat, run_lit_app, run_cat.
    cbn [run group_of Nat.eqb].
    rewrite startswith_app, skipn_app_exact. reflexivity.
Qed.

Lemma block_of_hit (key value rest : str) :
  lacks "<"%char value = true ->
  match_here (re_block_of key) (data_block key value ++ rest)
  = Some (MkMatch (data_block key value) []).
Proof.
  intros Hv. apply match_here_intro.
  unfold data_block, re_block_of, lit. cbn [cat fold_right].
  rewrite <- !app_assoc.
  rewrite run_cat, run_lit_app, run_cat, run_lit_app, run_cat, run_lit_app.
  rewrite run_cat, run_rep. cbn [rep].
  apply star_lazy_run; [apply forallb_any | |].
  - intros c t Hc. pose proof (lacks_In _ _ _ Hv Hc) as Hc'.
    rewrite run_cat, run_lit.
    change (L "</template:") with ("<"%char :: L "/template:").
    now rewrite startswith_head_neq.
  - rewrite run_cat, run_lit_app, run_cat, run_lit_app, run_cat, run_lit_app.
    reflexivity.
Qed.

Lemma data_block_nonempty (key value : str) : data_block key value <> [].
Proof. unfold data_block. simpl. discriminate. Qed.

Lemma finditer_data_block_one (key value rest : str) :
  key <> [] -> forallb not_gt key = true -> lacks "<"%char value = true ->
  contains (L "<template:") rest = false ->
  finditer re_data_block (data_block key value ++ rest)
  = [MkMatch (data_block key value) [(2, value); (1, key)]].
Proof.
  intros Hne Hk Hv Hrest. unfold finditer.
  rewrite (scan_hit_app _ _ _ _ (data_block_nonempty key value)
             (data_block_hit key value rest Hne Hk Hv) eq_refl).
  cbn [hits]. f_equal. now apply no_data_block.
Qed.

Lemma sub_block_of_one (key value rest : str) :
  lacks "<"%char value = true ->
  contains (L "<template:") rest = false ->
  sub (re_block_of key) (fun _ => []) (data_block key value ++ rest) = rest.
Proof.
  intros Hv Hrest. unfold sub.
  rewrite (scan_hit_app _ _ _ _ (data_block_nonempty key value)
             (block_of_hit key value rest Hv) eq_refl).
  cbn [render app].
  assert (Hr : forall s, startswith s ("<"%char :: L "template:") = false ->
                         match_here (re_block_of key) s = None).
  { intros s Hs. apply match_here_none. unfold re_block_of, lit.
    cbn [cat fold_right]. now apply run_cat_lit_fail. }
  rewrite <- (app_nil_r rest) at 1.
  rewrite (scan_skips_app _ (L "template:") rest [] Hr eq_refl Hrest eq_refl).
  change (scan (re_block_of key) []) with (@nil piece).
  rewrite render_keep. cbn [render]. apply app_nil_r.
Qed.

(** X15. The whole include stage on a page with one data block and one include:
    the block's value, trimmed, takes the place of the key's placeholder
    in the included text, that text takes the place of the directive, and
    the data block itself is gone from the page. *)
Theorem include_fills_placeholder_from_data_block
        (W : World) (key value ref A B P1 P2 : str) (file_path p : path) :
  simple_key key = true -> key <> [] ->
  lacks "<"%char value = true -> plain_value (strip value) = true ->
  ref_text ref = true ->
  contains (L "<%@") (data_block key value ++ A) = false ->
  contains (L "<%@") B = false ->
  contains (L "<template:") (A ++ directive ref ++ B) = false ->
  no_template_tag P1 = true -> no_template_tag P2 = true ->
  no_template_tag (P1 ++ strip value ++ P2) = true ->
  contains (L "<template:") (A ++ (P1 ++ strip value ++ P2) ++ B) = false ->
  contains (L "<%%") (A ++ (P1 ++ strip value ++ P2) ++ B) = false ->
  resolve_inline_path W ref file_path = Ret (Some p) ->
  read_text W p = Ret (P1 ++ placeholder key ++ P2) ->
  resolve_includes W (data_block key value ++ A ++ directive ref ++ B)
                   file_path
  = Some (Ret (A ++ (P1 ++ strip value ++ P2) ++ B)).
Proof.
  intros Hkey Hkne Hv Hpv Href HdA HB Hdata HP1 HP2 HP Ht Hp Hres Hread.
  destruct (simple_key_facts key Hkey) as (Hplain & Hklt & Hkgt).
  pose proof (contains_app_r _ _ _ HdA) as HA.
  unfold resolve_includes.
  rewrite (app_assoc (data_block key value) A).
  rewrite (finditer_include_one ref _ B Href HdA HB).
  rewrite <- (app_assoc (data_block key value) A).
  rewrite (finditer_data_block_one key value _ Hkne Hkgt Hv Hdata).
  cbn [extract_data group group_of m_caps Nat.eqb dict_set].
  rewrite Hplain.
  rewrite (sub_block_of_one key value _ Hv Hdata).
  cbn [splice_includes].
  rewrite (resolve_template_path_directive W ref file_path Href), Hres.
  rewrite (resolved_path_exists W ref file_path p Hres).
  unfold load_file_content, try_except, bind. rewrite Hread.
  destruct (P1 ++ placeholder key ++ P2) as [|c partial] eqn:Epartial.
  { exfalso. destruct P1; discriminate. }
  rewrite <- Epartial.
  cbn [process_template]. rewrite Hplain, Hpv. cbn [andb].
  rewrite (sub_placeholder_same key (strip value) P1 P2 HP1 HP2).
  rewrite (sub_closing_none key _ HP).
  rewrite (replace_directive ref _ A B HA HB).
  now rewrite (residual_none _ Ht Hp).
Qed.

Lemma include_fills_placeholder_witness :
  resolve_includes Demo.site
    (data_block (L "title") (L " Hi ") ++ L "<head>"
       ++ directive (L "../partials/head.html") ++ L "</head>")
    Demo.index_html
  = Some (Ret (L "<head>" ++ (L "<title>" ++ strip (L " Hi ") ++ L "</title>")
                 ++ L "</head>")).
Proof.
  apply (include_fills_placeholder_from_data_block
           Demo.site (L "title") (L " Hi ") (L "../partials/head.html")
           (L "<head>") (L "</head>") (L "<title>") (L "</title>")
           Demo.index_html (parse (L "/site/src/partials/head.html")));
    try (vm_compute; reflexivity).
  discriminate.
Defined.

(* ================================================================= *)
(** * Plain pages and flat sites *)

Lemma contains_longer (c : ascii) (p s : str) :
  contains p s = false -> contains (c :: p) s = false.
Proof.
  induction s as [|a s IH]; intros H.
  - reflexivity.
  - apply contains_cons in H as [_ H].
    cbn [contains]. rewrite (IH H), orb_false_r.
    unfold startswith. cbn [prefix_by].
    assert (Hs : startswith s p = false).
    { destruct s; cbn [contains] in H; now apply orb_false_iff in H as [H _]. }
    unfold startswith in Hs. now rewrite Hs, andb_false_r.
Qed.

Lemma all_suffixes_not_contains_nocase (mk s : str) :
  all_suffixes (fun t => negb (prefix_by (lit_eqb true) mk t)) s
  = negb (contains_nocase mk s).
Proof.
  induction s as [|c s IH]; simpl.
  - now rewrite andb_true_r, orb_false_r.
  - rewrite IH. now rewrite negb_orb.
Qed.

Lemma no_marker_nocase_no_hits (mk : str) (r : re) (s : str) :
  contains_nocase mk s = false ->
  hits (scan (Cat (Lit true mk) r) s) = [].
Proof.
  intros H. unfold scan.
  apply (scan_go_no_hits _ (fun t => negb (prefix_by (lit_eqb true) mk t))).
  - intros t Ht. apply match_here_none. cbn [run].
    apply negb_true_iff in Ht. now rewrite Ht.
  - rewrite all_suffixes_not_contains_nocase, H. reflexivity.
Qed.

(** A plain page holds no match of any of the six patterns of
    [process_file]. *)
Lemma plain_page_no_matches (content : str) :
  plain_page content = true ->
  finditer re_include content = []
  /\ finditer re_data_block content = []
  /\ finditer re_residual content = []
  /\ finditer re_link content = []
  /\ finditer re_script content = []
  /\ finditer re_js_block content = [].
Proof.
  unfold plain_page. rewrite !andb_true_iff, !negb_true_iff.
  intros [[[[H1 H2] H3] H4] H5].
  assert (Hfree : markup_free content = true).
  { unfold markup_free. rewrite H1, H2.
    change (L "<%%") with ("<"%char :: L "%%").
    now rewrite (contains_longer "<"%char (L "%%") content H3). }
  destruct (markup_free_no_matches content Hfree) as (Hi & Hd & Hr).
  refine (conj Hi (conj Hd (conj Hr (conj _ (conj _ _))))).
  - unfold finditer. now apply no_marker_nocase_no_hits.
  - unfold finditer. now apply no_marker_nocase_no_hits.
  - unfold finditer. apply no_opening_no_script_block.
    exact (contains_longer ">"%char (L "%%") content H3).
Qed.

Lemma sub_res_no_match (r : re) (f : mobj -> res str) (s : str) :
  finditer r s = [] -> sub_res r f s = Ret s.
Proof. intros H. apply sub_res_same. rewrite H. intros m []. Qed.

Lemma resolve_includes_plain (W : World) (content : str) (file_path : path) :
  plain_page content = true ->
  resolve_includes W content file_path = Some (Ret content).
Proof.
  intros H. destruct (plain_page_no_matches content H) as (Hi & Hd & Hr & _).
  unfold resolve_includes.
  rewrite Hi, Hd. cbn [map extract_data splice_includes].
  now rewrite (sub_no_match _ _ _ Hr).
Qed.

Lemma transform_plain (W : World) (n : nat) (content : str)
      (file_path : path) (minify : bool) :
  plain_page content = true ->
  transform W n content file_path minify
  = Ret (if minify then minify_html content true true else content, n).
Proof.
  intros H.
  destruct (plain_page_no_matches content H) as (_ & _ & _ & Hl & Hs & Hj).
  unfold transform, inline_css, inline_js, process_js_blocks, sub_nth.
  rewrite (sub_res_no_match _ _ _ Hl). cbn [bind].
  rewrite (sub_res_no_match _ _ _ Hs). cbn [bind].
  rewrite Hj. unfold finditer in Hj.
  rewrite (render_nth_no_hits _ _ _ Hj), scan_text. cbn [bind length].
  now rewrite Nat.add_0_r.
Qed.

(** X16. A page that holds nothing the tool acts on goes through [process_file]
    as it was read: written unchanged without minification and as
    [minify_html] leaves it with it, no identifier drawn; when the page's
    path has no two segments the call raises instead. *)
Theorem plain_page_is_written_as_read
        (W : World) (n : nat) (content : str) (file_path output_dir : path)
        (minify : bool) :
  read_text W file_path = Ret content ->
  plain_page content = true ->
  process_file W n file_path output_dir minify
  = Some (output_path <- output_path_of file_path output_dir ;;
          Ret (output_path,
               if minify then minify_html content true true else content,
               n))%res.
Proof.
  intros Hread Hplain. unfold process_file. rewrite Hread.
  rewrite (resolve_includes_plain W content file_path Hplain).
  now rewrite (transform_plain W n content file_path minify Hplain).
Qed.

Lemma plain_page_witness :
  process_file flat_world 3 (parse (L "/site/src/pages/index.html"))
               (parse (L "/site/dist")) true
  = Some (Ret (parse (L "/site/dist/pages/index.html"),
               L "<h1>Home</h1><p>50% off</p>", 3)).
Proof.
  apply (plain_page_is_written_as_read
           flat_world 3 (L "<h1>Home</h1>  <p>50% off</p>")
           (parse (L "/site/src/pages/index.html"))
           (parse (L "/site/dist")) true);
    reflexivity.
Defined.

Lemma split_go_lacks (sep : ascii) (s cur : str) :
  lacks sep s = true -> split_go sep cur s = [rev cur ++ s].
Proof.
  revert cur; induction s as [|c s IH]; intros cur H; cbn [split_go].
  - now rewrite app_nil_r.
  - cbn [lacks forallb] in H. apply andb_true_iff in H as [Hc Hs].
    apply negb_true_iff in Hc. rewrite Hc, (IH (c :: cur) Hs).
    cbn [rev]. now rewrite <- app_assoc.
Qed.

Lemma parse_file_name (name : str) :
  file_name name = true -> parse name = MkPath Relative [name].
Proof.
  unfold file_name. intros H. apply andb_true_iff in H as [Hseg Hl].
  unfold parse, split. rewrite (split_go_lacks slash name [] Hl).
  cbn [rev app filter]. rewrite Hseg.
  assert (Hstrip : lstrip_chr slash name = name).
  { destruct name as [|c t]; [reflexivity|].
    unfold lstrip_chr. cbn [lstrip_by].
    cbn [lacks forallb] in Hl. apply andb_true_iff in Hl as [Hc _].
    apply negb_true_iff in Hc. rewrite chr_eqb_sym. now rewrite Hc. }
  rewrite Hstrip, Nat.sub_diag. reflexivity.
Qed.

Lemma join_pages_name (s : path) (name : str) :
  file_name name = true ->
  join (join s (parse (L "pages"))) (parse name)
  = MkPath (p_anchor s) (p_parts s ++ [L "pages"; name]).
Proof.
  intros H. rewrite (parse_file_name name H), pages_path_shape.
  unfold join. cbn [is_absolute p_anchor p_parts anchor_eqb negb].
  now rewrite <- app_assoc.
Qed.

Lemma join_name (d : path) (name : str) :
  file_name name = true ->
  join d (parse name) = MkPath (p_anchor d) (p_parts d ++ [name]).
Proof. intros H. now rewrite (parse_file_name name H). Qed.

Lemma tree_write_fresh (p : path) (text : str) (t : tree) :
  (forall q, In q t -> path_eqb (fst q) p = false) ->
  tree_write p text t = t ++ [(p, text)].
Proof.
  induction t as [|[q old] t IH]; intros H; cbn [tree_write app].
  - reflexivity.
  - pose proof (H (q, old) (or_introl eq_refl)) as Hq. cbn [fst] in Hq.
    rewrite Hq, IH; [reflexivity|]. intros q' Hq'. apply H. now right.
Qed.

Lemma join_with_snoc (sep : ascii) (pre : list str) (a : str) :
  pre <> [] -> join_with sep (pre ++ [a]) = join_with sep pre ++ sep :: a.
Proof.
  induction pre as [|x pre IH]; intros Hne; [congruence|].
  destruct pre as [|y pre]; [reflexivity|].
  change (join_with sep ((x :: y :: pre) ++ [a]))
    with (x ++ sep :: join_with sep ((y :: pre) ++ [a])).
  rewrite IH by discriminate.
  change (join_with sep (x :: y :: pre))
    with (x ++ sep :: join_with sep (y :: pre)).
  now rewrite <- app_assoc.
Qed.

Lemma path_str_snoc (a : anchor) (pre : list str) (x : str) :
  pre <> [] ->
  path_str (MkPath a (pre ++ [x]))
  = path_str (MkPath a pre) ++ slash :: x.
Proof.
  intros Hne. pose proof (join_with_snoc slash pre x Hne) as E.
  destruct pre as [|p pre]; [congruence|].
  unfold path_str. cbn [p_anchor p_parts].
  destruct a; cbn [app] in *; now rewrite E.
Qed.

Lemma path_eqb_sibling (a : anchor) (pre : list str) (x y : str) :
  pre <> [] ->
  path_eqb (MkPath a (pre ++ [x])) (MkPath a (pre ++ [y])) = true -> x = y.
Proof.
  intros Hne H. unfold path_eqb in H. apply andb_true_iff in H as [_ H].
  apply str_eqb_true in H.
  rewrite !path_str_snoc in H by exact Hne.
  apply app_inv_head in H. congruence.
Qed.

Lemma build_files_flat (W : World) (s d : path) (minify : bool)
      (text : str -> str) (names : list str) :
  (forall name, In name names ->
     file_name name = true
     /\ read_text W (page_of s name) = Ret (text name)
     /\ plain_page (text name) = true) ->
  forall (n : nat) (t : tree),
    build_files W n (map (page_of s) names) d minify t
    = Some (Ret (fold_left
                   (fun t name =>
                      tree_write (written_to d name)
                                 (written_text minify text name) t)
                   names t)).
Proof.
  induction names as [|name names IH]; intros H n t; [reflexivity|].
  destruct (H name (or_introl eq_refl)) as (Hname & Hread & Hplain).
  cbn [map build_files fold_left]. unfold process_file.
  rewrite Hread, (resolve_includes_plain W _ _ Hplain).
  rewrite (transform_plain W n _ _ minify Hplain). cbn [bind fst snd].
  unfold page_of at 1. rewrite (join_pages_name s name Hname).
  rewrite (output_path_of_last_two (p_anchor s) (p_parts s) (L "pages") name d).
  cbn [bind]. apply IH. intros x Hx. apply H. now right.
Qed.

Lemma written_to_sibling (d : path) (x y : str) :
  path_eqb (written_to d x) (written_to d y) = true -> x = y.
Proof.
  unfold written_to.
  change [L "pages"; x] with ([L "pages"] ++ [x]).
  change [L "pages"; y] with ([L "pages"] ++ [y]).
  rewrite !app_assoc. apply path_eqb_sibling.
  destruct (p_parts d); discriminate.
Qed.

Lemma fold_tree_write_fresh (d : path) (minify : bool) (text : str -> str)
      (names done : list str) :
  NoDup (done ++ names) ->
  fold_left (fun t name =>
               tree_write (written_to d name)
                          (written_text minify text name) t)
            names
            (map (fun name => (written_to d name,
                               written_text minify text name)) done)
  = map (fun name => (written_to d name, written_text minify text name))
        (done ++ names).
Proof.
  revert done; induction names as [|a names IH]; intros done Hnd.
  - now rewrite app_nil_r.
  - cbn [fold_left]. rewrite tree_write_fresh.
    + change [(written_to d a, written_text minify text a)]
        with (map (fun name => (written_to d name,
                                written_text minify text name)) [a]).
      rewrite <- map_app, IH; rewrite <- app_assoc; [reflexivity|exact Hnd].
    + intros q Hq. apply in_map_iff in Hq as (x & <- & Hx). cbn [fst].
      destruct (path_eqb (written_to d x) (written_to d a)) eqn:E;
        [|reflexivity].
      apply written_to_sibling in E. subst x. exfalso.
      apply NoDup_remove_2 in Hnd. apply Hnd. apply in_or_app. now left.
Qed.

Lemma in_pages_written_to (d : path) (name : str) :
  in_pages d (written_to d name) = Some (MkPath Relative [name]).
Proof.
  unfold in_pages, written_to. rewrite pages_path_shape.
  unfold relative_to. cbn [p_anchor p_parts].
  rewrite anchor_eqb_refl.
  rewrite <- (app_nil_r (p_parts d ++ [L "pages"])).
  rewrite <- !app_assoc. rewrite strip_parts_same_prefix.
  reflexivity.
Qed.

Lemma move_pages_flat (d : path) (minify : bool) (text : str -> str)
      (names : list str) :
  (forall name, In name names -> endswith name (L ".html") = true) ->
  move_pages d (map (fun name => (written_to d name,
                                  written_text minify text name)) names)
  = Ret (map (fun name =>
                (MkPath (p_anchor d) (p_parts d ++ [name]),
                 written_text minify text name))
             names).
Proof.
  intros Hhtml. unfold move_pages.
  destruct (existsb _ _) eqn:E.
  - exfalso. apply existsb_exists in E as (q & Hq & Hf).
    apply in_map_iff in Hq as (x & <- & Hx). cbn [fst] in Hf.
    rewrite in_pages_written_to in Hf. cbn [first_part p_parts] in Hf.
    unfold taken in Hf. apply orb_true_iff in Hf as [Hf | Hf].
    + apply str_eqb_true in Hf. subst x.
      specialize (Hhtml _ Hx). vm_compute in Hhtml. discriminate.
    + apply existsb_exists in Hf as (q & Hq & Hf).
      apply in_map_iff in Hq as (y & <- & Hy). cbn [fst] in Hf.
      rewrite in_pages_written_to in Hf. discriminate.
  - rewrite map_map. f_equal. apply map_ext. intros x. cbn [fst snd].
    rewrite in_pages_written_to. reflexivity.
Qed.

(** X17. A pages directory without subdirectories whose pages hold nothing the
    tool acts on is copied: the build's output is one file per [.html]
    name, directly in the output directory, under the same name and in
    listing order, with the page's text as read (as [minify_html] leaves
    it when minification is on); names without [.html] are skipped. *)
Theorem flat_site_of_plain_pages_is_copied
        (W : World) (src_dir dist_dir : str) (names : list str)
        (minify : bool) (text : str -> str) :
  walk W (join (parse src_dir) (parse (L "pages")))
  = [(join (parse src_dir) (parse (L "pages")), names)] ->
  NoDup names ->
  (forall name, In name names -> file_name name = true) ->
  (forall name, In name names -> endswith name (L ".html") = true ->
     read_text W (join (join (parse src_dir) (parse (L "pages")))
                       (parse name)) = Ret (text name)
     /\ plain_page (text name) = true) ->
  build_project W src_dir dist_dir minify
  = Some (Ret (map (fun name =>
                      (join (parse dist_dir) (parse name),
                       if minify then minify_html (text name) true true
                       else text name))
                   (filter (fun name => endswith name (L ".html")) names))).
Proof.
  intros Hwalk Hnd Hnames Hpages.
  set (hn := filter (fun name => endswith name (L ".html")) names).
  assert (Hin : forall name, In name hn ->
                  In name names /\ endswith name (L ".html") = true).
  { intros name H. now apply filter_In in H. }
  unfold build_project, html_files. rewrite Hwalk.
  cbn [flat_map fst snd]. rewrite app_nil_r. fold hn.
  change (map (fun file => join (join (parse src_dir) (parse (L "pages")))
                                (parse file)) hn)
    with (map (page_of (parse src_dir)) hn).
  rewrite (build_files_flat W (parse src_dir) (parse dist_dir) minify text hn).
  - pose proof (fold_tree_write_fresh (parse dist_dir) minify text hn []
                  (NoDup_filter _ Hnd)) as E.
    cbn [map app] in E. rewrite E. clear E.
    rewrite move_pages_flat.
    + f_equal. f_equal. apply map_ext_in. intros name Hname.
      destruct (Hin name Hname) as [Hn _].
      now rewrite (join_name (parse dist_dir) name (Hnames name Hn)).
    + intros name Hname. now apply Hin.
  - intros name Hname. destruct (Hin name Hname) as [Hn Hh].
    destruct (Hpages name Hn Hh) as [Hread Hplain].
    refine (conj (Hnames name Hn) (conj Hread Hplain)).
Qed.

Lemma flat_site_witness :
  build_project flat_world (L "/site/src") (L "/site/dist") false
  = Some (Ret [ (parse (L "/site/dist/index.html"),
                 L "<h1>Home</h1>  <p>50% off</p>");
                (parse (L "/site/dist/about.html"),
                 L "<!-- draft --><p>About</p>") ]).
Proof.
  apply (flat_site_of_plain_pages_is_copied
           flat_world (L "/site/src") (L "/site/dist")
           [L "index.html"; L "notes.txt"; L "about.html"] false
           (fun name => if str_eqb name (L "index.html")
                        then L "<h1>Home</h1>  <p>50% off</p>"
                        else L "<!-- draft --><p>About</p>")).
  - reflexivity.
  - repeat constructor; cbn [In]; intros H;
      repeat (destruct H as [H|H]; [discriminate|]); exact H.
  - intros name [<-|[<-|[<-|[]]]]; reflexivity.
  - intros name [<-|[<-|[<-|[]]]] H; try discriminate H;
      split; reflexivity.
Defined.

Lemma build_files_unreadable (W : World) (dist_path : path) (minify : bool)
      (f : path) (e : exn) :
  read_text W f = Raise e ->
  forall (files : list path) (n : nat) (t t' : tree),
    In f files ->
    build_files W n files dist_path minify t <> Some (Ret t').
Proof.
  intros Hread. induction files as [|a files IH]; intros n t t' Hin;
    [destruct Hin|].
  cbn [build_files]. destruct Hin as [-> | Hin].
  - unfold process_file. rewrite Hread. discriminate.
  - destruct (process_file W n a dist_path minify)
      as [[[[o c] n']|e']|]; try discriminate.
    now apply IH.
Qed.

(** X18. One page that cannot be read makes the whole build fail: the error
    leaves [build_project], which then yields no output tree, whatever the
    other pages are. *)
Theorem unreadable_page_fails_the_build
        (W : World) (src_dir dist_dir : str) (minify : bool)
        (f : path) (e : exn) (t : tree) :
  In f (html_files W (parse src_dir)) ->
  read_text W f = Raise e ->
  build_project W src_dir dist_dir minify <> Some (Ret t).
Proof.
  intros Hin Hread. unfold build_project.
  destruct (build_files W 0 _ _ minify []) as [[t0|e0]|] eqn:E;
    try discriminate.
  exfalso.
  exact (build_files_unreadable W (parse dist_dir) minify f e Hread
           _ 0 [] t0 Hin E).
Qed.

Lemma unreadable_page_witness :
  build_project Demo.site (L "/nowhere") (L "/site/dist") true
  <> Some (Ret []).
Proof.
  apply (unreadable_page_fails_the_build
           Demo.site (L "/nowhere") (L "/site/dist") true
           (parse (L "/nowhere/pages/index.html")) FileNotFoundError []).
  - left. reflexivity.
  - reflexivity.
Defined.
